(** * napari [examples/dev/triangle_edge.py]: the helper-vector generators

    A shallow embedding of the array code of [examples/dev/triangle_edge.py]
    and the properties stated about it.

    - Scalars.  The script computes on [float64] arrays.  The embedding is
      written once over a numeric layer [Scalar] and read at two instances:
      [float] (IEEE 754 binary64, the kernel's primitive floats: every
      operation rounded to nearest, as NumPy's elementwise operations are)
      and [R] (exact arithmetic).  The point arrays are taken as [float64],
      as the data of a [Shapes] layer is; the integer literals of the script
      are small enough for their differences to be the same in both.
    - Arrays.  NumPy arrays are mutable objects: the functions allocate
      ([np.empty], [.copy()], [np.concatenate]) and assign in place.  Arrays
      live in a heap, a function receives and returns references, and the
      program is a computation in a state-and-exception monad. *)

From Stdlib Require Import ZArith Reals Lra Floats SpecFloat.
From stdpp Require Import base list.

Set Default Proof Using "Type".

(** ** The numeric layer *)

(** The operations of [float64] the script uses, and the two literals it
    multiplies by ([feqb] and [fltb], the comparisons [==] and [<], serve the
    edge-mesh model only).  [ffma x y z] is the fused multiply-add,
    [x * y + z] rounded once: NumPy's [dot] of two [float64] rows goes to
    the BLAS routine [ddot], whose kernel starts from [fzero] and
    accumulates the products with it, one after the other.  Two laws hold
    in binary64 as in exact arithmetic: the square of a difference forgets
    its orientation, and multiplying by [-1] negates (line 52 of the
    script). *)
Class Scalar (F : Type) : Type := MkScalar {
  fzero : F;                     (* 0.0 *)
  fhalf : F;                     (* 0.5 *)
  fminus1 : F;                   (* -1 *)
  fadd : F → F → F;
  fsub : F → F → F;
  fmul : F → F → F;
  fdiv : F → F → F;
  fneg : F → F;
  fsqrt : F → F;
  ffma : F → F → F → F;
  feqb : F → F → bool;
  fltb : F → F → bool;
  sq_sub_sym : ∀ a b : F, fmul (fsub a b) (fsub a b) = fmul (fsub b a) (fsub b a);
  fmul_minus1 : ∀ a : F, fmul a fminus1 = fneg a
}.
(** ** Arrays *)

(** The exceptions the modelled statements can raise. *)
Inductive exn : Set := IndexError | ValueError | TypeError.

Inductive outcome (A : Type) : Type :=
| Ret (a : A)
| Raise (e : exn).
Arguments Ret {A} a.
Arguments Raise {A} e.

Definition ref : Set := nat.

(** A row [p[i]] of an array of shape [(N, 2)]: a pair of scalars. *)
Abbreviation xy F := (F * F)%type.

(** A row [vec[i]] of an array of shape [(N, 2, 2)], the data of a
    napari [Vectors] layer: [vec[i, 0]] is the origin and [vec[i, 1]] the
    direction. *)
Abbreviation vector F := (xy F * xy F)%type.

Section Arrays.
Context {F : Type}.

Definition origin (v : vector F) : xy F := v.1.
Definition direction (v : vector F) : xy F := v.2.

Inductive ndarray : Type :=
| Points (rows : list (xy F))              (* float64, shape (N, 2) *)
| Vectors (rows : list (vector F))           (* float64, shape (N, 2, 2) *)
| Triangles (rows : list (Z * Z * Z)).   (* integer, shape (T, 3) *)

(** The heap: the array objects, and what sits in the memory that no
    array has written: [fresh_memory k i] is found at row [i] from the
    start of the [k]-th object allocated.  [np.empty] hands it out as the
    rows of the new array, and a read that checks no bounds finds it
    outside an array.  No function may depend on it. *)
Record heap : Type := Heap {
  objects : list ndarray;
  fresh_memory : nat → nat → vector F
}.

Definition M (A : Type) : Type := heap → heap * outcome A.

Definition ret {A} (a : A) : M A := λ h, (h, Ret a).
Definition raise {A} (e : exn) : M A := λ h, (h, Raise e).
Definition bind {A B} (m : M A) (k : A → M B) : M B :=
  λ h, match m h with
       | (h', Ret a) => k a h'
       | (h', Raise e) => (h', Raise e)
       end.
Definition lift {A} (o : outcome A) : M A := λ h, (h, o).

End Arrays.
Arguments ndarray F : clear implicits.
Arguments heap F : clear implicits.
Arguments M F A : clear implicits.

Declare Scope py_scope.
Delimit Scope py_scope with py.
Notation "x ← m ; k" := (bind m (λ x, k))
  (at level 20, m at level 100, k at level 200, only parsing) : py_scope.
Notation "m ;; k" := (bind m (λ _, k))
  (at level 100, k at level 200, only parsing, right associativity) : py_scope.
Open Scope py_scope.

Section Numpy.
Context {F : Type} {SF : Scalar F}.
Implicit Types (h : heap F) (r : ref) (p : list (xy F)) (v : list (vector F)).

(** *** Arithmetic on rows of length 2 *)

Definition vadd (a b : xy F) : xy F := (fadd a.1 b.1, fadd a.2 b.2).
Definition vsub (a b : xy F) : xy F := (fsub a.1 b.1, fsub a.2 b.2).
Definition vneg (a : xy F) : xy F := (fneg a.1, fneg a.2).
Definition vscale (a : xy F) (c : F) : xy F := (fmul a.1 c, fmul a.2 c).
Definition vdiv (a : xy F) (c : F) : xy F := (fdiv a.1 c, fdiv a.2 c).
Definition dot (a b : xy F) : F := fadd (fmul a.1 b.1) (fmul a.2 b.2).

(** [np.linalg.norm(n, axis=1, keepdims=True)] on a row of length 2: the
    square root of the sum of the squares, [sqrt(add.reduce(x * x, axis))]:
    the squares are rounded, then added. *)
Definition norm (a : xy F) : F := fsqrt (dot a a).

(** [x.dot(y)] of two rows of length 2, through BLAS: the accumulator
    starts at [0.0] and takes the products in order, each with one fused
    multiply-add. *)
Definition blas_dot (a b : xy F) : F := ffma a.2 b.2 (ffma a.1 b.1 fzero).

(** [np.linalg.norm(x)] of a single row, without [axis]:
    [sqrt(x.dot(x))]. *)
Definition linalg_norm (a : xy F) : F := fsqrt (blas_dot a a).

(** *** Objects *)

Definition alloc (a : ndarray F) : M F ref :=
  λ h, (Heap (objects h ++ [a]) (fresh_memory h), Ret (length (objects h))).

Definition load r : M F (ndarray F) :=
  λ h, match objects h !! r with
       | Some a => (h, Ret a)
       | None => (h, Raise TypeError)
       end.

Definition store r (a : ndarray F) : M F unit :=
  λ h, (Heap (<[r := a]> (objects h)) (fresh_memory h), Ret tt).

Definition load_points r : M F (list (xy F)) :=
  a ← load r; match a with Points p => ret p | _ => raise TypeError end.
Definition load_vectors r : M F (list (vector F)) :=
  a ← load r; match a with Vectors v => ret v | _ => raise TypeError end.
Definition load_triangles r : M F (list (Z * Z * Z)) :=
  a ← load r; match a with Triangles t => ret t | _ => raise TypeError end.

(** [np.empty((n, 2, 2))]: a new object holding whatever the memory held. *)
Definition np_empty (n : nat) : M F ref :=
  λ h, alloc (Vectors (fresh_memory h (length (objects h)) <$> seq 0 n)) h.

(** [a.copy()] *)
Definition np_copy r : M F ref :=
  v ← load_vectors r; alloc (Vectors v).

(** [np.concatenate([a, b], axis=0)] *)
Definition np_concatenate r1 r2 : M F ref :=
  a ← load_vectors r1; b ← load_vectors r2; alloc (Vectors (a ++ b)).

(** *** Indexing and slices *)

(** A Python index into a sequence of length [n]: negative indices count
    from the end, and an index out of range raises [IndexError].  (The
    functions decorated with [numba.njit] read rows without this check:
    [getrow] below.) *)
Definition index (n : nat) (i : Z) : outcome nat :=
  let j := if (i <? 0)%Z then (i + Z.of_nat n)%Z else i in
  if decide (0 ≤ j < Z.of_nat n)%Z then Ret (Z.to_nat j) else Raise IndexError.

Definition getitem {A} (l : list A) (i : Z) : M F A :=
  k ← lift (index (length l) i);
  match l !! k with Some x => ret x | None => raise IndexError end.

(** NumPy broadcasting of [src] along the first axis of a target of [n]
    rows: equal lengths, or a single row repeated. *)
Definition broadcast {A} (n : nat) (src : list A) : outcome (list A) :=
  if decide (length src = n) then Ret src
  else match src with
       | [x] => Ret (replicate n x)
       | _ => Raise ValueError
       end.

(** In-place assignment to the object [r]. *)
Definition assign r (f : list (vector F) → outcome (list (vector F))) : M F unit :=
  v ← load_vectors r; v' ← lift (f v); store r (Vectors v').

Definition with_origin (x : xy F) (row : vector F) : vector F := (x, direction row).
Definition with_direction (d : xy F) (row : vector F) : vector F := (origin row, d).

(** [a[:, 0] = src] *)
Definition set_origins (src : list (xy F)) v : outcome (list (vector F)) :=
  match broadcast (length v) src with
  | Ret s => Ret (zip_with (λ row x, with_origin x row) v s)
  | Raise e => Raise e
  end.

(** [a[:, 1] = src] *)
Definition set_directions (src : list (xy F)) v : outcome (list (vector F)) :=
  match broadcast (length v) src with
  | Ret s => Ret (zip_with (λ row d, with_direction d row) v s)
  | Raise e => Raise e
  end.

(** [a[:-1, 1] = src] *)
Definition set_directions_init (src : list (xy F)) v : outcome (list (vector F)) :=
  let k := length v - 1 in
  match broadcast k src with
  | Ret s => Ret (zip_with (λ row d, with_direction d row) (take k v) s ++ drop k v)
  | Raise e => Raise e
  end.

(** [a[i, 0] = x] and [a[i, 1] = d] *)
Definition setitem_origin (i : Z) (x : xy F) v : outcome (list (vector F)) :=
  match index (length v) i with
  | Ret k => Ret (alter (with_origin x) k v)
  | Raise e => Raise e
  end.
Definition setitem_direction (i : Z) (d : xy F) v : outcome (list (vector F)) :=
  match index (length v) i with
  | Ret k => Ret (alter (with_direction d) k v)
  | Raise e => Raise e
  end.

(** [a[:, 1] *= c] *)
Definition imul_directions (c : F) v : outcome (list (vector F)) :=
  Ret ((λ row, with_direction (vscale (direction row) c) row) <$> v).

(** [a[:, 0] += src] *)
Definition iadd_origins (src : list (xy F)) v : outcome (list (vector F)) :=
  match broadcast (length v) src with
  | Ret s => Ret (zip_with (λ row x, with_origin (vadd (origin row) x) row) v s)
  | Raise e => Raise e
  end.

(** [a[:, 1, 0] = src] and [a[:, 1, 1] = src] *)
Definition set_directions_x (src : list F) v : outcome (list (vector F)) :=
  match broadcast (length v) src with
  | Ret s => Ret (zip_with (λ row x, with_direction (x, (direction row).2) row) v s)
  | Raise e => Raise e
  end.
Definition set_directions_y (src : list F) v : outcome (list (vector F)) :=
  match broadcast (length v) src with
  | Ret s => Ret (zip_with (λ row y, with_direction ((direction row).1, y) row) v s)
  | Raise e => Raise e
  end.

(** A read compiled by [numba.njit]: a negative index wraps around once,
    no bound is checked, and nothing is raised.  Out of range, at row [j]
    from the start of the array, the read returns what the memory holds
    there. *)
Definition stray (memory : nat → nat → vector F) (a : ref) (j : Z) : xy F :=
  if (j <? 0)%Z then direction (memory a (Z.to_nat (- j)))
  else origin (memory a (Z.to_nat j)).

Definition unchecked_row (memory : nat → nat → vector F) (a : ref) (l : list (xy F)) (i : Z)
  : xy F :=
  let j := if (i <? 0)%Z then (i + Z.of_nat (length l))%Z else i in
  match (if (j <? 0)%Z then None else l !! Z.to_nat j) with
  | Some x => x
  | None => stray memory a j
  end.

(** [np.roll(a, shift, axis=0)] *)
Definition np_roll {A} (a : list A) (shift : nat) : list A :=
  match length a with
  | 0 => a
  | S _ as n => let s := shift `mod` n in drop (n - s) a ++ take (n - s) a
  end.

(** [for i, x in enumerate(l): body] *)
Fixpoint for_enumerate {A} (i : nat) (l : list A) (body : nat → A → M F unit) : M F unit :=
  match l with
  | [] => ret tt
  | x :: l' => body i x ;; for_enumerate (S i) l' body
  end.

End Numpy.

(** ** The functions of [triangle_edge.py] *)

Section TriangleEdge.
Context {F : Type} {SF : Scalar F}.

(** [generate_order_vectors(path_, closed)], lines 27-39. *)
Definition generate_order_vectors (path_ : ref) (closed : bool) : M F ref :=
  p ← load_points path_;
  (* n = path_[1:] - path_[:-1] *)
  let n := zip_with vsub (drop 1 p) (take (length p - 1) p) in
  (* norm = np.linalg.norm(n, axis=1, keepdims=True) *)
  let norm_ := norm <$> n in
  (* normals = n / norm *)
  let normals := zip_with vdiv n norm_ in
  (* vec = np.empty((path_.shape[0], 2, 2)) *)
  vec ← np_empty (length p);
  (* vec[:, 0] = path_ *)
  assign vec (set_origins p) ;;
  (* vec[:-1, 1] = normals *)
  assign vec (set_directions_init normals) ;;
  (if closed then
     (* vec[-1, 1] = (path_[0] - path_[-1]) / np.linalg.norm(path_[-1] - path_[0]) *)
     a ← getitem p 0; b ← getitem p (-1);
     c ← getitem p (-1); d ← getitem p 0;
     assign vec (setitem_direction (-1) (vdiv (vsub a b) (linalg_norm (vsub c d))))
   else
     (* vec[-1, 1] = -vec[-2, 1] *)
     v ← load_vectors vec; w ← getitem v (-2);
     assign vec (setitem_direction (-1) (vneg (direction w)))) ;;
  ret vec.

(** [generate_miter_helper_vectors(normal_vector)], lines 42-55. *)
Definition generate_miter_helper_vectors (normal_vector : ref) : M F ref :=
  (* vec2 = normal_vector.copy() *)
  vec2 ← np_copy normal_vector;
  (* vec2[:, 1] *= 0.5 *)
  assign vec2 (imul_directions fhalf) ;;
  (* vec3 = vec2.copy() *)
  vec3 ← np_copy vec2;
  (* vec3[:, 1] *= -1 *)
  assign vec3 (imul_directions fminus1) ;;
  (* vec3[:, 1] = np.roll(vec3[:, 1], 1, axis=0) *)
  v3 ← load_vectors vec3;
  assign vec3 (set_directions (np_roll (direction <$> v3) 1)) ;;
  (* vec3[:, 0] += vec2[:, 1] *)
  v2 ← load_vectors vec2;
  assign vec3 (iadd_origins (direction <$> v2)) ;;
  (* return np.concatenate([vec2, vec3], axis=0) *)
  np_concatenate vec2 vec3.

(** [generate_orthogonal_vectors(normal_vector)], lines 57-70. *)
Definition generate_orthogonal_vectors (normal_vector : ref) : M F ref :=
  (* vec2 = normal_vector.copy() *)
  vec2 ← np_copy normal_vector;
  (* vec2[:, 1] *= 0.5 *)
  assign vec2 (imul_directions fhalf) ;;
  (* vec5 = vec2.copy() *)
  vec5 ← np_copy vec2;
  (* vec5[:, 0] += vec2[:, 1] *)
  v2 ← load_vectors vec2;
  assign vec5 (iadd_origins (direction <$> v2)) ;;
  (* vec5[:, 1, 0] = -vec2[:, 1, 1] *)
  v2 ← load_vectors vec2;
  assign vec5 (set_directions_x ((λ row, fneg (direction row).2) <$> v2)) ;;
  (* vec5[:, 1, 1] = vec2[:, 1, 0] *)
  v2 ← load_vectors vec2;
  assign vec5 (set_directions_y ((λ row, (direction row).1) <$> v2)) ;;
  ret vec5.

(** [generate_mitter_vectors(mesh)], lines 72-79; [mesh] is the triple
    [(edge_vertices, edge_offsets, edge_triangles)]. *)
Definition generate_mitter_vectors (mesh : ref * ref * ref) : M F ref :=
  let '(mesh0, mesh1, _) := mesh in
  (* vec_points = np.empty((mesh[0].shape[0], 2, 2)) *)
  m0 ← load_points mesh0;
  vec_points ← np_empty (length m0);
  (* vec_points[:, 0] = mesh[0] *)
  m0 ← load_points mesh0;
  assign vec_points (set_origins m0) ;;
  (* vec_points[:, 1] = mesh[1] *)
  m1 ← load_points mesh1;
  assign vec_points (set_directions m1) ;;
  ret vec_points.

(** [a[i]] for an array of shape [(N, 2)], in the two functions below:
    both are compiled by [numba.njit], which checks no bounds. *)
Definition getrow (a : ref) (i : Z) : M F (xy F) :=
  p ← load_points a; λ h, (h, Ret (unchecked_row (fresh_memory h) a p i)).

(** The body shared by the two loops: the three borders of the triangle
    with corners [a1], [b1], [c1] go to rows [3i], [3i+1], [3i+2].  These
    rows exist, [res] has three for every triangle, so that the writes need
    no bounds check. *)
Definition write_borders (res : ref) (i : nat) (a1 b1 c1 : xy F) : M F unit :=
  (* res[i * 3, 0] = a1 ; res[i * 3, 1] = (b1 - a1) *)
  assign res (setitem_origin (Z.of_nat i * 3) a1) ;;
  assign res (setitem_direction (Z.of_nat i * 3) (vsub b1 a1)) ;;
  (* res[i * 3 + 1, 0] = b1 ; res[i * 3 + 1, 1] = (c1 - b1) *)
  assign res (setitem_origin (Z.of_nat i * 3 + 1) b1) ;;
  assign res (setitem_direction (Z.of_nat i * 3 + 1) (vsub c1 b1)) ;;
  (* res[i * 3 + 2, 0] = c1 ; res[i * 3 + 2, 1] = (a1 - c1) *)
  assign res (setitem_origin (Z.of_nat i * 3 + 2) c1) ;;
  assign res (setitem_direction (Z.of_nat i * 3 + 2) (vsub a1 c1)).

(** [generate_edge_triangle_borders(centers, offsets, triangles)],
    lines 81-97. *)
Definition generate_edge_triangle_borders (centers offsets triangles : ref) : M F ref :=
  t ← load_triangles triangles;
  (* res = np.empty((len(triangles)*3, 2, 2), dtype=centers.dtype) *)
  res ← np_empty (length t * 3);
  (* for i, triangle in enumerate(triangles): a, b, c = triangle *)
  for_enumerate 0 t (λ i '(a, b, c),
    (* a1 = centers[a] + offsets[a] *)
    a1 ← (ca ← getrow centers a; oa ← getrow offsets a; ret (vadd ca oa));
    (* b1 = centers[b] + offsets[b] *)
    b1 ← (cb ← getrow centers b; ob ← getrow offsets b; ret (vadd cb ob));
    (* c1 = centers[c] + offsets[c] *)
    c1 ← (cc ← getrow centers c; oc ← getrow offsets c; ret (vadd cc oc));
    write_borders res i a1 b1 c1) ;;
  ret res.

(** [generate_face_triangle_borders(vertices, triangles)], lines 99-115. *)
Definition generate_face_triangle_borders (vertices triangles : ref) : M F ref :=
  t ← load_triangles triangles;
  (* res = np.empty((len(triangles)*3, 2, 2), dtype=vertices.dtype) *)
  res ← np_empty (length t * 3);
  (* for i, triangle in enumerate(triangles): a, b, c = triangle *)
  for_enumerate 0 t (λ i '(a, b, c),
    (* a1 = vertices[a] ; b1 = vertices[b] ; c1 = vertices[c] *)
    a1 ← getrow vertices a;
    b1 ← getrow vertices b;
    c1 ← getrow vertices c;
    write_borders res i a1 b1 c1) ;;
  ret res.

(** What a call leaves behind: the contents of the array it returns, or
    the exception it raises. *)
Definition result (m : M F ref) (h : heap F) : outcome (list (vector F)) :=
  match m h with
  | (h', Ret r) =>
      match objects h' !! r with
      | Some (Vectors v) => Ret v
      | _ => Raise TypeError
      end
  | (_, Raise e) => Raise e
  end.

(** A call is free of side effects when every object of the heap it
    started in is still there unchanged: the call only allocates. *)
Definition pure (m : M F ref) (h : heap F) : Prop :=
  objects h `prefix_of` objects (m h).1 ∧ fresh_memory (m h).1 = fresh_memory h.

End TriangleEdge.

(** ** What the calls compute

    The contents of the array each function returns, as a function of the
    contents of the arrays it was given.  [computes] ties a call to them; the
    equations are proved further down, one per function. *)

Section Values.
Context {F : Type} {SF : Scalar F}.
Implicit Types (p : list (xy F)) (nv : list (vector F)).

(** The unit vector from [a] towards [b]: the difference divided by its
    norm. *)
Definition unit_vector (a b : xy F) : xy F := vdiv (vsub b a) (norm (vsub b a)).

(** The directions of the [N - 1] segments of a path of [N] points. *)
Definition segment_directions p : list (xy F) :=
  zip_with unit_vector (take (length p - 1) p) (drop 1 p).

(** The direction that closes a path, from the last point [final] back to
    the first one, as line 36 computes it: the difference [first - final]
    divided by the norm of the single row [final - first]. *)
Definition closing_direction (final first : xy F) : xy F :=
  vdiv (vsub first final) (linalg_norm (vsub final first)).

(** The direction of the last record. *)
Definition last_direction p (closed : bool) : outcome (xy F) :=
  if closed then
    match head p, last p with
    | Some a, Some b => Ret (closing_direction b a)
    | _, _ => Raise IndexError
    end
  else
    match segment_directions p !! (length p - 2) with
    | Some d => Ret (vneg d)
    | None => Raise IndexError
    end.

Definition order_vectors p (closed : bool) : outcome (list (vector F)) :=
  match last_direction p closed with
  | Ret t => Ret (zip p (segment_directions p ++ [t]))
  | Raise e => Raise e
  end.

(** A row of [vec2] in both helper generators: the direction scaled by
    [0.5]. *)
Definition half_vector (row : vector F) : vector F :=
  (origin row, vscale (direction row) fhalf).

Definition miter_helper_vectors nv : list (vector F) :=
  let vec2 := half_vector <$> nv in
  let rolled := np_roll ((λ row, vscale (direction row) fminus1) <$> vec2) 1 in
  vec2 ++ zip_with (λ row d, (vadd (origin row) (direction row), d)) vec2 rolled.

(** The rotation by a quarter turn, [(x, y)] to [(-y, x)]. *)
Definition rot90 (t : xy F) : xy F := (fneg t.2, t.1).

Definition orthogonal_vector (row : vector F) : vector F :=
  let d := vscale (direction row) fhalf in
  (vadd (origin row) d, rot90 d).

Definition orthogonal_vectors nv : list (vector F) := orthogonal_vector <$> nv.

(** [mesh[1]] broadcast against the rows of [mesh[0]]. *)
Definition mitter_vectors (mesh0 mesh1 : list (xy F)) : outcome (list (vector F)) :=
  match broadcast (length mesh0) mesh1 with
  | Ret offsets => Ret (zip mesh0 offsets)
  | Raise e => Raise e
  end.

(** [a[i]] on the contents of an array of shape [(N, 2)], for an index in
    range. *)
Definition lookup_row (l : list (xy F)) (i : Z) : outcome (xy F) :=
  match index (length l) i with
  | Ret k => match l !! k with Some x => Ret x | None => Raise IndexError end
  | Raise e => Raise e
  end.

(** The three borders of the triangle with corners [a1], [b1], [c1]. *)
Definition border_rows (a1 b1 c1 : xy F) : list (vector F) :=
  [(a1, vsub b1 a1); (b1, vsub c1 b1); (c1, vsub a1 c1)].

Fixpoint triangle_borders (corner : Z → outcome (xy F)) (ts : list (Z * Z * Z))
  : outcome (list (vector F)) :=
  match ts with
  | [] => Ret []
  | (a, b, c) :: ts' =>
      match corner a with
      | Raise e => Raise e
      | Ret a1 =>
          match corner b with
          | Raise e => Raise e
          | Ret b1 =>
              match corner c with
              | Raise e => Raise e
              | Ret c1 =>
                  match triangle_borders corner ts' with
                  | Raise e => Raise e
                  | Ret rows => Ret (border_rows a1 b1 c1 ++ rows)
                  end
              end
          end
      end
  end.

(** [centers[i] + offsets[i]] *)
Definition edge_corner (centers offsets : list (xy F)) (i : Z) : outcome (xy F) :=
  match lookup_row centers i with
  | Raise e => Raise e
  | Ret c =>
      match lookup_row offsets i with
      | Raise e => Raise e
      | Ret o => Ret (vadd c o)
      end
  end.

Definition edge_triangle_borders (centers offsets : list (xy F)) ts :=
  triangle_borders (edge_corner centers offsets) ts.
Definition face_triangle_borders (vertices : list (xy F)) ts :=
  triangle_borders (lookup_row vertices) ts.

(** The same for any indices, as the compiled functions run: the corners
    are read without bounds checks from the arrays [centers], [offsets] and
    [vertices] of contents [cs], [os] and [vs]. *)
Definition unchecked_edge_triangle_borders (memory : nat → nat → vector F)
    (centers offsets : ref) (cs os : list (xy F)) ts :=
  triangle_borders
    (λ i, Ret (vadd (unchecked_row memory centers cs i) (unchecked_row memory offsets os i)))
    ts.
Definition unchecked_face_triangle_borders (memory : nat → nat → vector F)
    (vertices : ref) (vs : list (xy F)) ts :=
  triangle_borders (λ i, Ret (unchecked_row memory vertices vs i)) ts.

(** [computes m h o]: run in [h], the call [m] ends as [o] says (it returns
    a reference to an array with these contents, or raises this exception),
    and all it did to the heap was to allocate: the objects of [h] are still
    there, unchanged, below the new ones. *)
Definition computes (m : M F ref) (h : heap F) (o : outcome (list (vector F))) : Prop :=
  match o with
  | Ret v => ∃ r extra, m h = (Heap (objects h ++ extra) (fresh_memory h), Ret r)
                        ∧ (objects h ++ extra) !! r = Some (Vectors v)
  | Raise e => ∃ extra, m h = (Heap (objects h ++ extra) (fresh_memory h), Raise e)
  end.

End Values.

(** ** The edge mesh

    Modelled from the spec: [generate_2D_edge_meshes], which the script
    imports from [napari.layers.shapes._shapes_utils] (line 8) and only
    calls (lines 150 and 227); that module is not among the sources.  The
    model follows the component design of the specification, sections 4.1
    to 4.4, sentence by sentence.  The miter limit, which the specification
    leaves open, is a parameter. *)

Section EdgeMesh.
Context {F : Type} {SF : Scalar F}.
Implicit Types (p : list (xy F)).

(** The error of the Path Normalizer (4.1). *)
Inductive mesh_error : Set := DegeneratePathError.

Definition coincide (a b : xy F) : bool := feqb a.1 b.1 && feqb a.2 b.2.

(** 4.1: "dedups consecutive coincident points". *)
Fixpoint dedup p : list (xy F) :=
  match p with
  | a :: (b :: _) as rest => if coincide a b then dedup rest else a :: dedup rest
  | _ => p
  end.

(** 4.1: "input raw vertex sequence + closed flag -> validated path.
    Rejects (fails with DegeneratePathError) paths with fewer than 2 points
    (open) or 3 points (closed) after deduplication."  On a closed path the
    last point and the first are consecutive too. *)
Definition normalize (raw : list (xy F)) (closed : bool) : mesh_error + list (xy F) :=
  let p := dedup raw in
  let p := if closed then
             match head p, last p with
             | Some a, Some b =>
                 if coincide b a && bool_decide (1 < length p) then removelast p else p
             | _, _ => p
             end
           else p in
  if bool_decide (length p < (if closed then 3 else 2)) then inl DegeneratePathError
  else inr p.

(** 4.3: the join at a path point is a tagged variant (section 9): the
    plain perpendicular normal at the two ends of an open path, one mitered
    offset, or the pair of the two un-mitered segment normals. *)
Inductive join : Type :=
| Cap (normal : xy F)
| Miter (offset : xy F)
| Bevel (normal_in normal_out : xy F).

(** 4.3: "The half-width offset at a join is
    bisector / (bisector . segment_normal)", the bisector being that of the
    two adjacent segment normals. *)
Definition miter_offset (normal_in normal_out : xy F) : xy F :=
  let bisector := vadd normal_in normal_out in
  vdiv bisector (dot bisector normal_out).

(** The offset magnitude [m] is within the multiplier: it does not exceed
    it, and it is at most the multiplier.  In exact arithmetic the second
    follows from the first; in binary64 the magnitude of the offset [0/0] of
    an exact direction reversal is NaN, which neither exceeds the
    multiplier nor is within it. *)
Definition within (limit m : F) : bool :=
  negb (fltb limit m) && (fltb m limit || feqb m limit).

(** 4.3: "normal = tangent rotated 90 degrees"; "when the computed offset
    magnitude exceeds this multiplier, fall back to a bevel join"; "stable
    geometry for paths with [...] alternating direction reversals [...]
    without emitting NaN/Inf vectors": the mitered offset is used when its
    magnitude is within the multiplier, and every other join is a bevel. *)
Definition resolve_join (limit : F) (tangent_in tangent_out : xy F) : join :=
  let normal_in := rot90 tangent_in in
  let normal_out := rot90 tangent_out in
  let offset := miter_offset normal_in normal_out in
  if within limit (norm offset) then Miter offset else Bevel normal_in normal_out.

(** The join of every point, from the tangent of the segment that arrives
    at it and of the one that leaves it (4.2, 4.3).  Closed: the segment
    from the last point back to the first arrives at point 0.  Open: "Open-path
    endpoints use the plain perpendicular normal (no miter)". *)
Definition joins (limit : F) p (closed : bool) : list join :=
  let t := segment_directions p in
  if closed then
    match head p, last p with
    | Some a, Some b =>
        let t := t ++ [unit_vector b a] in
        zip_with (resolve_join limit) (np_roll t 1) t
    | _, _ => []
    end
  else
    match head t, last t with
    | Some t0, Some tl =>
        Cap (rot90 t0) :: zip_with (resolve_join limit) t (drop 1 t) ++ [Cap (rot90 tl)]
    | _, _ => []
    end.

Definition is_bevel (j : join) : bool :=
  match j with Bevel _ _ => true | _ => false end.

(** 4.4: "2 vertices per path point (inner offset point and outer offset
    point)"; 4.3: a bevel emits "the two un-mitered segment-normal offsets
    as a pair rather than a single mitered point, duplicating the join
    vertex".  Each vertex is its path point with its offset. *)
Definition join_vertices (x : xy F) (j : join) : list (vector F) :=
  match j with
  | Cap n => [(x, vneg n); (x, n)]
  | Miter o => [(x, vneg o); (x, o)]
  | Bevel n_in n_out => [(x, vneg n_in); (x, n_in); (x, n_out)]
  end.

(** The number of vertices of a join, and the index of the first vertex of
    each join in the vertex buffer. *)
Definition width (j : join) : nat := if is_bevel j then 3 else 2.
Definition bases (js : list join) : list nat :=
  (λ k, sum_list (width <$> take k js)) <$> seq 0 (length js).

(** The outer vertex a join offers to the segment that arrives at it and to
    the one that leaves it; the inner vertex is the first one. *)
Definition outer_in (base : nat) (j : join) : nat := base + 1.
Definition outer_out (base : nat) (j : join) : nat :=
  if is_bevel j then base + 2 else base + 1.

(** 4.4: "2 triangles per segment". *)
Definition segment_triangles (s e : nat * join) : list (nat * nat * nat) :=
  [(s.1, outer_out s.1 s.2, outer_in e.1 e.2); (s.1, outer_in e.1 e.2, e.1)].

(** 4.3: "so the edge mesh gets an extra triangle covering the bevel
    corner". *)
Definition bevel_triangles (s : nat * join) : list (nat * nat * nat) :=
  if is_bevel s.2 then [(s.1, s.1 + 1, s.1 + 2)] else [].

(** Section 3, EdgeMesh. *)
Record EdgeMesh : Type := {
  vertices : list (xy F);
  offsets : list (xy F);
  triangles : list (nat * nat * nat)
}.

(** 4.4: the ribbon; "N-1 segments for open, N for closed including the
    wraparound segment". *)
Definition assemble p (js : list join) (closed : bool) : EdgeMesh :=
  let vs := concat (zip_with join_vertices p js) in
  let ends := zip (bases js) js in
  let nexts := if closed then np_roll ends (length ends - 1) else drop 1 ends in
  {| vertices := origin <$> vs;
     offsets := direction <$> vs;
     triangles := concat (zip_with segment_triangles ends nexts)
                  ++ concat (bevel_triangles <$> ends) |}.

Definition generate_2D_edge_meshes (limit : F) (path : list (xy F)) (closed : bool)
  : mesh_error + EdgeMesh :=
  match normalize path closed with
  | inl e => inl e
  | inr p => inr (assemble p (joins limit p closed) closed)
  end.

(** The number of segments of a path of [n] points, and of bevel joins. *)
Definition segment_count (n : nat) (closed : bool) : nat := if closed then n else n - 1.
Definition bevel_count (js : list join) : nat := length (filter (λ j, is_bevel j = true) js).

(** The three indices of a triangle point into a buffer of [n] vertices. *)
Definition indices_in_range (n : nat) (t : nat * nat * nat) : bool :=
  bool_decide (t.1.1 < n) && bool_decide (t.1.2 < n) && bool_decide (t.2 < n).

End EdgeMesh.

(** ** Predicates of the properties *)

Section Predicates.
Context {F : Type} {SF : Scalar F}.

(** Two calls end alike, and neither touched what was in its heap. *)
Definition same_outcome (m1 : M F ref) (h1 : heap F) (m2 : M F ref) (h2 : heap F) : Prop :=
  result m1 h1 = result m2 h2 ∧ pure m1 h1 ∧ pure m2 h2.

(** An index a sequence of [n] rows accepts. *)
Definition in_range (n : nat) (i : Z) : Prop := (- Z.of_nat n ≤ i < Z.of_nat n)%Z.

(** Every index of every triangle is accepted by a buffer of [n] rows. *)
Definition valid_triangles (n : nat) (ts : list (Z * Z * Z)) : Prop :=
  ∀ a b c i, (a, b, c) ∈ ts → i ∈ [a; b; c] → in_range n i.

(** Every corner of every triangle can be read. *)
Definition readable (corner : Z → outcome (xy F)) (ts : list (Z * Z * Z)) : Prop :=
  ∀ a b c, (a, b, c) ∈ ts →
    (∃ x, corner a = Ret x) ∧ (∃ x, corner b = Ret x) ∧ (∃ x, corner c = Ret x).

End Predicates.

(** ** The two arithmetics

    *** binary64 *)

Module Binary64.

Section Spec.
Variables prec emax : Z.

Lemma binary_round_aux_negb (s : bool) m e l :
  binary_round_aux prec emax (negb s) m e l
  = SFopp (binary_round_aux prec emax s m e l).
Proof.
  unfold binary_round_aux.
  destruct (shr_fexp prec emax m e l) as [mrs' e'].
  destruct (shr_fexp prec emax _ e' loc_Exact) as [mrs'' e''].
  destruct (shr_m mrs''); [reflexivity| |reflexivity].
  destruct (Z.leb e'' (emax - prec)%Z); reflexivity.
Qed.

Lemma binary_round_negb (s : bool) m e :
  binary_round prec emax (negb s) m e = SFopp (binary_round prec emax s m e).
Proof.
  unfold binary_round. destruct (shl_align _ _ _).
  apply binary_round_aux_negb.
Qed.

Lemma binary_normalize_opp m e :
  m ≠ 0%Z →
  binary_normalize prec emax (- m) e false
  = SFopp (binary_normalize prec emax m e false).
Proof.
  destruct m; simpl; intros Hm; [congruence| |].
  - apply (binary_round_negb false).
  - apply (binary_round_negb true).
Qed.

Lemma SFmul_opp_opp x :
  SFmul prec emax (SFopp x) (SFopp x) = SFmul prec emax x x.
Proof.
  destruct x as [s|s| |s m e]; simpl; try reflexivity; destruct s; reflexivity.
Qed.

Lemma SFsub_sq_sym x y :
  SFmul prec emax (SFsub prec emax x y) (SFsub prec emax x y)
  = SFmul prec emax (SFsub prec emax y x) (SFsub prec emax y x).
Proof.
  destruct x as [sx|sx| |sx mx ex], y as [sy|sy| |sy my ey]; simpl;
    try reflexivity;
    try (destruct sx, sy; reflexivity);
    try (destruct sx; reflexivity); try (destruct sy; reflexivity).
  rewrite (Z.min_comm ey ex).
  set (a := cond_Zopp sx _). set (b := cond_Zopp sy _).
  destruct (Z.eq_dec (a - b) 0)%Z as [E|E].
  - replace (b - a)%Z with 0%Z by lia. rewrite E. reflexivity.
  - replace (b - a)%Z with (- (a - b))%Z by lia.
    rewrite binary_normalize_opp by assumption.
    symmetry. apply SFmul_opp_opp.
Qed.

(** The fused multiply-add of IEEE 754, [x * y + z] rounded once to
    nearest even: the product of two finite numbers is exact, the sum is
    taken at the smaller exponent and normalised as [SFadd] does. *)
Definition SFfma (x y z : spec_float) : spec_float :=
  match x, y with
  | S754_nan, _ | _, S754_nan => S754_nan
  | S754_infinity _, S754_zero _ | S754_zero _, S754_infinity _ => S754_nan
  | S754_infinity sx, S754_infinity sy
  | S754_infinity sx, S754_finite sy _ _
  | S754_finite sx _ _, S754_infinity sy =>
      match z with
      | S754_nan => S754_nan
      | S754_infinity sz => if Bool.eqb (xorb sx sy) sz then z else S754_nan
      | _ => S754_infinity (xorb sx sy)
      end
  | S754_finite sx _ _, S754_zero sy
  | S754_zero sx, S754_finite sy _ _
  | S754_zero sx, S754_zero sy =>
      match z with
      | S754_zero _ => SFadd prec emax (S754_zero (xorb sx sy)) z
      | _ => z
      end
  | S754_finite sx mx ex, S754_finite sy my ey =>
      match z with
      | S754_nan => S754_nan
      | S754_infinity _ => z
      | S754_zero _ => SFmul prec emax x y
      | S754_finite sz mz ez =>
          let e := Z.min (ex + ey) ez in
          let product :=
            (cond_Zopp (xorb sx sy) (Z.pos (mx * my)) * 2 ^ (ex + ey - e))%Z in
          let addend := (cond_Zopp sz (Z.pos mz) * 2 ^ (ez - e))%Z in
          binary_normalize prec emax (product + addend) e
            (if Bool.eqb (xorb sx sy) sz then sz else false)
      end
  end.

(** A finite number minus itself is [+0]. *)
Lemma SFsub_diag x :
  match x with S754_zero _ | S754_finite _ _ _ => True | _ => False end →
  SFsub prec emax x x = S754_zero false.
Proof.
  destruct x as [s|s| |s m e]; simpl; try tauto; intros _.
  - destruct s; reflexivity.
  - rewrite Z.sub_diag. reflexivity.
Qed.
End Spec.

(** A binary64 number times [-1]: the mantissa shifted left by 52 bits
    rounds back to itself. *)
Lemma digits2_pos_shift (m : positive) :
  Z.pos (digits2_pos (Pos.iter xO m 52)) = (Z.pos (digits2_pos m) + 52)%Z.
Proof. cbn [Pos.iter digits2_pos]. lia. Qed.

Lemma SFmul_minus_one (x : spec_float) :
  valid_binary prec emax x = true →
  SFmul prec emax x (S754_finite true 4503599627370496 (-52)) = SFopp x.
Proof.
  destruct x as [s|s| |s m e].
  1-3: intros _; try destruct s; reflexivity.
  intros Hv. cbn [valid_binary] in Hv. unfold bounded, canonical_mantissa in Hv.
  apply andb_true_iff in Hv as [Hc He].
  apply Z.eqb_eq in Hc. rename Hc into Heq.
  unfold SFmul, binary_round_aux.
  replace (xorb s true) with (negb s) by (destruct s; reflexivity).
  rewrite Pos.mul_comm.
  change (4503599627370496 * m)%positive with (Pos.iter xO m 52).
  unfold shr_fexp at 1. unfold Zdigits2. rewrite digits2_pos_shift.
  replace (Z.pos (digits2_pos m) + 52 + (e + -52))%Z
    with (Z.pos (digits2_pos m) + e)%Z by lia.
  rewrite Heq. replace (e - (e + -52))%Z with 52%Z by lia.
  unfold shr.
  change (SpecFloat.iter_pos shr_1 52 (shr_record_of_loc (Z.pos (Pos.iter xO m 52)) loc_Exact))
    with {| shr_m := Z.pos m; shr_r := false; shr_s := false |}.
  replace (e + -52 + 52)%Z with e by lia.
  cbn [loc_of_shr_record round_nearest_even shr_m].
  unfold shr_fexp, Zdigits2. rewrite Heq, Z.sub_diag.
  cbn [shr shr_record_of_loc shr_m].
  rewrite He. reflexivity.
Qed.

(** A binary64 number times [0.5], when its unit in the last place is at
    least [2^-1073]: the exponent goes down by one, the mantissa stays. *)
Lemma SFmul_half (s : bool) (m : positive) (e : Z) :
  valid_binary prec emax (S754_finite s m e) = true → (-1073 ≤ e)%Z →
  SFmul prec emax (S754_finite s m e) (S754_finite false 4503599627370496 (-53))
  = S754_finite s m (e - 1).
Proof.
  intros Hv Hmin. cbn [valid_binary] in Hv. unfold bounded, canonical_mantissa in Hv.
  apply andb_true_iff in Hv as [Hc He].
  apply Z.eqb_eq in Hc. rename Hc into Heq.
  assert (Hfexp : fexp prec emax (Z.pos (digits2_pos m) + e - 1) = (e - 1)%Z).
  { unfold fexp, emin, prec, emax in *. lia. }
  unfold SFmul, binary_round_aux.
  replace (xorb s false) with s by (destruct s; reflexivity).
  rewrite Pos.mul_comm.
  change (4503599627370496 * m)%positive with (Pos.iter xO m 52).
  unfold shr_fexp at 1. unfold Zdigits2. rewrite digits2_pos_shift.
  replace (Z.pos (digits2_pos m) + 52 + (e + -53))%Z
    with (Z.pos (digits2_pos m) + e - 1)%Z by lia.
  rewrite Hfexp. replace (e - 1 - (e + -53))%Z with 52%Z by lia.
  unfold shr.
  change (SpecFloat.iter_pos shr_1 52 (shr_record_of_loc (Z.pos (Pos.iter xO m 52)) loc_Exact))
    with {| shr_m := Z.pos m; shr_r := false; shr_s := false |}.
  replace (e + -53 + 52)%Z with (e - 1)%Z by lia.
  cbn [loc_of_shr_record round_nearest_even shr_m].
  unfold shr_fexp, Zdigits2.
  replace (Z.pos (digits2_pos m) + (e - 1))%Z with (Z.pos (digits2_pos m) + e - 1)%Z by lia.
  rewrite Hfexp, Z.sub_diag.
  cbn [shr shr_record_of_loc shr_m].
  replace (e - 1 <=? emax - prec)%Z with true; [reflexivity|].
  symmetry. apply Z.leb_le. apply Z.leb_le in He. lia.
Qed.

Lemma float_mul_minus_one (x : float) : (x * -1 = - x)%float.
Proof.
  apply Prim2SF_inj. rewrite mul_spec, opp_spec.
  apply SFmul_minus_one, Prim2SF_valid.
Qed.

Lemma float_sq_sub_sym (a b : float) :
  ((a - b) * (a - b) = (b - a) * (b - a))%float.
Proof.
  apply Prim2SF_inj. rewrite !mul_spec, !sub_spec. apply SFsub_sq_sym.
Qed.

Lemma is_finite_SF (a : float) :
  is_finite a = true →
  match Prim2SF a with S754_zero _ | S754_finite _ _ _ => True | _ => False end.
Proof.
  unfold is_finite, is_nan, is_infinity.
  rewrite !FloatAxioms.eqb_spec, abs_spec.
  destruct (Prim2SF a) as [s|s| |s m e]; simpl; try tauto; try discriminate.
  destruct s; vm_compute; discriminate.
Qed.

Lemma sub_diag (a : float) : is_finite a = true → (a - a)%float = 0%float.
Proof.
  intros Hfin. apply Prim2SF_inj. rewrite sub_spec.
  unfold SF64sub. rewrite SFsub_diag by (apply is_finite_SF, Hfin).
  reflexivity.
Qed.

(** The fused multiply-add on [float]. *)
Definition fma (x y z : float) : float :=
  SF2Prim (SFfma prec emax (Prim2SF x) (Prim2SF y) (Prim2SF z)).

#[export] Instance scalar : Scalar float := {|
  fzero := 0%float;
  fhalf := 0.5%float;
  fminus1 := (-1)%float;
  fadd := PrimFloat.add;
  fsub := PrimFloat.sub;
  fmul := PrimFloat.mul;
  fdiv := PrimFloat.div;
  fneg := PrimFloat.opp;
  fsqrt := PrimFloat.sqrt;
  ffma := fma;
  feqb := PrimFloat.eqb;
  fltb := PrimFloat.ltb;
  sq_sub_sym := float_sq_sub_sym;
  fmul_minus1 := float_mul_minus_one
|}.

(** *** Inputs and predicates in binary64 *)

Definition finite_xy (a : xy float) : bool := is_finite a.1 && is_finite a.2.
Definition finite_vector (row : vector float) : bool :=
  finite_xy (origin row) && finite_xy (direction row).
Definition all_finite (v : list (vector float)) : bool := forallb finite_vector v.

(** The real number a finite binary64 number stands for. *)
Definition SF2R (x : spec_float) : R :=
  match x with
  | S754_finite s m e => (IZR (cond_Zopp s (Z.pos m)) * powerRZ 2 e)%R
  | _ => 0%R
  end.
Definition value (x : float) : R := SF2R (Prim2SF x).
Definition value_xy (a : xy float) : xy R := (value a.1, value a.2).

(** Numbers that [0.5] halves without rounding: zero, and the finite
    numbers whose unit in the last place is at least [2^-1073], which are
    those of magnitude at least [2^-1021]. *)
Definition halves_exactly (x : float) : bool :=
  match Prim2SF x with
  | S754_zero _ => true
  | S754_finite _ _ e => (-1073 <=? e)%Z
  | _ => false
  end.

(** Uninitialised memory that holds NaN everywhere. *)
Definition nan_memory : nat → nat → vector float := λ _ _, ((nan, nan), (nan, nan)).

(** Memory that holds [7] in the block of the first object, and NaN
    elsewhere. *)
Definition sevens_behind_vertices : nat → nat → vector float :=
  λ k _, match k with
         | 0 => ((7, 7), (7, 7))%float
         | _ => ((nan, nan), (nan, nan))
         end.

(** [sharp], line 121 of the script (the integers converted, as
    [np.linalg.norm] and the assignment into the [float64] array do). *)
Definition sharp : list (xy float) :=
  [(1, 1); (10, 0); (1, -1); (0, -10); (-1, -1); (-10, 0); (-1, 1); (0, 10)]%float.

(** A path that stays where it is, and one along the diagonal. *)
Definition origin_twice : list (xy float) := [(0, 0); (0, 0)]%float.
Definition diagonal : list (xy float) := [(0, 0); (1, 1)]%float.

(** One triangle whose third corner lies [2^-60] to the right of the
    first. *)
Definition thin_corner : list (xy float) := [(0, 0); (1, 0); (0x1p-60, 1)]%float.
Definition one_triangle : list (Z * Z * Z) := [(0, 1, 2)%Z].

(** A closed path whose closing segment runs from [(1.1, 0.6)] back to
    the origin. *)
Definition wedge : list (xy float) :=
  [(0, 0); (1, 0); (0x1.199999999999ap+0, 0x1.3333333333333p-1)]%float.

(** An open path that runs to [(1, 0)] and straight back. *)
Definition there_and_back : list (xy float) := [(0, 0); (1, 0); (0, 0)]%float.


(** One vector whose direction has components [2^600]. *)
Definition huge : list (vector float) := [((0, 0), (0x1p600, 0x1p600))]%float.

(** One vector whose direction has the components [3 * 2^-1074] and
    [2^-1074], the smallest positive number. *)
Definition tiny : list (vector float) := [((0, 0), (0x3p-1074, 0x1p-1074))]%float.

End Binary64.

(** *** Exact arithmetic *)

Module Exact.

Lemma R_sq_sub_sym (a b : R) : ((a - b) * (a - b) = (b - a) * (b - a))%R.
Proof. ring. Qed.

Lemma R_mul_minus_one (a : R) : (a * -1 = - a)%R.
Proof. ring. Qed.

#[export] Instance scalar : Scalar R := {|
  fzero := 0%R;
  fhalf := (/ 2)%R;
  fminus1 := (-1)%R;
  fadd := Rplus;
  fsub := Rminus;
  fmul := Rmult;
  fdiv := Rdiv;
  fneg := Ropp;
  fsqrt := R_sqrt.sqrt;
  ffma := λ x y z, (x * y + z)%R;
  feqb := λ a b, if Req_dec_T a b then true else false;
  fltb := λ a b, if Rlt_dec a b then true else false;
  sq_sub_sym := R_sq_sub_sym;
  fmul_minus1 := R_mul_minus_one
|}.

(** *** Inputs and predicates in exact arithmetic *)

(** No two points that a segment joins coincide; on a closed path the last
    point and the first are joined too. *)
Definition no_zero_length_segment (p : list (xy R)) (closed : bool) : Prop :=
  (∀ i a b, p !! i = Some a → p !! S i = Some b → a ≠ b)
  ∧ (closed = true → ∀ a b, head p = Some a → last p = Some b → b ≠ a).

(** The borders of each triangle form a closed loop: each border ends where
    the next one starts, and the three directions add up to zero. *)
Definition closed_loops (rows : list (vector R)) : Prop :=
  ∀ i, 3 * i < length rows →
    ∃ r0 r1 r2, rows !! (3 * i) = Some r0 ∧ rows !! (3 * i + 1) = Some r1
      ∧ rows !! (3 * i + 2) = Some r2
      ∧ vadd (origin r0) (direction r0) = origin r1
      ∧ vadd (origin r1) (direction r1) = origin r2
      ∧ vadd (origin r2) (direction r2) = origin r0
      ∧ vadd (vadd (direction r0) (direction r1)) (direction r2) = (0, 0)%R.

Definition zero_memory : nat → nat → vector R := λ _ _, ((0, 0), (0, 0))%R.

(** A triangle with sides 5, 4 and 3. *)
Definition three_four : list (xy R) := [(0, 0); (3, 4); (3, 0)]%R.

End Exact.
(** ** Stepping through a computation

    One equation per primitive: what [bind] does when the primitive runs in
    a heap whose last objects are the ones the call has allocated. *)

Section Stepping.
Context {F : Type} {SF : Scalar F}.
Implicit Types (h : heap F) (r : ref) (p : list (xy F)) (v : list (vector F)).
Implicit Types (objs extra : list (ndarray F)).

Lemma bind_ret {A B} (a : A) (k : A → M F B) h : bind (ret a) k h = k a h.
Proof. reflexivity. Qed.

Lemma bind_lift_Ret {A B} (a : A) (k : A → M F B) h : bind (lift (Ret a)) k h = k a h.
Proof. reflexivity. Qed.

Lemma bind_bind {A B C} (m : M F A) (f : A → M F B) (g : B → M F C) h :
  bind (bind m f) g h = bind m (λ a, bind (f a) g) h.
Proof. unfold bind. destruct (m h) as [h' [a|e]]; reflexivity. Qed.

Lemma bind_load_points {B} objs fm r p (k : _ → M F B) :
  objs !! r = Some (Points p) →
  bind (load_points r) k (Heap objs fm) = k p (Heap objs fm).
Proof. intros E. unfold load_points, load, bind. simpl. rewrite E. reflexivity. Qed.

Lemma bind_load_vectors {B} objs fm r v (k : _ → M F B) :
  objs !! r = Some (Vectors v) →
  bind (load_vectors r) k (Heap objs fm) = k v (Heap objs fm).
Proof. intros E. unfold load_vectors, load, bind. simpl. rewrite E. reflexivity. Qed.

Lemma bind_np_empty {B} objs fm n (k : _ → M F B) :
  bind (np_empty n) k (Heap objs fm)
  = k (length objs) (Heap (objs ++ [Vectors (fm (length objs) <$> seq 0 n)]) fm).
Proof. reflexivity. Qed.

Lemma bind_assign {B} objs fm r v v' f (k : _ → M F B) :
  objs !! r = Some (Vectors v) → f v = Ret v' →
  bind (assign r f) k (Heap objs fm) = k tt (Heap (<[r := Vectors v']> objs) fm).
Proof.
  intros E Hf. unfold assign. rewrite bind_bind, (bind_load_vectors _ _ _ v) by done.
  rewrite bind_bind, Hf. reflexivity.
Qed.

Lemma bind_raise {A B} (e : exn) (k : A → M F B) h : bind (raise e) k h = (h, Raise e).
Proof. reflexivity. Qed.

Lemma bind_lift_Raise {A B} (e : exn) (k : A → M F B) h :
  bind (lift (Raise e)) k h = (h, Raise e).
Proof. reflexivity. Qed.

Lemma bind_getitem {A B} (l : list A) i n x (k : A → M F B) h :
  index (length l) i = Ret n → l !! n = Some x →
  bind (getitem l i) k h = k x h.
Proof.
  intros Hi Hx. unfold getitem. rewrite bind_bind, Hi, bind_lift_Ret, Hx. reflexivity.
Qed.

Lemma bind_getitem_raise {A B} (l : list A) i e (k : A → M F B) h :
  index (length l) i = Raise e →
  bind (getitem l i) k h = (h, Raise e).
Proof.
  intros Hi. unfold getitem. rewrite bind_bind, Hi. reflexivity.
Qed.

Lemma lookup_new objs extra j : (objs ++ extra) !! (length objs + j) = extra !! j.
Proof. rewrite lookup_app_r by lia. f_equal. lia. Qed.

Lemma bind_load_points_at {B} objs extra fm r p (k : _ → M F B) :
  (objs ++ extra) !! r = Some (Points p) →
  bind (load_points r) k (Heap (objs ++ extra) fm) = k p (Heap (objs ++ extra) fm).
Proof. apply bind_load_points. Qed.

Lemma bind_load_triangles {B} objs fm r t (k : _ → M F B) :
  objs !! r = Some (Triangles t) →
  bind (load_triangles r) k (Heap objs fm) = k t (Heap objs fm).
Proof. intros E. unfold load_triangles, load, bind. simpl. rewrite E. reflexivity. Qed.

Lemma bind_load_vectors_new {B} objs extra fm j v (k : _ → M F B) :
  extra !! j = Some (Vectors v) →
  bind (load_vectors (length objs + j)) k (Heap (objs ++ extra) fm)
  = k v (Heap (objs ++ extra) fm).
Proof. intros E. apply bind_load_vectors. by rewrite lookup_new. Qed.

Lemma bind_np_empty_new {B} objs extra fm n (k : _ → M F B) :
  bind (np_empty n) k (Heap (objs ++ extra) fm)
  = k (length objs + length extra)
      (Heap (objs ++ (extra ++ [Vectors (fm (length objs + length extra) <$> seq 0 n)])) fm).
Proof. rewrite bind_np_empty, length_app, <- (assoc_L (++)). reflexivity. Qed.

Lemma bind_np_copy {B} objs extra fm r v (k : _ → M F B) :
  (objs ++ extra) !! r = Some (Vectors v) →
  bind (np_copy r) k (Heap (objs ++ extra) fm)
  = k (length objs + length extra) (Heap (objs ++ (extra ++ [Vectors v])) fm).
Proof.
  intros E. unfold np_copy. rewrite bind_bind, (bind_load_vectors _ _ _ v) by done.
  unfold bind, alloc. simpl. rewrite length_app, <- (assoc_L (++)). reflexivity.
Qed.

Lemma bind_assign_new {B} objs extra fm j v v' f (k : _ → M F B) :
  extra !! j = Some (Vectors v) → f v = Ret v' →
  bind (assign (length objs + j) f) k (Heap (objs ++ extra) fm)
  = k tt (Heap (objs ++ <[j := Vectors v']> extra) fm).
Proof.
  intros E Hf. rewrite (bind_assign _ _ _ v v') by (by rewrite ?lookup_new).
  by rewrite insert_app_r.
Qed.

Lemma bind_assign_new_raise {B} objs extra fm j v e f (k : _ → M F B) :
  extra !! j = Some (Vectors v) → f v = Raise e →
  bind (assign (length objs + j) f) k (Heap (objs ++ extra) fm)
  = (Heap (objs ++ extra) fm, Raise e).
Proof.
  intros E Hf. unfold assign.
  rewrite bind_bind, (bind_load_vectors_new _ _ _ _ v) by done.
  rewrite bind_bind, Hf. reflexivity.
Qed.

(** The same for the first and the second object a call has allocated. *)
Lemma lookup_new_0 objs (a : ndarray F) rest : (objs ++ a :: rest) !! length objs = Some a.
Proof. by rewrite list_lookup_middle. Qed.

Lemma lookup_new_1 objs (a b : ndarray F) rest :
  (objs ++ a :: b :: rest) !! S (length objs) = Some b.
Proof. rewrite <- Nat.add_1_r, lookup_new. done. Qed.

Lemma lookup_old objs extra r (a : ndarray F) :
  objs !! r = Some a → (objs ++ extra) !! r = Some a.
Proof. apply lookup_app_l_Some. Qed.

Lemma bind_np_copy_0 {B} objs fm r v (k : _ → M F B) :
  objs !! r = Some (Vectors v) →
  bind (np_copy r) k (Heap objs fm) = k (length objs) (Heap (objs ++ [Vectors v]) fm).
Proof.
  intros E. unfold np_copy. rewrite bind_bind, (bind_load_vectors _ _ _ v) by done.
  reflexivity.
Qed.

Lemma bind_np_copy_1 {B} objs fm (a : ndarray F) v (k : _ → M F B) :
  a = Vectors v →
  bind (np_copy (length objs)) k (Heap (objs ++ [a]) fm)
  = k (S (length objs)) (Heap (objs ++ [a; Vectors v]) fm).
Proof.
  intros ->. rewrite (bind_np_copy _ _ _ _ v) by apply lookup_new_0.
  simpl. by rewrite Nat.add_1_r.
Qed.

Lemma bind_load_vectors_0 {B} objs rest fm v (k : _ → M F B) :
  bind (load_vectors (length objs)) k (Heap (objs ++ Vectors v :: rest) fm)
  = k v (Heap (objs ++ Vectors v :: rest) fm).
Proof. apply bind_load_vectors, lookup_new_0. Qed.

Lemma bind_load_vectors_1 {B} objs (a : ndarray F) rest fm v (k : _ → M F B) :
  bind (load_vectors (S (length objs))) k (Heap (objs ++ a :: Vectors v :: rest) fm)
  = k v (Heap (objs ++ a :: Vectors v :: rest) fm).
Proof. apply bind_load_vectors, lookup_new_1. Qed.

Lemma bind_assign_0 {B} objs rest fm v v' f (k : _ → M F B) :
  f v = Ret v' →
  bind (assign (length objs) f) k (Heap (objs ++ Vectors v :: rest) fm)
  = k tt (Heap (objs ++ Vectors v' :: rest) fm).
Proof.
  intros Hf. rewrite <- (Nat.add_0_r (length objs)).
  by rewrite (bind_assign_new _ _ _ 0 v v').
Qed.

Lemma bind_assign_0_raise {B} objs rest fm v e f (k : _ → M F B) :
  f v = Raise e →
  bind (assign (length objs) f) k (Heap (objs ++ Vectors v :: rest) fm)
  = (Heap (objs ++ Vectors v :: rest) fm, Raise e).
Proof.
  intros Hf. rewrite <- (Nat.add_0_r (length objs)).
  by rewrite (bind_assign_new_raise _ _ _ 0 v e).
Qed.

Lemma bind_assign_1 {B} objs (a : ndarray F) rest fm v v' f (k : _ → M F B) :
  f v = Ret v' →
  bind (assign (S (length objs)) f) k (Heap (objs ++ a :: Vectors v :: rest) fm)
  = k tt (Heap (objs ++ a :: Vectors v' :: rest) fm).
Proof.
  intros Hf. rewrite <- Nat.add_1_r.
  by rewrite (bind_assign_new _ _ _ 1 v v').
Qed.
End Stepping.
(** ** The six equations

    *** [generate_order_vectors] *)

Section OrderVectors.
Context {F : Type} {SF : Scalar F}.
Implicit Types (h : heap F) (r : ref) (p : list (xy F)) (v : list (vector F)).






Lemma norm_vsub_sym (a b : xy F) : norm (vsub a b) = norm (vsub b a).
Proof. unfold norm, dot, vsub. simpl. by rewrite (sq_sub_sym a.1), (sq_sub_sym a.2). Qed.

Lemma normals_segment_directions (A B : list (xy F)) :
  zip_with vdiv (zip_with vsub B A) (norm <$> zip_with vsub B A) = zip_with unit_vector A B.
Proof.
  revert A. induction B as [|b B IH]; intros [|a A]; simpl; try done.
  by rewrite IH.
Qed.

Lemma length_segment_directions p : length (segment_directions p) = length p - 1.
Proof.
  unfold segment_directions. rewrite length_zip_with, length_take, length_drop. lia.
Qed.

Lemma broadcast_same {A} (l : list A) n : length l = n → broadcast n l = Ret l.
Proof. intros E. unfold broadcast. by rewrite decide_True. Qed.

Lemma index_neg n (k : nat) : 0 < k ≤ n → index n (- Z.of_nat k) = Ret (n - k).
Proof.
  intros Hk. unfold index.
  destruct (Z.ltb_spec (- Z.of_nat k) 0); [|lia].
  rewrite decide_True by lia. f_equal. lia.
Qed.

Lemma index_nonneg n (k : nat) : k < n → index n (Z.of_nat k) = Ret k.
Proof.
  intros Hk. unfold index.
  destruct (Z.ltb_spec (Z.of_nat k) 0); [lia|].
  rewrite decide_True by lia. f_equal. lia.
Qed.

Lemma index_oob n (i : Z) : (i < - Z.of_nat n ∨ Z.of_nat n ≤ i)%Z → index n i = Raise IndexError.
Proof.
  intros Hk. unfold index.
  destruct (Z.ltb_spec i 0); rewrite decide_False by lia; done.
Qed.

(** The three assignments of [generate_order_vectors] fill every row. *)
Lemma fill_rows (J : list (vector F)) p (ds : list (xy F)) (t : xy F) :
  length J = length p → length ds = length p - 1 → 0 < length p →
  alter (with_direction t) (length p - 1)
    (zip_with (λ row d, with_direction d row)
       (take (length p - 1) (zip_with (λ row x, with_origin x row) J p)) ds
     ++ drop (length p - 1) (zip_with (λ row x, with_origin x row) J p))
  = zip p (ds ++ [t]).
Proof.
  intros HJ Hds Hp. apply list_eq. intros i.
  destruct (decide (i < length p - 1)) as [Hi|Hi].
  - rewrite list_lookup_alter_ne by lia.
    rewrite lookup_app_l by (rewrite length_zip_with, length_take, length_zip_with; lia).
    rewrite !lookup_zip_with. rewrite lookup_take_lt by lia.
    rewrite lookup_zip_with, (lookup_app_l ds) by lia.
    destruct (J !! i) eqn:EJ; [|apply lookup_ge_None in EJ; lia].
    destruct (p !! i) eqn:Ep; [|apply lookup_ge_None in Ep; lia].
    simpl. destruct (ds !! i) eqn:Ed; [|apply lookup_ge_None in Ed; lia].
    done.
  - destruct (decide (i = length p - 1)) as [->|Hne].
    + rewrite list_lookup_alter_eq.
      rewrite lookup_app_r by (rewrite length_zip_with, length_take, length_zip_with; lia).
      rewrite length_zip_with, length_take, length_zip_with.
      rewrite lookup_drop. rewrite !lookup_zip_with.
      replace (length p - 1 + _) with (length p - 1) by lia.
      rewrite lookup_app_r by lia. rewrite Hds, Nat.sub_diag. simpl.
      destruct (J !! (length p - 1)) eqn:EJ; [|apply lookup_ge_None in EJ; lia].
      destruct (p !! (length p - 1)) eqn:Ep; [|apply lookup_ge_None in Ep; lia].
      done.
    + rewrite list_lookup_alter_ne by lia.
      transitivity (@None (vector F)); [|symmetry]; apply lookup_ge_None_2.
      * rewrite length_app, length_zip_with, length_take, length_drop, length_zip_with. lia.
      * rewrite length_zip_with, length_app. simpl. lia.
Qed.

Lemma set_origins_same (src : list (xy F)) v :
  length src = length v →
  set_origins src v = Ret (zip_with (λ row x, with_origin x row) v src).
Proof. intros E. unfold set_origins. by rewrite broadcast_same. Qed.

Lemma set_directions_init_same (src : list (xy F)) v :
  length src = length v - 1 →
  set_directions_init src v
  = Ret (zip_with (λ row d, with_direction d row) (take (length v - 1) v) src
         ++ drop (length v - 1) v).
Proof. intros E. unfold set_directions_init. by rewrite broadcast_same. Qed.

Lemma generate_order_vectors_computes h path_ p closed :
  objects h !! path_ = Some (Points p) →
  computes (generate_order_vectors path_ closed) h (order_vectors p closed).
Proof.
  destruct h as [objs fm]. simpl. intros Hp.
  unfold computes, generate_order_vectors. simpl objects. simpl fresh_memory.
  rewrite (bind_load_points _ _ _ p) by done.
  rewrite bind_np_empty.
  set (J := fm (length objs) <$> seq 0 (length p)).
  assert (HJ : length J = length p) by (unfold J; by rewrite length_fmap, length_seq).
  rewrite (bind_assign_0 _ _ _ J _ _ _ (set_origins_same _ _ (eq_sym HJ))).
  rewrite normals_segment_directions. fold (segment_directions p).
  set (A1 := zip_with _ J p).
  assert (HA1 : length A1 = length p) by (unfold A1; rewrite length_zip_with; lia).
  rewrite (bind_assign_0 _ _ _ A1 _ _ _ (set_directions_init_same (segment_directions p) A1
             ltac:(rewrite length_segment_directions, HA1; lia))).
  rewrite HA1.
  set (A2 := _ ++ drop _ A1).
  assert (HA2 : length A2 = length p).
  { unfold A2. rewrite length_app, length_zip_with, length_take, length_drop,
      length_segment_directions. lia. }
  assert (Hfill : ∀ t, 0 < length p →
            alter (with_direction t) (length p - 1) A2 = zip p (segment_directions p ++ [t])).
  { intros t Hlen. apply fill_rows; [done| |done]. apply length_segment_directions. }
  unfold order_vectors, last_direction.
  destruct closed.
  - rewrite head_lookup, last_lookup.
    destruct (decide (0 < length p)) as [Hlen|Hlen].
    + destruct (p !! 0) as [a|] eqn:Ha; [|apply lookup_ge_None in Ha; lia].
      replace (Init.Nat.pred (length p)) with (length p - 1) by lia.
      destruct (p !! (length p - 1)) as [b|] eqn:Hb; [|apply lookup_ge_None in Hb; lia].
      assert (Hi0 : index (length p) 0 = Ret 0) by (apply (index_nonneg _ 0); lia).
      assert (Hil : index (length p) (-1) = Ret (length p - 1)) by (apply (index_neg _ 1); lia).
      rewrite bind_bind, (bind_getitem _ _ _ _ _ _ Hi0 Ha).
      rewrite bind_bind, (bind_getitem _ _ _ _ _ _ Hil Hb).
      rewrite bind_bind, (bind_getitem _ _ _ _ _ _ Hil Hb).
      rewrite bind_bind, (bind_getitem _ _ _ _ _ _ Hi0 Ha).
      erewrite (bind_assign_0 _ _ _ A2).
      2:{ unfold setitem_direction. rewrite HA2, Hil. reflexivity. }
      cbv beta. unfold ret.
      rewrite Hfill by done.
      exists (length objs), [Vectors (zip p (segment_directions p ++ [closing_direction b a]))].
      split; [done|]. apply lookup_new_0.
    + rewrite (lookup_ge_None_2 p 0) by lia.
      rewrite bind_bind, (bind_getitem_raise _ _ IndexError) by (apply index_oob; lia).
      by eexists.
  - rewrite bind_bind, bind_load_vectors_0, bind_bind. cbv beta.
    destruct (decide (2 ≤ length p)) as [Hlen|Hlen].
    + destruct (segment_directions p !! (length p - 2)) as [d|] eqn:Ed.
      2:{ apply lookup_ge_None in Ed. rewrite length_segment_directions in Ed. lia. }
      assert (Hw : A2 !! (length p - 2) = (λ x, (x, d)) <$> p !! (length p - 2)).
      { rewrite <- (list_lookup_alter_ne (with_direction d) _ (length p - 1)) by lia.
        rewrite Hfill by lia. rewrite lookup_zip_with.
        rewrite lookup_app_l by (rewrite length_segment_directions; lia).
        rewrite Ed. by destruct (p !! _). }
      destruct (p !! (length p - 2)) as [x|] eqn:Ex; [|apply lookup_ge_None in Ex; lia].
      assert (Hi2 : index (length A2) (-2) = Ret (length p - 2))
        by (rewrite HA2; apply (index_neg _ 2); lia).
      rewrite (bind_getitem _ _ _ _ _ _ Hi2 Hw).
      erewrite (bind_assign_0 _ _ _ A2).
      2:{ unfold setitem_direction. rewrite HA2, (index_neg _ 1) by lia. reflexivity. }
      cbv beta. unfold ret. rewrite Hfill by lia.
      eexists (length objs), [_]. split; [done|]. apply lookup_new_0.
    + rewrite lookup_ge_None_2 by (rewrite length_segment_directions; lia).
      rewrite (bind_getitem_raise _ _ IndexError) by (rewrite HA2; apply index_oob; lia).
      by eexists.
Qed.
End OrderVectors.

(** *** The helper generators *)

Section HelperVectors.
Context {F : Type} {SF : Scalar F}.
Implicit Types (h : heap F) (r : ref) (p : list (xy F)) (v nv : list (vector F)).
Implicit Types (objs extra : list (ndarray F)).





Lemma length_np_roll {A} (l : list A) s : length (np_roll l s) = length l.
Proof.
  unfold np_roll. destruct (length l) as [|n] eqn:E; [done|].
  rewrite length_app, length_drop, length_take, E.
  pose proof (Nat.mod_upper_bound s (S n)). lia.
Qed.

Lemma set_directions_same (src : list (xy F)) v :
  length src = length v →
  set_directions src v = Ret (zip_with (λ row d, with_direction d row) v src).
Proof. intros E. unfold set_directions. by rewrite broadcast_same. Qed.

Lemma iadd_origins_same (src : list (xy F)) v :
  length src = length v →
  iadd_origins src v = Ret (zip_with (λ row x, with_origin (vadd (origin row) x) row) v src).
Proof. intros E. unfold iadd_origins. by rewrite broadcast_same. Qed.

Lemma set_directions_x_same (src : list F) v :
  length src = length v →
  set_directions_x src v
  = Ret (zip_with (λ row x, with_direction (x, (direction row).2) row) v src).
Proof. intros E. unfold set_directions_x. by rewrite broadcast_same. Qed.

Lemma set_directions_y_same (src : list F) v :
  length src = length v →
  set_directions_y src v
  = Ret (zip_with (λ row y, with_direction ((direction row).1, y) row) v src).
Proof. intros E. unfold set_directions_y. by rewrite broadcast_same. Qed.

Lemma np_concatenate_0_1 objs fm v2 v3 :
  np_concatenate (length objs) (S (length objs)) (Heap (objs ++ [Vectors v2; Vectors v3]) fm)
  = (Heap (objs ++ [Vectors v2; Vectors v3; Vectors (v2 ++ v3)]) fm, Ret (S (S (length objs)))).
Proof.
  unfold np_concatenate.
  rewrite bind_load_vectors_0, bind_load_vectors_1.
  unfold alloc. simpl. rewrite <- (assoc_L (++)), length_app. simpl.
  do 3 f_equal. lia.
Qed.

Lemma lookup_new_2 objs (a b c : ndarray F) rest :
  (objs ++ a :: b :: c :: rest) !! S (S (length objs)) = Some c.
Proof. replace (S (S (length objs))) with (length objs + 2) by lia. by rewrite lookup_new. Qed.

Lemma miter_second_half (v2 : list (vector F)) (rolled : list (xy F)) (g : vector F → vector F) :
  (∀ row, origin (g row) = origin row) →
  zip_with (λ row x, with_origin (vadd (origin row) x) row)
    (zip_with (λ row d, with_direction d row) (g <$> v2) rolled) (direction <$> v2)
  = zip_with (λ row d, (vadd (origin row) (direction row), d)) v2 rolled.
Proof.
  intros Hg. revert rolled. induction v2 as [|row v2 IH]; intros [|d rolled]; simpl; try done.
  rewrite IH. unfold with_origin, with_direction. simpl. by rewrite Hg.
Qed.

Lemma generate_miter_helper_vectors_computes h normal_vector nv :
  objects h !! normal_vector = Some (Vectors nv) →
  computes (generate_miter_helper_vectors normal_vector) h (Ret (miter_helper_vectors nv)).
Proof.
  destruct h as [objs fm]. simpl. intros Hnv.
  unfold computes, generate_miter_helper_vectors. simpl objects. simpl fresh_memory.
  rewrite (bind_np_copy_0 _ _ _ nv) by done.
  rewrite (bind_assign_0 _ _ _ nv _ (imul_directions fhalf) _ eq_refl).
  change ((λ row, with_direction (vscale (direction row) fhalf) row) <$> nv)
    with (half_vector <$> nv).
  set (v2 := half_vector <$> nv).
  rewrite (bind_np_copy_1 _ _ _ _ _ eq_refl).
  rewrite (bind_assign_1 _ _ _ _ _ _ (imul_directions fminus1) _ eq_refl).
  rewrite bind_load_vectors_1.
  erewrite bind_assign_1
    by (apply set_directions_same; by rewrite length_np_roll, !length_fmap).
  rewrite bind_load_vectors_0.
  erewrite bind_assign_1
    by (apply iadd_origins_same;
        by rewrite length_zip_with, length_np_roll, !length_fmap, Nat.min_id).
  rewrite np_concatenate_0_1.
  eexists _, _. split; [done|]. rewrite lookup_new_2. do 2 f_equal.
  unfold miter_helper_vectors. fold v2. cbv zeta. f_equal.
  rewrite <- list_fmap_compose. by rewrite miter_second_half.
Qed.
Lemma orthogonal_rows (v2 : list (vector F)) :
  zip_with (λ row y, with_direction ((direction row).1, y) row)
    (zip_with (λ row x, with_direction (x, (direction row).2) row)
       (zip_with (λ row x, with_origin (vadd (origin row) x) row) v2 (direction <$> v2))
       ((λ row, fneg (direction row).2) <$> v2))
    ((λ row, (direction row).1) <$> v2)
  = (λ row, (vadd (origin row) (direction row), (fneg (direction row).2, (direction row).1)))
    <$> v2.
Proof. induction v2 as [|row v2 IH]; simpl; [done|]. f_equal. exact IH. Qed.

Lemma generate_orthogonal_vectors_computes h normal_vector nv :
  objects h !! normal_vector = Some (Vectors nv) →
  computes (generate_orthogonal_vectors normal_vector) h (Ret (orthogonal_vectors nv)).
Proof.
  destruct h as [objs fm]. simpl. intros Hnv.
  unfold computes, generate_orthogonal_vectors. simpl objects. simpl fresh_memory.
  rewrite (bind_np_copy_0 _ _ _ nv) by done.
  rewrite (bind_assign_0 _ _ _ nv _ (imul_directions fhalf) _ eq_refl).
  change ((λ row, with_direction (vscale (direction row) fhalf) row) <$> nv)
    with (half_vector <$> nv).
  set (v2 := half_vector <$> nv).
  rewrite (bind_np_copy_1 _ _ _ _ _ eq_refl).
  rewrite bind_load_vectors_0.
  erewrite bind_assign_1 by (apply iadd_origins_same; by rewrite !length_fmap).
  rewrite bind_load_vectors_0.
  erewrite bind_assign_1
    by (apply set_directions_x_same;
        by rewrite length_zip_with, !length_fmap, Nat.min_id).
  rewrite bind_load_vectors_0.
  erewrite bind_assign_1
    by (apply set_directions_y_same;
        by rewrite !length_zip_with, !length_fmap, !Nat.min_id).
  unfold ret. eexists _, _. split; [done|]. rewrite lookup_new_1. do 2 f_equal.
  rewrite orthogonal_rows. unfold orthogonal_vectors, v2.
  by rewrite <- list_fmap_compose.
Qed.


Lemma length_broadcast {A} n (src s : list A) : broadcast n src = Ret s → length s = n.
Proof.
  unfold broadcast. case_decide; [by intros [= <-]|].
  destruct src as [|x [|??]]; try done. intros [= <-]. apply length_replicate.
Qed.

Lemma mitter_rows (J : list (vector F)) (m0 s : list (xy F)) :
  length J = length m0 →
  zip_with (λ row d, with_direction d row) (zip_with (λ row x, with_origin x row) J m0) s
  = zip m0 s.
Proof.
  revert m0 s. induction J as [|j J IH]; intros [|x m0] [|d s]; simpl; try done.
  intros [= E]. by rewrite IH.
Qed.

Lemma generate_mitter_vectors_computes h mesh0 mesh1 mesh2 m0 m1 :
  objects h !! mesh0 = Some (Points m0) →
  objects h !! mesh1 = Some (Points m1) →
  computes (generate_mitter_vectors (mesh0, mesh1, mesh2)) h (mitter_vectors m0 m1).
Proof.
  destruct h as [objs fm]. simpl. intros H0 H1.
  unfold computes, generate_mitter_vectors. simpl objects. simpl fresh_memory.
  rewrite (bind_load_points _ _ _ m0) by done.
  rewrite bind_np_empty.
  set (J := fm (length objs) <$> seq 0 (length m0)).
  assert (HJ : length J = length m0) by (unfold J; by rewrite length_fmap, length_seq).
  rewrite (bind_load_points _ _ _ m0) by (by apply lookup_old).
  rewrite (bind_assign_0 _ _ _ J _ _ _ (set_origins_same _ _ (eq_sym HJ))).
  rewrite (bind_load_points _ _ _ m1) by (by apply lookup_old).
  unfold mitter_vectors.
  destruct (broadcast (length m0) m1) as [s|e] eqn:Eb.
  - erewrite bind_assign_0.
    2:{ unfold set_directions. rewrite length_zip_with, HJ, Nat.min_id, Eb. reflexivity. }
    unfold ret. eexists _, _. split; [done|]. rewrite lookup_new_0. do 2 f_equal.
    by apply mitter_rows.
  - erewrite bind_assign_0_raise.
    2:{ unfold set_directions. rewrite length_zip_with, HJ, Nat.min_id, Eb. reflexivity. }
    by eexists.
Qed.
End HelperVectors.

(** *** The triangle borders *)

Section TriangleBorders.
Context {F : Type} {SF : Scalar F}.
Implicit Types (h : heap F) (r : ref) (p : list (xy F)) (v nv : list (vector F)).
Implicit Types (objs extra : list (ndarray F)).






Lemma bind_getrow {B} objs fm a l i (k : _ → M F B) :
  objs !! a = Some (Points l) →
  bind (getrow a i) k (Heap objs fm) = k (unchecked_row fm a l i) (Heap objs fm).
Proof.
  intros Ha. unfold getrow.
  by rewrite bind_bind, (bind_load_points _ _ _ l) by done.
Qed.

(** In range the unchecked read is the read of Python. *)
Lemma unchecked_row_in_range (fm : nat → nat → vector F) a l i :
  in_range (length l) i → lookup_row l i = Ret (unchecked_row fm a l i).
Proof.
  unfold in_range, lookup_row, unchecked_row, index. intros Hi.
  destruct (Z.ltb_spec i 0).
  - rewrite decide_True by lia.
    destruct (Z.ltb_spec (i + Z.of_nat (length l)) 0); [lia|]. cbv beta iota zeta.
    destruct (l !! Z.to_nat (i + Z.of_nat (length l))) eqn:E; [done|].
    apply lookup_ge_None in E. lia.
  - rewrite decide_True by lia. cbv beta iota zeta.
    destruct (Z.ltb_spec i 0); [lia|].
    destruct (l !! Z.to_nat i) eqn:E; [done|].
    apply lookup_ge_None in E. lia.
Qed.

Lemma triangle_borders_agree (f g : Z → outcome (xy F)) ts :
  (∀ a b c i, (a, b, c) ∈ ts → i ∈ [a; b; c] → f i = g i) →
  triangle_borders f ts = triangle_borders g ts.
Proof.
  induction ts as [|[[a b] c] ts IH]; intros H; [done|]. simpl.
  rewrite (H a b c a), (H a b c b), (H a b c c), IH; try done.
  - intros a' b' c' i Ht Hi. apply (H a' b' c' i); [by right|done].
  - by left.
  - repeat constructor.
  - by left.
  - repeat constructor.
  - by left.
  - repeat constructor.
Qed.

Lemma setitem_origin_at (i : nat) (x : xy F) (pre rest : list (vector F)) row :
  length pre = i →
  setitem_origin (Z.of_nat i) x (pre ++ row :: rest) = Ret (pre ++ with_origin x row :: rest).
Proof.
  intros <-. unfold setitem_origin.
  rewrite index_nonneg by (rewrite length_app; simpl; lia).
  rewrite <- (Nat.add_0_r (length pre)) at 1. by rewrite alter_app_r.
Qed.

Lemma setitem_direction_at (i : nat) (d : xy F) (pre rest : list (vector F)) row :
  length pre = i →
  setitem_direction (Z.of_nat i) d (pre ++ row :: rest)
  = Ret (pre ++ with_direction d row :: rest).
Proof.
  intros <-. unfold setitem_direction.
  rewrite index_nonneg by (rewrite length_app; simpl; lia).
  rewrite <- (Nat.add_0_r (length pre)) at 1. by rewrite alter_app_r.
Qed.

Lemma bind_write_borders {B} objs fm i a1 b1 c1 (pre junk : list (vector F)) j0 j1 j2
    (k : _ → M F B) :
  length pre = 3 * i →
  bind (write_borders (length objs) i a1 b1 c1) k
    (Heap (objs ++ [Vectors (pre ++ j0 :: j1 :: j2 :: junk)]) fm)
  = k tt (Heap (objs ++ [Vectors (pre ++ border_rows a1 b1 c1 ++ junk)]) fm).
Proof.
  intros Hpre. unfold write_borders.
  replace (Z.of_nat i * 3)%Z with (Z.of_nat (3 * i)) by lia.
  replace (Z.of_nat (3 * i) + 1)%Z with (Z.of_nat (3 * i + 1)) by lia.
  replace (Z.of_nat (3 * i) + 2)%Z with (Z.of_nat (3 * i + 2)) by lia.
  rewrite bind_bind.
  erewrite bind_assign_0; [|by apply setitem_origin_at].
  rewrite bind_bind.
  erewrite bind_assign_0; [|by apply setitem_direction_at].
  rewrite bind_bind.
  erewrite bind_assign_0.
  2:{ rewrite (cons_middle _ pre), (assoc_L (++)).
      apply setitem_origin_at. rewrite length_app. simpl. lia. }
  rewrite bind_bind.
  erewrite bind_assign_0.
  2:{ apply setitem_direction_at. rewrite length_app. simpl. lia. }
  rewrite bind_bind.
  erewrite bind_assign_0.
  2:{ rewrite (cons_middle _ (pre ++ _)), (assoc_L (++)).
      apply setitem_origin_at. rewrite !length_app. simpl. lia. }
  erewrite bind_assign_0.
  2:{ apply setitem_direction_at. rewrite !length_app. simpl. lia. }
  rewrite <- !(assoc_L (++)). reflexivity.
Qed.

(** The loop of the two border generators, for any way [rd] of reading a
    corner that leaves the heap alone. *)
Lemma triangle_loop objs fm (rd : Z → M F (xy F)) (corner : Z → outcome (xy F)) :
  (∀ B i X (k : xy F → M F B),
     bind (rd i) k (Heap (objs ++ X) fm)
     = match corner i with
       | Ret x => k x (Heap (objs ++ X) fm)
       | Raise e => (Heap (objs ++ X) fm, Raise e)
       end) →
  ∀ ts i (pre junk : list (vector F)),
    length pre = 3 * i → length junk = 3 * length ts →
    match triangle_borders corner ts with
    | Ret rows =>
        for_enumerate i ts
          (λ i '(a, b, c), a1 ← rd a; b1 ← rd b; c1 ← rd c;
                           write_borders (length objs) i a1 b1 c1)
          (Heap (objs ++ [Vectors (pre ++ junk)]) fm)
        = (Heap (objs ++ [Vectors (pre ++ rows)]) fm, Ret tt)
    | Raise e =>
        ∃ R, for_enumerate i ts
          (λ i '(a, b, c), a1 ← rd a; b1 ← rd b; c1 ← rd c;
                           write_borders (length objs) i a1 b1 c1)
          (Heap (objs ++ [Vectors (pre ++ junk)]) fm)
        = (Heap (objs ++ [Vectors R]) fm, Raise e)
    end.
Proof.
  intros Hrd. induction ts as [|[[a b] c] ts IH]; intros i pre junk Hpre Hjunk.
  { destruct junk; [done|simpl in Hjunk; lia]. }
  simpl. rewrite bind_bind, Hrd.
  destruct (corner a) as [a1|e]; [|by eexists].
  rewrite bind_bind, Hrd. destruct (corner b) as [b1|e]; [|by eexists].
  rewrite bind_bind, Hrd. destruct (corner c) as [c1|e]; [|by eexists].
  destruct junk as [|j0 [|j1 [|j2 junk]]]; simpl in Hjunk; try lia.
  rewrite bind_write_borders by done.
  specialize (IH (S i) (pre ++ border_rows a1 b1 c1) junk).
  rewrite <- !(assoc_L (++)) in IH.
  destruct (triangle_borders corner ts) as [rows|e].
  - rewrite IH; [|rewrite length_app; simpl; lia|lia].
    by rewrite <- (assoc_L (++)).
  - apply IH; [|lia]. rewrite length_app. simpl. lia.
Qed.

Lemma bind_run {A B} (m : M F A) (k : A → M F B) h h' a :
  m h = (h', Ret a) → bind m k h = k a h'.
Proof. intros E. unfold bind. by rewrite E. Qed.

Lemma bind_run_raise {A B} (m : M F A) (k : A → M F B) h h' e :
  m h = (h', Raise e) → bind m k h = (h', Raise e).
Proof. intros E. unfold bind. by rewrite E. Qed.

(** The two border generators for any triangles: the corners are read
    without bounds checks. *)
Lemma generate_face_triangle_borders_runs h vertices triangles vs ts :
  objects h !! vertices = Some (Points vs) →
  objects h !! triangles = Some (Triangles ts) →
  computes (generate_face_triangle_borders vertices triangles) h
    (unchecked_face_triangle_borders (fresh_memory h) vertices vs ts).
Proof.
  destruct h as [objs fm]. simpl. intros Hv Ht.
  unfold computes, generate_face_triangle_borders. simpl objects. simpl fresh_memory.
  rewrite (bind_load_triangles _ _ _ ts) by done.
  rewrite bind_np_empty.
  set (J := fm (length objs) <$> seq 0 (length ts * 3)).
  pose proof (triangle_loop objs fm (getrow vertices)
                (λ i, Ret (unchecked_row fm vertices vs i))) as Hloop.
  specialize (Hloop (λ B i X k, bind_getrow _ _ _ _ _ _ (lookup_old _ X _ _ Hv)) ts 0 [] J).
  simpl in Hloop. unfold unchecked_face_triangle_borders.
  assert (HJ : length J = 3 * length ts) by (unfold J; rewrite length_fmap, length_seq; lia).
  specialize (Hloop eq_refl HJ).
  destruct (triangle_borders _ ts) as [rows|e].
  - rewrite (bind_run _ _ _ _ _ Hloop). unfold ret.
    eexists _, _. split; [done|]. apply lookup_new_0.
  - destruct Hloop as [R Hloop]. rewrite (bind_run_raise _ _ _ _ _ Hloop). by eexists.
Qed.

Lemma generate_edge_triangle_borders_runs h centers offsets triangles cs os ts :
  objects h !! centers = Some (Points cs) →
  objects h !! offsets = Some (Points os) →
  objects h !! triangles = Some (Triangles ts) →
  computes (generate_edge_triangle_borders centers offsets triangles) h
    (unchecked_edge_triangle_borders (fresh_memory h) centers offsets cs os ts).
Proof.
  destruct h as [objs fm]. simpl. intros Hc Ho Ht.
  unfold computes, generate_edge_triangle_borders. simpl objects. simpl fresh_memory.
  rewrite (bind_load_triangles _ _ _ ts) by done.
  rewrite bind_np_empty.
  set (J := fm (length objs) <$> seq 0 (length ts * 3)).
  pose proof (triangle_loop objs fm
    (λ a, ca ← getrow centers a; oa ← getrow offsets a; ret (vadd ca oa))
    (λ i, Ret (vadd (unchecked_row fm centers cs i) (unchecked_row fm offsets os i))))
    as Hloop.
  assert (HJ : length J = 3 * length ts) by (unfold J; rewrite length_fmap, length_seq; lia).
  assert (Hrd : ∀ B i X (k : xy F → M F B),
            bind (ca ← getrow centers i; oa ← getrow offsets i; ret (vadd ca oa)) k
              (Heap (objs ++ X) fm)
            = k (vadd (unchecked_row fm centers cs i) (unchecked_row fm offsets os i))
                (Heap (objs ++ X) fm)).
  { intros B i X k.
    rewrite bind_bind, (bind_getrow _ _ _ cs) by (by apply lookup_old).
    by rewrite bind_bind, (bind_getrow _ _ _ os) by (by apply lookup_old). }
  specialize (Hloop Hrd ts 0 [] J eq_refl HJ).
  simpl in Hloop. unfold unchecked_edge_triangle_borders.
  destruct (triangle_borders _ ts) as [rows|e].
  - rewrite (bind_run _ _ _ _ _ Hloop). unfold ret.
    eexists _, _. split; [done|]. apply lookup_new_0.
  - destruct Hloop as [R Hloop]. rewrite (bind_run_raise _ _ _ _ _ Hloop). by eexists.
Qed.

(** For triangles whose indices are in range, the reads are those of
    Python. *)
Lemma generate_face_triangle_borders_computes h vertices triangles vs ts :
  objects h !! vertices = Some (Points vs) →
  objects h !! triangles = Some (Triangles ts) →
  valid_triangles (length vs) ts →
  computes (generate_face_triangle_borders vertices triangles) h
    (face_triangle_borders vs ts).
Proof.
  intros Hv Ht Hvalid.
  replace (face_triangle_borders vs ts)
    with (unchecked_face_triangle_borders (fresh_memory h) vertices vs ts);
    [by apply generate_face_triangle_borders_runs|].
  symmetry. apply triangle_borders_agree. intros a b c i Habc Hi.
  apply unchecked_row_in_range, (Hvalid a b c i Habc Hi).
Qed.

Lemma generate_edge_triangle_borders_computes h centers offsets triangles cs os ts :
  objects h !! centers = Some (Points cs) →
  objects h !! offsets = Some (Points os) →
  objects h !! triangles = Some (Triangles ts) →
  valid_triangles (length cs) ts → valid_triangles (length os) ts →
  computes (generate_edge_triangle_borders centers offsets triangles) h
    (edge_triangle_borders cs os ts).
Proof.
  intros Hc Ho Ht Hcs Hos.
  replace (edge_triangle_borders cs os ts)
    with (unchecked_edge_triangle_borders (fresh_memory h) centers offsets cs os ts);
    [by apply generate_edge_triangle_borders_runs|].
  symmetry. apply triangle_borders_agree. intros a b c i Habc Hi. unfold edge_corner.
  by rewrite (unchecked_row_in_range (fresh_memory h) centers cs i (Hcs a b c i Habc Hi)),
    (unchecked_row_in_range (fresh_memory h) offsets os i (Hos a b c i Habc Hi)).
Qed.
End TriangleBorders.

(** ** From a call to its value *)

Section Results.
Context {F : Type} {SF : Scalar F}.
Implicit Types (h : heap F) (p : list (xy F)) (v nv : list (vector F)).

Lemma computes_result (m : M F ref) h o : computes m h o → result m h = o.
Proof.
  unfold computes, result. destruct o as [v|e].
  - intros (r & extra & -> & Hr). simpl. by rewrite Hr.
  - by intros (extra & ->).
Qed.

Lemma computes_pure (m : M F ref) h o : computes m h o → pure m h.
Proof.
  unfold computes, pure. destruct o as [v|e].
  - intros (r & extra & -> & _). simpl. split; [by apply prefix_app_r|done].
  - intros (extra & ->). simpl. split; [by apply prefix_app_r|done].
Qed.

(** A second call finds the arguments of the first where they were. *)
Lemma pure_lookup (m : M F ref) h r (a : ndarray F) :
  pure m h → objects h !! r = Some a → objects (m h).1 !! r = Some a.
Proof. intros [[extra ->] _] Hr. by apply lookup_app_l_Some. Qed.

(** *** The records of [generate_order_vectors] *)

Lemma lookup_segment_directions p i a b :
  p !! i = Some a → p !! S i = Some b →
  segment_directions p !! i = Some (unit_vector a b).
Proof.
  intros Ha Hb. unfold segment_directions.
  apply lookup_lt_Some in Hb as Hlt.
  rewrite lookup_zip_with, lookup_take_lt, lookup_drop, Ha by lia.
  simpl. by rewrite Hb.
Qed.

Lemma order_vectors_records p closed :
  2 ≤ length p →
  ∃ t, last_direction p closed = Ret t
       ∧ order_vectors p closed = Ret (zip p (segment_directions p ++ [t])).
Proof.
  intros Hlen. unfold order_vectors.
  assert (∃ t, last_direction p closed = Ret t) as [t Ht]; [|rewrite Ht; eauto].
  unfold last_direction. destruct closed.
  - rewrite head_lookup, last_lookup.
    destruct (p !! 0) eqn:E0; [|apply lookup_ge_None in E0; lia].
    destruct (p !! pred (length p)) eqn:El; [|apply lookup_ge_None in El; lia].
    eauto.
  - destruct (segment_directions p !! (length p - 2)) eqn:E; [eauto|].
    apply lookup_ge_None in E. rewrite length_segment_directions in E. lia.
Qed.

Lemma length_order_vectors p closed v : order_vectors p closed = Ret v → length v = length p.
Proof.
  unfold order_vectors. destruct (last_direction p closed) as [t|e] eqn:Et; [|done].
  intros [= <-]. rewrite length_zip_with, length_app, length_segment_directions. simpl.
  assert (0 < length p); [|lia].
  unfold last_direction in Et. destruct closed.
  - destruct p; [done|simpl; lia].
  - destruct (segment_directions p !! (length p - 2)) eqn:E; [|done].
    apply lookup_lt_Some in E. rewrite length_segment_directions in E. lia.
Qed.

Lemma result_generate_order_vectors h path_ p closed :
  objects h !! path_ = Some (Points p) →
  result (generate_order_vectors path_ closed) h = order_vectors p closed.
Proof. intros Hp. by apply computes_result, generate_order_vectors_computes. Qed.

Lemma lookup_order_vectors p closed v i a b :
  order_vectors p closed = Ret v → p !! i = Some a → p !! S i = Some b →
  v !! i = Some (a, unit_vector a b).
Proof.
  unfold order_vectors. destruct (last_direction p closed) as [t|e]; [|done].
  intros [= <-] Ha Hb. rewrite lookup_zip_with, Ha. simpl.
  apply lookup_lt_Some in Hb as Hlt.
  rewrite lookup_app_l by (rewrite length_segment_directions; lia).
  by rewrite (lookup_segment_directions p i a b).
Qed.

(** Every direction is one of the segment directions or the last one. *)
Lemma Forall_order_vectors (P : xy F → Prop) p closed v :
  order_vectors p closed = Ret v →
  Forall P (segment_directions p) →
  (∀ t, last_direction p closed = Ret t → P t) →
  Forall (λ row, P (direction row)) v.
Proof.
  unfold order_vectors. destruct (last_direction p closed) as [t|e]; [|done].
  intros [= <-] Hsd Ht. apply Forall_lookup. intros i [x d].
  rewrite lookup_zip_with. destruct (p !! i); [|done]. simpl.
  destruct (_ !! i) as [d'|] eqn:Ed; [|done]. intros [= <- <-].
  apply (Forall_lookup_1 P (segment_directions p ++ [t]) i d'); [|done].
  apply Forall_app. split; [done|]. apply Forall_singleton. by apply Ht.
Qed.

Lemma Forall_segment_directions (P : xy F → Prop) p :
  (∀ i a b, p !! i = Some a → p !! S i = Some b → P (unit_vector a b)) →
  Forall P (segment_directions p).
Proof.
  intros H. apply Forall_lookup. intros i d. unfold segment_directions.
  rewrite lookup_zip_with_Some. intros (a & b & -> & Ha & Hb).
  apply lookup_take_Some in Ha as [Ha _]. rewrite lookup_drop in Hb.
  by apply (H i).
Qed.

Lemma length_miter_helper_vectors (nv : list (vector F)) :
  length (miter_helper_vectors nv) = 2 * length nv.
Proof.
  unfold miter_helper_vectors.
  rewrite length_app, length_zip_with, length_np_roll, !length_fmap. lia.
Qed.

End Results.

(** *** [np.roll] by one *)

Section Roll.
Context {A : Type}.

Lemma lookup_np_roll_1 (l : list A) i :
  i < length l → np_roll l 1 !! i = l !! ((i + length l - 1) `mod` length l).
Proof.
  intros Hi. unfold np_roll. destruct (length l) as [|n] eqn:En; [lia|].
  destruct n as [|n].
  - assert (i = 0) as -> by lia. simpl.
    rewrite drop_ge by lia. simpl. rewrite take_ge by lia. done.
  - rewrite (Nat.mod_small 1) by lia.
    replace (S (S n) - 1) with (S n) by lia.
    destruct i as [|i].
    + rewrite lookup_app_l by (rewrite length_drop; lia).
      rewrite lookup_drop. replace (0 + S (S n) - 1) with (S n) by lia.
      rewrite (Nat.mod_small (S n)) by lia. f_equal. lia.
    + rewrite lookup_app_r by (rewrite length_drop; lia).
      rewrite length_drop, lookup_take_lt by lia.
      replace (S i + S (S n) - 1) with (i + 1 * S (S n)) by lia.
      rewrite Nat.Div0.mod_add, Nat.mod_small by lia. f_equal. lia.
Qed.
End Roll.

(** *** The rows of the triangle borders *)

Section Triangles.
Context {F : Type} {SF : Scalar F}.

Lemma lookup_row_in_range (l : list (xy F)) (i : Z) :
  (- Z.of_nat (length l) ≤ i < Z.of_nat (length l))%Z → ∃ x, lookup_row l i = Ret x.
Proof.
  intros Hi. unfold lookup_row, index.
  destruct (Z.ltb_spec i 0).
  - rewrite decide_True by lia.
    destruct (l !! Z.to_nat (i + Z.of_nat (length l))) eqn:E; [eauto|].
    apply lookup_ge_None in E. lia.
  - rewrite decide_True by lia.
    destruct (l !! Z.to_nat i) eqn:E; [eauto|].
    apply lookup_ge_None in E. lia.
Qed.

Lemma triangle_borders_rows (corner : Z → outcome (xy F)) (ts : list (Z * Z * Z)) :
  readable corner ts →
  ∃ rows, triangle_borders corner ts = Ret rows
    ∧ length rows = 3 * length ts
    ∧ ∀ i a b c, ts !! i = Some (a, b, c) →
        ∃ a1 b1 c1, corner a = Ret a1 ∧ corner b = Ret b1 ∧ corner c = Ret c1
          ∧ rows !! (3 * i) = Some (a1, vsub b1 a1)
          ∧ rows !! (3 * i + 1) = Some (b1, vsub c1 b1)
          ∧ rows !! (3 * i + 2) = Some (c1, vsub a1 c1).
Proof.
  induction ts as [|[[a b] c] ts IH]; intros Hr.
  { exists []. repeat split; done. }
  destruct (Hr a b c) as ((a1 & Ha) & (b1 & Hb) & (c1 & Hc)); [by left|].
  destruct IH as (rows & Hrows & Hlen & Hlook).
  { intros a' b' c' Hin. apply Hr. by right. }
  exists (border_rows a1 b1 c1 ++ rows). simpl.
  rewrite Ha, Hb, Hc, Hrows. split; [done|]. split; [simpl; lia|].
  intros [|i] a' b' c'; simpl.
  - intros [= <- <- <-]. by exists a1, b1, c1.
  - intros Hi. destruct (Hlook i a' b' c' Hi) as (x & y & z & ? & ? & ? & H0 & H1 & H2).
    exists x, y, z. repeat split; try done.
    + by replace (i + S (i + S (i + 0))) with (S (S (3 * i))) by lia.
    + by replace (i + S (i + S (i + 0)) + 1) with (S (S (3 * i + 1))) by lia.
    + by replace (i + S (i + S (i + 0)) + 2) with (S (S (3 * i + 2))) by lia.
Qed.
End Triangles.

(** *** The edge mesh *)

Section MeshCount.
Context {F : Type} {SF : Scalar F}.
Implicit Types (limit : F) (p path : list (xy F)) (js : list (join (F:=F))) (closed : bool).

Lemma length_joins limit p closed :
  (if closed then 1 else 2) ≤ length p → length (joins limit p closed) = length p.
Proof.
  intros Hlen. unfold joins. destruct closed.
  - rewrite head_lookup, last_lookup.
    destruct (p !! 0) eqn:E0; [|apply lookup_ge_None in E0; lia].
    destruct (p !! pred (length p)) eqn:El; [|apply lookup_ge_None in El; lia].
    rewrite length_zip_with, length_np_roll, length_app, length_segment_directions.
    simpl. lia.
  - pose proof (length_segment_directions p) as Ht.
    rewrite head_lookup, last_lookup.
    destruct (segment_directions p !! 0) eqn:E0; [|apply lookup_ge_None in E0; lia].
    destruct (segment_directions p !! pred _) eqn:El; [|apply lookup_ge_None in El; lia].
    simpl. rewrite length_app, length_zip_with, length_drop. simpl. lia.
Qed.

Lemma length_bases js : length (bases js) = length js.
Proof. unfold bases. by rewrite length_fmap, length_seq. Qed.

Lemma length_segment_triangles (ends nexts : list (nat * join (F:=F))) :
  length (concat (zip_with segment_triangles ends nexts))
  = 2 * (length ends `min` length nexts).
Proof.
  revert nexts. induction ends as [|s ends IH]; intros [|e nexts]; simpl; try lia.
  rewrite IH. lia.
Qed.

Lemma length_bevel_triangles (bs : list nat) js :
  length bs = length js →
  length (concat (bevel_triangles <$> zip bs js)) = bevel_count js.
Proof.
  unfold bevel_count. revert bs. induction js as [|j js IH]; intros [|b bs]; simpl; try done.
  intros [= Hlen]. unfold bevel_triangles at 1. simpl.
  rewrite filter_cons. destruct j; simpl; rewrite ?decide_True, ?decide_False by done;
    simpl; by rewrite IH.
Qed.

Lemma length_triangles_assemble p js closed :
  0 < length js →
  length (triangles (assemble p js closed))
  = 2 * segment_count (length js) closed + bevel_count js.
Proof.
  intros Hjs. unfold assemble. simpl.
  rewrite length_app, length_segment_triangles, length_bevel_triangles by apply length_bases.
  f_equal. f_equal. unfold segment_count.
  rewrite length_zip_with, length_bases, Nat.min_id.
  destruct closed.
  - rewrite length_np_roll, length_zip_with, length_bases. lia.
  - rewrite length_drop, length_zip_with, length_bases. lia.
Qed.

Lemma normalize_length path closed p :
  normalize path closed = inr p → (if closed then 3 else 2) ≤ length p.
Proof.
  unfold normalize. case_bool_decide as Hlen; [done|]. intros [= <-]. lia.
Qed.

Lemma triangle_count limit path closed :
  normalize path closed = inr path →
  ∃ mesh, generate_2D_edge_meshes limit path closed = inr mesh
    ∧ length (triangles mesh)
      = 2 * segment_count (length path) closed + bevel_count (joins limit path closed).
Proof.
  intros Hn. unfold generate_2D_edge_meshes. rewrite Hn. eexists. split; [done|].
  apply normalize_length in Hn.
  assert (Hj : length (joins limit path closed) = length path).
  { apply length_joins. destruct closed; lia. }
  rewrite length_triangles_assemble, Hj; [done|]. destruct closed; lia.
Qed.
End MeshCount.

Section MeshJoins.
Context {F : Type} {SF : Scalar F}.
Implicit Types (limit : F) (p path : list (xy F)) (js : list (join (F:=F))) (closed : bool).


Lemma concat_block {A} (ls : list (list A)) i l :
  ls !! i = Some l →
  take (length l) (drop (sum_list (length <$> take i ls)) (concat ls)) = l.
Proof.
  revert i. induction ls as [|l0 ls IH]; intros [|i]; try done.
  - intros [= ->]. cbn [take fmap list_fmap sum_list sum_list_with concat drop].
    by rewrite drop_0, take_app_length.
  - intros Hl. cbn [take fmap list_fmap sum_list sum_list_with concat lookup list_lookup] in *.
    rewrite drop_app_add'; [|done]. by apply IH.
Qed.












End MeshJoins.

(** ** Facts of the two arithmetics *)

Import Binary64 Exact.


(** What a call computes when it is run after another one. *)
Lemma result_bind {F : Type} (m : M F ref) (k : ref → M F ref) (h h' : heap F) r :
  m h = (h', Ret r) → result (bind m k) h = result (k r) h'.
Proof. intros E. unfold result, bind. by rewrite E. Qed.

(** In binary64 the unit vector from a point to itself is [0/0]. *)
Lemma unit_vector_diag (a : xy float) :
  finite_xy a = true → unit_vector a a = (nan, nan).
Proof.
  destruct a as [x y]. unfold finite_xy. simpl. intros [Hx Hy]%andb_true_iff.
  unfold unit_vector, vsub, vdiv, norm, dot. simpl.
  by rewrite (sub_diag x Hx), (sub_diag y Hy).
Qed.

(** The closing direction from a point to itself is [0/0] as well. *)
Lemma closing_direction_diag (a : xy float) :
  finite_xy a = true → closing_direction a a = (nan, nan).
Proof.
  destruct a as [x y]. unfold finite_xy. simpl. intros [Hx Hy]%andb_true_iff.
  unfold closing_direction, vsub, vdiv, linalg_norm, blas_dot. simpl.
  by rewrite (sub_diag x Hx), (sub_diag y Hy).
Qed.

(** In exact arithmetic the norm of a single row is the norm of a row of
    an array, and the closing direction is the unit vector from the last
    point to the first. *)
Lemma linalg_norm_exact (a : xy R) : linalg_norm a = norm a.
Proof. unfold linalg_norm, norm, blas_dot, dot. simpl. f_equal. ring. Qed.

Lemma closing_direction_exact (final first : xy R) :
  closing_direction final first = unit_vector final first.
Proof.
  unfold closing_direction, unit_vector.
  by rewrite linalg_norm_exact, norm_vsub_sym.
Qed.

(** In binary64 they can differ in the last bit: on the closing segment of
    [wedge], from [(1.1, 0.6)] back to the origin. *)
Lemma closing_direction_wedge :
  closing_direction (0x1.199999999999ap+0, 0x1.3333333333333p-1)%float (0, 0)%float
  = (-0x1.c17b874df0e0cp-1, -0x1.ea58368392698p-2)%float
  ∧ unit_vector (0x1.199999999999ap+0, 0x1.3333333333333p-1)%float (0, 0)%float
    = (-0x1.c17b874df0e0bp-1, -0x1.ea58368392696p-2)%float.
Proof. split; reflexivity. Qed.

Lemma norm_unit_vector (a b : xy R) : a ≠ b → norm (unit_vector a b) = 1%R.
Proof.
  destruct a as [a1 a2], b as [b1 b2]. intros Hne.
  unfold unit_vector, norm, dot, vdiv, vsub. simpl.
  set (dx := (b1 - a1)%R). set (dy := (b2 - a2)%R).
  assert (Hs : (0 < dx * dx + dy * dy)%R).
  { destruct (Req_dec dx 0) as [Hx|Hx], (Req_dec dy 0) as [Hy|Hy]; try nra.
    exfalso. apply Hne. unfold dx, dy in *. f_equal; lra. }
  set (n := R_sqrt.sqrt (dx * dx + dy * dy)).
  assert (Hnn : (n * n = dx * dx + dy * dy)%R) by (apply sqrt_sqrt; lra).
  assert (Hn : (0 < n)%R) by (by apply sqrt_lt_R0).
  replace (dx / n * (dx / n) + dy / n * (dy / n))%R
    with ((dx * dx + dy * dy) / (n * n))%R by (field; lra).
  rewrite Hnn.
  replace ((dx * dx + dy * dy) / (dx * dx + dy * dy))%R with 1%R by (field; lra).
  apply sqrt_1.
Qed.

Lemma norm_vneg (d : xy R) : norm (vneg d) = norm d.
Proof. unfold norm, dot, vneg. simpl. f_equal. ring. Qed.

Lemma norm_rot90_half (d : xy R) : norm (rot90 (vscale d fhalf)) = (norm d / 2)%R.
Proof.
  destruct d as [x y]. unfold norm, dot, rot90, vscale. simpl.
  replace (- (y * / 2) * - (y * / 2) + x * / 2 * (x * / 2))%R
    with ((x * x + y * y) * (/ 2 * / 2))%R by field.
  rewrite sqrt_mult by nra. rewrite sqrt_square by lra. reflexivity.
Qed.

Lemma dot_rot90_half (d : xy R) : dot (rot90 (vscale d fhalf)) d = 0%R.
Proof. destruct d as [x y]. unfold dot, rot90, vscale. simpl. field. Qed.

(** In binary64 negation is exact, and so is halving where nothing
    underflows: the quarter turn of half a direction stands for the quarter
    turn of half the direction it stands for. *)
Lemma SF2R_opp x : SF2R (SFopp x) = (- SF2R x)%R.
Proof.
  destruct x as [s|s| |s m e]; simpl; try lra.
  destruct s; simpl; change (Z.neg m) with (- Z.pos m)%Z; rewrite opp_IZR; ring.
Qed.

Lemma value_opp (x : float) : value (- x) = (- value x)%R.
Proof. unfold value. rewrite opp_spec. apply SF2R_opp. Qed.

Lemma value_half (x : float) :
  halves_exactly x = true → value (x * 0.5) = (value x / 2)%R.
Proof.
  unfold halves_exactly, value. intros Hx. rewrite mul_spec.
  pose proof (Prim2SF_valid x) as Hv.
  change (Prim2SF 0.5) with (S754_finite false 4503599627370496 (-53)).
  destruct (Prim2SF x) as [s|s| |s m e]; try discriminate.
  - simpl. lra.
  - apply Z.leb_le in Hx. unfold SF64mul. rewrite SFmul_half by done. simpl.
    replace (e - 1)%Z with (e + -1)%Z by lia.
    rewrite powerRZ_add by lra. simpl. lra.
Qed.

Lemma rot90_half_binary64 (d : xy float) :
  halves_exactly d.1 = true → halves_exactly d.2 = true →
  value_xy (rot90 (vscale d fhalf)) = rot90 (vscale (value_xy d) fhalf).
Proof.
  intros H1 H2. destruct d as [x y]. unfold value_xy, rot90, vscale. simpl in *.
  rewrite value_opp, !value_half by done. f_equal; lra.
Qed.

Lemma border_rows_closed (a1 b1 c1 : xy R) :
  vadd a1 (vsub b1 a1) = b1 ∧ vadd b1 (vsub c1 b1) = c1 ∧ vadd c1 (vsub a1 c1) = a1
  ∧ vadd (vadd (vsub b1 a1) (vsub c1 b1)) (vsub a1 c1) = (0, 0)%R.
Proof.
  destruct a1, b1, c1. unfold vadd, vsub. simpl.
  repeat split; f_equal; ring.
Qed.

Lemma triangle_borders_closed_loops (corner : Z → outcome (xy R)) ts :
  readable corner ts →
  ∃ rows, triangle_borders corner ts = Ret rows
    ∧ length rows = 3 * length ts ∧ closed_loops rows.
Proof.
  intros Hr. destruct (triangle_borders_rows corner ts Hr) as (rows & Hrows & Hlen & Hlook).
  exists rows. split; [done|]. split; [done|].
  intros i Hi. destruct (ts !! i) as [[[a b] c]|] eqn:Et; [|apply lookup_ge_None in Et; lia].
  destruct (Hlook i a b c Et) as (a1 & b1 & c1 & _ & _ & _ & H0 & H1 & H2).
  eexists _, _, _. split; [exact H0|]. split; [exact H1|]. split; [exact H2|].
  apply border_rows_closed.
Qed.

(** * The properties *)

(** ** Tangents: [generate_order_vectors] *)

(** C1.  For every path of [N >= 2] points, [generate_order_vectors(path,
    closed)] returns exactly [N] records whose origins are the path points
    in order; the direction of record [i < N-1] is the unit vector from
    point [i] to point [i+1]; the direction of the last record is the unit
    vector from the last point back to the first when [closed], and the
    negation of the direction of record [N-2] otherwise.  The unit vector
    of a segment is the difference divided by its norm, in binary64 as in
    exact arithmetic.  The closing direction is the difference
    [first - final] divided by the norm of [final - first], which NumPy
    takes of a single row through BLAS; in exact arithmetic this is the
    unit vector from the last point to the first.  The property needs no
    assumption on coincident points. *)
Theorem C1_order_vectors_records :
  (∀ (F : Type) (SF : Scalar F)
     (h : heap F) (path_ : ref) (p : list (xy F)) (closed : bool),
     objects h !! path_ = Some (Points p) →
     2 ≤ length p →
     ∃ vec : list (vector F),
       result (generate_order_vectors path_ closed) h = Ret vec
       ∧ length vec = length p
       ∧ origin <$> vec = p
       ∧ (∀ i a b, p !! i = Some a → p !! S i = Some b →
            direction <$> vec !! i = Some (unit_vector a b))
       ∧ (if closed
          then ∃ first final, head p = Some first ∧ last p = Some final
               ∧ direction <$> last vec
                 = Some (vdiv (vsub first final) (linalg_norm (vsub final first)))
          else ∃ d, direction <$> vec !! (length p - 2) = Some d
               ∧ direction <$> last vec = Some (vneg d)))
  ∧ (∀ final first : xy R,
       vdiv (vsub first final) (linalg_norm (vsub final first))
       = unit_vector final first).
Proof.
  split; [|apply closing_direction_exact].
  intros F SF h path_ p closed Hp Hlen.
  destruct (order_vectors_records p closed Hlen) as (t & Ht & Hov).
  exists (zip p (segment_directions p ++ [t])).
  assert (Hlens : length (segment_directions p ++ [t]) = length p).
  { rewrite length_app, length_segment_directions. simpl. lia. }
  split; [|split; [|split; [|split]]].
  - transitivity (order_vectors p closed); [|exact Hov].
    by apply result_generate_order_vectors.
  - rewrite length_zip_with. lia.
  - apply fst_zip. lia.
  - intros i a b Ha Hb.
    by rewrite (lookup_order_vectors p closed _ i a b Hov Ha Hb).
  - assert (Hlast : direction <$> last (zip p (segment_directions p ++ [t])) = Some t).
    { rewrite last_lookup, length_zip_with, Hlens, Nat.min_id, lookup_zip_with.
      destruct (p !! pred (length p)) eqn:El; [|apply lookup_ge_None in El; lia].
      simpl. rewrite lookup_app_r by (rewrite length_segment_directions; lia).
      rewrite length_segment_directions.
      replace (pred (length p) - (length p - 1)) with 0 by lia. done. }
    unfold last_direction in Ht. destruct closed.
    + destruct (head p) as [a|]; [|done]. destruct (last p) as [b|]; [|done].
      injection Ht as <-. by exists a, b.
    + destruct (segment_directions p !! (length p - 2)) as [d|] eqn:Ed; [|done].
      injection Ht as <-. exists d. split; [|done].
      rewrite lookup_zip_with.
      destruct (p !! (length p - 2)) eqn:E2; [|apply lookup_ge_None in E2; lia].
      simpl. rewrite lookup_app_l by (rewrite length_segment_directions; lia).
      by rewrite Ed.
Qed.

Lemma C1_order_vectors_records_witness :
  2 ≤ length wedge
  ∧ ∃ vec : list (vector float),
      result (generate_order_vectors 0 true) (Heap [Points wedge] nan_memory) = Ret vec
      ∧ length vec = 3 ∧ origin <$> vec = wedge
      ∧ direction <$> last vec
        = Some (-0x1.c17b874df0e0cp-1, -0x1.ea58368392698p-2)%float.
Proof.
  split; [simpl; lia|].
  destruct (proj1 C1_order_vectors_records float Binary64.scalar
              (Heap [Points wedge] nan_memory) 0 wedge true)
    as (vec & Hres & Hlen & Horigins & _ & first & final & Hfirst & Hfinal & Hlast);
    [reflexivity|simpl; lia|].
  injection Hfirst as <-. injection Hfinal as <-.
  exists vec. split; [exact Hres|]. split; [exact Hlen|]. split; [exact Horigins|].
  exact Hlast.
Defined.

(** C2.  On the closed zig-zag path [sharp] the computation completes and
    every component of every record is finite, neither NaN nor infinite:
    in the tangents [generate_order_vectors] returns, and in the helper
    vectors the two generators the script runs on them return. *)
Theorem C2_sharp_zigzag_finite (h : heap float) (path_ : ref) :
  objects h !! path_ = Some (Points sharp) →
  ∃ order miter orthogonal : list (vector float),
    result (generate_order_vectors path_ true) h = Ret order
    ∧ result (o ← generate_order_vectors path_ true; generate_miter_helper_vectors o) h
      = Ret miter
    ∧ result (o ← generate_order_vectors path_ true; generate_orthogonal_vectors o) h
      = Ret orthogonal
    ∧ all_finite order = true ∧ all_finite miter = true ∧ all_finite orthogonal = true.
Proof.
  intros Hp.
  pose proof (generate_order_vectors_computes h path_ sharp true Hp) as Hc.
  destruct (order_vectors sharp true) as [order|e] eqn:Eo; [|by vm_compute in Eo].
  destruct Hc as (r & extra & Hrun & Hr).
  exists order, (miter_helper_vectors order), (orthogonal_vectors order).
  split; [|split; [|split]].
  - unfold result. rewrite Hrun. simpl. by rewrite Hr.
  - rewrite (result_bind _ _ _ _ _ Hrun).
    apply computes_result, generate_miter_helper_vectors_computes, Hr.
  - rewrite (result_bind _ _ _ _ _ Hrun).
    apply computes_result, generate_orthogonal_vectors_computes, Hr.
  - vm_compute in Eo. injection Eo as <-. by vm_compute.
Qed.

Lemma C2_sharp_zigzag_finite_witness :
  ∃ order miter orthogonal : list (vector float),
    result (generate_order_vectors 0 true) (Heap [Points sharp] nan_memory) = Ret order
    ∧ result (o ← generate_order_vectors 0 true; generate_miter_helper_vectors o)
        (Heap [Points sharp] nan_memory) = Ret miter
    ∧ result (o ← generate_order_vectors 0 true; generate_orthogonal_vectors o)
        (Heap [Points sharp] nan_memory) = Ret orthogonal
    ∧ all_finite order = true ∧ all_finite miter = true ∧ all_finite orthogonal = true.
Proof. apply (C2_sharp_zigzag_finite (Heap [Points sharp] nan_memory) 0). reflexivity. Defined.

(** The same path through the modelled mesh assembler, with the recommended
    miter limit 2: the mesh is built, every vertex and offset is finite and
    every triangle index is in range. *)
Lemma sharp_zigzag_mesh_finite :
  ∃ mesh : EdgeMesh,
    generate_2D_edge_meshes 2%float sharp true = inr mesh
    ∧ forallb finite_xy (vertices mesh) = true
    ∧ forallb finite_xy (offsets mesh) = true
    ∧ forallb (indices_in_range (length (vertices mesh))) (triangles mesh) = true.
Proof. eexists. split; [reflexivity|]. split; [|split]; vm_compute; reflexivity. Qed.

(** C3, as the code has it.  [generate_order_vectors] checks no
    denominator and raises no error of its own: for every path with two
    consecutive coincident points (of finite coordinates) it returns its
    [N] records, and the direction of the record of the coincident pair is
    [(NaN, NaN)], the quotient [0/0] of binary64. *)
Theorem C3_coincident_points_give_nan
    (h : heap float) (path_ : ref) (p : list (xy float)) (closed : bool)
    (i : nat) (a : xy float) :
  objects h !! path_ = Some (Points p) →
  p !! i = Some a → p !! S i = Some a → finite_xy a = true →
  ∃ vec : list (vector float),
    result (generate_order_vectors path_ closed) h = Ret vec
    ∧ length vec = length p
    ∧ direction <$> vec !! i = Some (nan, nan).
Proof.
  intros Hp Ha Hb Hfin.
  assert (Hlen : 2 ≤ length p) by (apply lookup_lt_Some in Hb; lia).
  destruct (order_vectors_records p closed Hlen) as (t & _ & Hov).
  exists (zip p (segment_directions p ++ [t])). split; [|split].
  - by rewrite (result_generate_order_vectors h path_ p closed Hp).
  - by apply (length_order_vectors p closed).
  - rewrite (lookup_order_vectors p closed _ i a a Hov Ha Hb). simpl.
    by rewrite unit_vector_diag.
Qed.

Lemma C3_coincident_points_give_nan_witness :
  finite_xy (0, 0)%float = true
  ∧ ∃ vec : list (vector float),
      result (generate_order_vectors 0 true) (Heap [Points origin_twice] nan_memory) = Ret vec
      ∧ length vec = 2
      ∧ direction <$> vec !! 0 = Some (nan, nan).
Proof.
  split; [reflexivity|].
  apply (C3_coincident_points_give_nan (Heap [Points origin_twice] nan_memory)
           0 origin_twice true 0 (0, 0)%float); reflexivity.
Defined.

(** C3 as stated fails: on the path [[0, 0], [0, 0]], whose two points
    coincide, [generate_order_vectors] raises nothing and returns two
    records with NaN directions. *)
Lemma C3_returns_on_coincident_points :
  coincide (0, 0)%float (0, 0)%float = true
  ∧ result (generate_order_vectors 0 false) (Heap [Points origin_twice] nan_memory)
    = Ret [((0, 0), (nan, nan)); ((0, 0), (nan, nan))]%float.
Proof. split; reflexivity. Qed.

(** C4, in exact arithmetic.  For every path on which no segment has
    length zero (no two consecutive points coincide and, on a closed path,
    the last point differs from the first), [generate_order_vectors]
    returns as soon as the path has two points, and every direction it
    returns has Euclidean norm exactly 1: the segment directions, the
    wraparound direction of a closed path and the extrapolated one of an
    open path. *)
Theorem C4_exact_directions_are_unit
    (h : heap R) (path_ : ref) (p : list (xy R)) (closed : bool) :
  objects h !! path_ = Some (Points p) →
  no_zero_length_segment p closed →
  match result (generate_order_vectors path_ closed) h with
  | Ret vec => Forall (λ row, norm (direction row) = 1%R) vec
  | Raise _ => length p < 2
  end.
Proof.
  intros Hp [Hseg Hwrap]. rewrite (result_generate_order_vectors h path_ p closed Hp).
  assert (Hsd : Forall (λ d, norm d = 1%R) (segment_directions p)).
  { apply Forall_segment_directions. intros i a b Ha Hb.
    apply norm_unit_vector. by apply (Hseg i). }
  destruct (order_vectors p closed) as [vec|e] eqn:Eo.
  - apply (Forall_order_vectors (λ d, norm d = 1%R) p closed vec Eo Hsd).
    intros t. unfold last_direction. destruct closed.
    + destruct (head p) as [a|] eqn:Ea; [|done]. destruct (last p) as [b|] eqn:Eb; [|done].
      intros [= <-]. rewrite closing_direction_exact.
      apply norm_unit_vector. by apply Hwrap.
    + destruct (segment_directions p !! (length p - 2)) as [d|] eqn:Ed; [|done].
      intros [= <-]. rewrite norm_vneg. by apply (Forall_lookup_1 _ _ _ _ Hsd Ed).
  - destruct (decide (2 ≤ length p)) as [Hlen|]; [|lia].
    destruct (order_vectors_records p closed Hlen) as (t & _ & Hov). congruence.
Qed.

Lemma C4_exact_directions_are_unit_witness :
  no_zero_length_segment three_four true
  ∧ match result (generate_order_vectors 0 true) (Heap [Points three_four] zero_memory) with
    | Ret vec => Forall (λ row, norm (direction row) = 1%R) vec
    | Raise _ => length three_four < 2
    end.
Proof.
  assert (H : no_zero_length_segment three_four true).
  { split.
    - intros [|[|[|i]]] a b; simpl; intros [= <-] [= <-]; intros [=]; lra.
    - intros _ a b [= <-] [= <-]. intros [=]; lra. }
  split; [exact H|].
  apply (C4_exact_directions_are_unit (Heap [Points three_four] zero_memory) 0 three_four true);
    [reflexivity|exact H].
Defined.

(** C4 as stated fails in binary64: on the open path [[0, 0], [1, 1]] the
    direction of the first record is [(1/sqrt 2, 1/sqrt 2)] rounded, and its
    norm, computed as the script computes norms, is below 1. *)
Lemma C4_rounded_direction_is_not_unit :
  coincide (0, 0)%float (1, 1)%float = false
  ∧ ∃ vec row,
      result (generate_order_vectors 0 false) (Heap [Points diagonal] nan_memory) = Ret vec
      ∧ vec !! 0 = Some row
      ∧ PrimFloat.ltb (norm (direction row)) 1 = true.
Proof. split; [reflexivity|]. eexists _, _. split; [|split]; reflexivity. Qed.

(** ** The edge mesh *)

(** C5, as the component design has it.  For every path the Path
    Normalizer accepts unchanged, of [N] points, the edge mesh has
    [2 * segment_count] triangles and one more for every bevel join, where
    [segment_count] is [N] when closed and [N - 1] when open; a mesh with
    no bevel join has exactly [2 * segment_count]. *)
Theorem C5_triangle_count_with_bevels {F : Type} {SF : Scalar F}
    (limit : F) (path : list (xy F)) (closed : bool) :
  normalize path closed = inr path →
  ∃ mesh : EdgeMesh,
    generate_2D_edge_meshes limit path closed = inr mesh
    ∧ length (triangles mesh)
      = 2 * segment_count (length path) closed + bevel_count (joins limit path closed)
    ∧ (bevel_count (joins limit path closed) = 0 →
       length (triangles mesh) = 2 * segment_count (length path) closed).
Proof.
  intros Hn. destruct (triangle_count limit path closed Hn) as (mesh & Hmesh & Hcount).
  exists mesh. split; [done|]. split; [done|]. intros Hb. rewrite Hcount, Hb. lia.
Qed.

Lemma C5_triangle_count_with_bevels_witness :
  normalize sharp true = inr sharp
  ∧ ∃ mesh : EdgeMesh,
      generate_2D_edge_meshes 2%float sharp true = inr mesh
      ∧ length (triangles mesh)
        = 2 * segment_count 8 true + bevel_count (joins 2%float sharp true).
Proof.
  split; [reflexivity|].
  destruct (C5_triangle_count_with_bevels 2%float sharp true) as (mesh & Hmesh & Hcount & _);
    [reflexivity|].
  exists mesh. split; [exact Hmesh|exact Hcount].
Defined.

(** C5 as stated fails: with the miter limit 2 the closed zig-zag [sharp]
    of 8 points, a path the normalizer accepts as it is, has 4 bevel joins
    and a mesh of 20 triangles, not [2 * 8]. *)
Lemma C5_sharp_zigzag_has_twenty_triangles :
  normalize sharp true = inr sharp
  ∧ ∃ mesh : EdgeMesh,
      generate_2D_edge_meshes 2%float sharp true = inr mesh
      ∧ length (triangles mesh) = 20
      ∧ 2 * segment_count (length sharp) true = 16.
Proof. split; [reflexivity|]. eexists. split; [|split]; reflexivity. Qed.



(** On a path that reverses its direction exactly, the offset of the join
    at the turn is [0/0]; the join is a bevel, and no vertex or offset of
    the mesh is NaN or infinite. *)
Lemma direction_reversal_is_bevel :
  joins 2%float there_and_back false !! 1 = Some (Bevel (-0, 1)%float (-0, -1)%float)
  ∧ ∃ mesh : EdgeMesh,
      generate_2D_edge_meshes 2%float there_and_back false = inr mesh
      ∧ forallb finite_xy (vertices mesh) = true
      ∧ forallb finite_xy (offsets mesh) = true
      ∧ forallb (indices_in_range (length (vertices mesh))) (triangles mesh) = true.
Proof. split; [reflexivity|]. eexists. split; [reflexivity|]. split; [|split]; reflexivity. Qed.

(** ** Determinism *)

Lemma computes_same_outcome {F : Type} {SF : Scalar F}
    (m1 m2 : M F ref) (h1 h2 : heap F) o :
  computes m1 h1 o → computes m2 h2 o → same_outcome m1 h1 m2 h2.
Proof.
  intros H1 H2. split; [|split].
  - by rewrite (computes_result m1 h1 o), (computes_result m2 h2 o).
  - by apply (computes_pure m1 h1 o).
  - by apply (computes_pure m2 h2 o).
Qed.

(** C7, with the indices of the triangles in range.  The generators are
    free of side effects, and deterministic as far as they read their
    inputs only.  Two calls of the same generator with the same flags, in
    any two heaps, on input arrays of equal contents, end alike: they return
    arrays of identical contents, or raise the same exception; what
    uninitialised memory held and what else the heaps hold does not matter.
    For the two border generators this holds when every index of every
    triangle is in range for the buffers.  Each call leaves every array of
    its heap as it was, whatever the indices.  So a second call of
    [generate_order_vectors] on the unchanged path, in the heap the first
    call left, returns what the first returned. *)
Theorem C7_generators_deterministic_and_pure {F : Type} {SF : Scalar F} :
  (∀ (h1 h2 : heap F) path1 path2 p closed,
     objects h1 !! path1 = Some (Points p) → objects h2 !! path2 = Some (Points p) →
     same_outcome (generate_order_vectors path1 closed) h1
                  (generate_order_vectors path2 closed) h2)
  ∧ (∀ (h1 h2 : heap F) nv1 nv2 nv,
     objects h1 !! nv1 = Some (Vectors nv) → objects h2 !! nv2 = Some (Vectors nv) →
     same_outcome (generate_miter_helper_vectors nv1) h1
                  (generate_miter_helper_vectors nv2) h2
     ∧ same_outcome (generate_orthogonal_vectors nv1) h1
                    (generate_orthogonal_vectors nv2) h2)
  ∧ (∀ (h1 h2 : heap F) c1 o1 t1 c2 o2 t2 cs os ts,
     objects h1 !! c1 = Some (Points cs) → objects h2 !! c2 = Some (Points cs) →
     objects h1 !! o1 = Some (Points os) → objects h2 !! o2 = Some (Points os) →
     objects h1 !! t1 = Some (Triangles ts) → objects h2 !! t2 = Some (Triangles ts) →
     same_outcome (generate_mitter_vectors (c1, o1, t1)) h1
                  (generate_mitter_vectors (c2, o2, t2)) h2
     ∧ (valid_triangles (length cs) ts → valid_triangles (length os) ts →
        same_outcome (generate_edge_triangle_borders c1 o1 t1) h1
                     (generate_edge_triangle_borders c2 o2 t2) h2
        ∧ same_outcome (generate_face_triangle_borders c1 t1) h1
                       (generate_face_triangle_borders c2 t2) h2)
     ∧ pure (generate_edge_triangle_borders c1 o1 t1) h1
     ∧ pure (generate_face_triangle_borders c1 t1) h1)
  ∧ (∀ (h : heap F) path_ p closed,
     objects h !! path_ = Some (Points p) →
     let h' := (generate_order_vectors path_ closed h).1 in
     objects h' !! path_ = Some (Points p)
     ∧ result (generate_order_vectors path_ closed) h'
       = result (generate_order_vectors path_ closed) h).
Proof.
  split; [|split; [|split]].
  - intros h1 h2 path1 path2 p closed H1 H2.
    apply (computes_same_outcome _ _ _ _ (order_vectors p closed));
      by apply generate_order_vectors_computes.
  - intros h1 h2 nv1 nv2 nv H1 H2. split.
    + apply (computes_same_outcome _ _ _ _ (Ret (miter_helper_vectors nv)));
        by apply generate_miter_helper_vectors_computes.
    + apply (computes_same_outcome _ _ _ _ (Ret (orthogonal_vectors nv)));
        by apply generate_orthogonal_vectors_computes.
  - intros h1 h2 c1 o1 t1 c2 o2 t2 cs os ts Hc1 Hc2 Ho1 Ho2 Ht1 Ht2.
    split; [|split; [|split]].
    + apply (computes_same_outcome _ _ _ _ (mitter_vectors cs os));
        by apply generate_mitter_vectors_computes.
    + intros Hcs Hos. split.
      * apply (computes_same_outcome _ _ _ _ (edge_triangle_borders cs os ts));
          by apply generate_edge_triangle_borders_computes.
      * apply (computes_same_outcome _ _ _ _ (face_triangle_borders cs ts));
          by apply generate_face_triangle_borders_computes.
    + apply (computes_pure _ _ _
               (generate_edge_triangle_borders_runs h1 c1 o1 t1 cs os ts Hc1 Ho1 Ht1)).
    + apply (computes_pure _ _ _
               (generate_face_triangle_borders_runs h1 c1 t1 cs ts Hc1 Ht1)).
  - intros h path_ p closed Hp h'.
    pose proof (generate_order_vectors_computes h path_ p closed Hp) as Hc.
    assert (Hp' : objects h' !! path_ = Some (Points p)).
    { apply pure_lookup; [|done]. by apply (computes_pure _ _ _ Hc). }
    split; [done|].
    rewrite (computes_result _ _ _ Hc).
    by apply computes_result, generate_order_vectors_computes.
Qed.

(** The zig-zag in two heaps that differ in everything but the path. *)
Lemma C7_generators_deterministic_and_pure_witness :
  same_outcome
    (generate_order_vectors 0 true) (Heap [Points sharp] nan_memory)
    (generate_order_vectors 1 true)
    (Heap [Triangles one_triangle; Points sharp] (λ _ _, ((0, 0), (1, 1))%float)).
Proof.
  apply (proj1 (C7_generators_deterministic_and_pure (F:=float))
           (Heap [Points sharp] nan_memory)
           (Heap [Triangles one_triangle; Points sharp] (λ _ _, ((0, 0), (1, 1))%float))
           0 1 sharp true); reflexivity.
Defined.

(** C7 as stated fails for the two border generators, which
    [numba.njit] compiles without bounds checks.  The triangle [(0, 1, 3)]
    points one row behind the three vertices of [thin_corner]: nothing is
    raised, and two calls on these same arrays return different records
    when the memory behind the vertices differs; what [np.empty] hands out
    is the same in both. *)
Lemma C7_out_of_range_index_reads_memory :
  ∃ out1 out2 : list (vector float),
    result (generate_face_triangle_borders 0 1)
      (Heap [Points thin_corner; Triangles [(0, 1, 3)%Z]] nan_memory) = Ret out1
    ∧ result (generate_face_triangle_borders 0 1)
        (Heap [Points thin_corner; Triangles [(0, 1, 3)%Z]] sevens_behind_vertices)
      = Ret out2
    ∧ origin <$> out1 !! 2 = Some (nan, nan)%float
    ∧ origin <$> out2 !! 2 = Some (7, 7)%float
    ∧ out1 ≠ out2.
Proof.
  eexists _, _. split; [reflexivity|]. split; [reflexivity|].
  split; [reflexivity|]. split; [reflexivity|].
  intros E. apply (f_equal all_finite) in E. vm_compute in E. discriminate.
Qed.

(** ** The helper generators *)

(** Triangles whose indices the buffers accept can be read. *)
Lemma valid_triangles_readable {F : Type} {SF : Scalar F}
    (cs os vs : list (xy F)) (ts : list (Z * Z * Z)) :
  valid_triangles (length cs) ts → valid_triangles (length os) ts →
  valid_triangles (length vs) ts →
  readable (edge_corner cs os) ts ∧ readable (lookup_row vs) ts.
Proof.
  intros Hcs Hos Hvs. split; intros a b c Habc.
  - assert (He : ∀ i, i ∈ [a; b; c] → ∃ x, edge_corner cs os i = Ret x).
    { intros i Hi.
      destruct (lookup_row_in_range cs i (Hcs a b c i Habc Hi)) as [x Hx].
      destruct (lookup_row_in_range os i (Hos a b c i Habc Hi)) as [y Hy].
      exists (vadd x y). unfold edge_corner. by rewrite Hx, Hy. }
    repeat split; apply He; repeat constructor.
  - assert (He : ∀ i, i ∈ [a; b; c] → ∃ x, lookup_row vs i = Ret x).
    { intros i Hi. apply lookup_row_in_range, (Hvs a b c i Habc Hi). }
    repeat split; apply He; repeat constructor.
Qed.

(** C8, for triangles whose indices the buffers accept, and with the sum
    taken in exact arithmetic.  When every index of every triangle is in
    range for the centers, the offsets and the face vertices,
    [generate_edge_triangle_borders] and [generate_face_triangle_borders]
    each return exactly [3 * T] records for [T] triangles, in binary64 as in
    exact arithmetic.  In exact arithmetic the borders of each triangle
    form a closed loop around its corners (for the edge variant, the centers
    moved by their offsets): each border ends where the next starts and the
    three directions sum to the zero vector. *)
Theorem C8_borders_of_valid_triangles_close_exactly :
  (∀ (F : Type) (SF : Scalar F) (h : heap F) (centers offsets vertices triangles : ref)
     (cs os vs : list (xy F)) (ts : list (Z * Z * Z)),
     objects h !! centers = Some (Points cs) →
     objects h !! offsets = Some (Points os) →
     objects h !! vertices = Some (Points vs) →
     objects h !! triangles = Some (Triangles ts) →
     valid_triangles (length cs) ts → valid_triangles (length os) ts →
     valid_triangles (length vs) ts →
     ∃ edge face,
       result (generate_edge_triangle_borders centers offsets triangles) h = Ret edge
       ∧ result (generate_face_triangle_borders vertices triangles) h = Ret face
       ∧ length edge = 3 * length ts ∧ length face = 3 * length ts)
  ∧ (∀ (h : heap R) (centers offsets vertices triangles : ref)
       (cs os vs : list (xy R)) (ts : list (Z * Z * Z)),
       objects h !! centers = Some (Points cs) →
       objects h !! offsets = Some (Points os) →
       objects h !! vertices = Some (Points vs) →
       objects h !! triangles = Some (Triangles ts) →
       valid_triangles (length cs) ts → valid_triangles (length os) ts →
       valid_triangles (length vs) ts →
       ∃ edge face,
         result (generate_edge_triangle_borders centers offsets triangles) h = Ret edge
         ∧ result (generate_face_triangle_borders vertices triangles) h = Ret face
         ∧ closed_loops edge ∧ closed_loops face).
Proof.
  split.
  - intros F SF h centers offsets vertices triangles cs os vs ts Hc Ho Hv Ht Hcs Hos Hvs.
    destruct (valid_triangles_readable cs os vs ts Hcs Hos Hvs) as [Hedge Hface].
    destruct (triangle_borders_rows _ ts Hedge) as (edge & Ee & Hle & _).
    destruct (triangle_borders_rows _ ts Hface) as (face & Ef & Hlf & _).
    exists edge, face. repeat split; try done.
    + rewrite <- Ee. by apply computes_result, generate_edge_triangle_borders_computes.
    + rewrite <- Ef. by apply computes_result, generate_face_triangle_borders_computes.
  - intros h centers offsets vertices triangles cs os vs ts Hc Ho Hv Ht Hcs Hos Hvs.
    destruct (valid_triangles_readable cs os vs ts Hcs Hos Hvs) as [Hedge Hface].
    destruct (triangle_borders_closed_loops _ ts Hedge) as (edge & Ee & _ & Hce).
    destruct (triangle_borders_closed_loops _ ts Hface) as (face & Ef & _ & Hcf).
    exists edge, face. repeat split; try done.
    + rewrite <- Ee. by apply computes_result, generate_edge_triangle_borders_computes.
    + rewrite <- Ef. by apply computes_result, generate_face_triangle_borders_computes.
Qed.

Lemma C8_borders_of_valid_triangles_close_exactly_witness :
  valid_triangles 3 one_triangle
  ∧ (∃ edge face : list (vector float),
       result (generate_edge_triangle_borders 0 0 1)
         (Heap [Points thin_corner; Triangles one_triangle] nan_memory) = Ret edge
       ∧ result (generate_face_triangle_borders 0 1)
         (Heap [Points thin_corner; Triangles one_triangle] nan_memory) = Ret face
       ∧ length edge = 3 ∧ length face = 3)
  ∧ (∃ edge face : list (vector R),
       result (generate_edge_triangle_borders 0 0 1)
         (Heap [Points three_four; Triangles one_triangle] zero_memory) = Ret edge
       ∧ result (generate_face_triangle_borders 0 1)
         (Heap [Points three_four; Triangles one_triangle] zero_memory) = Ret face
       ∧ closed_loops edge ∧ closed_loops face).
Proof.
  assert (Hvalid : valid_triangles 3 one_triangle).
  { intros a b c i Habc Hi.
    apply list_elem_of_singleton in Habc as [= -> -> ->].
    unfold in_range.
    apply elem_of_cons in Hi as [->|Hi]; [lia|].
    apply elem_of_cons in Hi as [->|Hi]; [lia|].
    apply list_elem_of_singleton in Hi as ->. lia. }
  split; [exact Hvalid|]. split.
  - apply (proj1 C8_borders_of_valid_triangles_close_exactly float Binary64.scalar
             (Heap [Points thin_corner; Triangles one_triangle] nan_memory)
             0 0 0 1 thin_corner thin_corner thin_corner one_triangle);
      try reflexivity; exact Hvalid.
  - apply (proj2 C8_borders_of_valid_triangles_close_exactly
             (Heap [Points three_four; Triangles one_triangle] zero_memory)
             0 0 0 1 three_four three_four three_four one_triangle);
      try reflexivity; exact Hvalid.
Defined.

(** C8 as stated fails in binary64: for the triangle with corners [(0, 0)],
    [(1, 0)] and [(2^-60, 1)] the three border directions that
    [generate_face_triangle_borders] returns sum to [(-2^-60, 0)], because
    [2^-60 - 1] rounds to [-1]. *)
Lemma C8_rounded_borders_do_not_close :
  ∃ r0 r1 r2 : vector float,
    result (generate_face_triangle_borders 0 1)
      (Heap [Points thin_corner; Triangles one_triangle] nan_memory) = Ret [r0; r1; r2]
    ∧ vadd (vadd (direction r0) (direction r1)) (direction r2) = (-0x1p-60, 0)%float.
Proof. eexists _, _, _. split; reflexivity. Qed.

(** C9, with the consequence drawn where halving is exact.  For every
    array of [N] records [generate_orthogonal_vectors] returns [N] records;
    record [i] has origin [origin_i + direction_i / 2] and its direction is
    [direction_i / 2] turned by a quarter, [(x, y)] to [(-y, x)], in
    binary64 as in exact arithmetic.  Such a direction has dot product zero
    with [direction_i] and half its Euclidean norm: in exact arithmetic, and
    in binary64 for the numbers the two directions stand for, whenever
    [0.5] halves the two components of [direction_i] without rounding, as it
    does every component that is zero or of magnitude at least [2^-1021]. *)
Theorem C9_orthogonal_records_exact :
  (∀ (F : Type) (SF : Scalar F) (h : heap F) (normal_vector : ref) (nv : list (vector F)),
     objects h !! normal_vector = Some (Vectors nv) →
     ∃ out : list (vector F),
       result (generate_orthogonal_vectors normal_vector) h = Ret out
       ∧ length out = length nv
       ∧ ∀ i o d, nv !! i = Some (o, d) →
           out !! i = Some (vadd o (vscale d fhalf), rot90 (vscale d fhalf)))
  ∧ (∀ d : xy R,
       dot (rot90 (vscale d fhalf)) d = 0%R
       ∧ norm (rot90 (vscale d fhalf)) = (norm d / 2)%R)
  ∧ (∀ d : xy float,
       halves_exactly d.1 = true → halves_exactly d.2 = true →
       dot (value_xy (rot90 (vscale d fhalf))) (value_xy d) = 0%R
       ∧ norm (value_xy (rot90 (vscale d fhalf))) = (norm (value_xy d) / 2)%R).
Proof.
  split; [|split].
  - intros F SF h normal_vector nv Hnv. exists (orthogonal_vectors nv). split; [|split].
    + by apply computes_result, generate_orthogonal_vectors_computes.
    + unfold orthogonal_vectors. by rewrite length_fmap.
    + intros i o d Hi. unfold orthogonal_vectors. by rewrite list_lookup_fmap, Hi.
  - intros d. split; [apply dot_rot90_half|apply norm_rot90_half].
  - intros d H1 H2. rewrite (rot90_half_binary64 d H1 H2).
    split; [apply dot_rot90_half|apply norm_rot90_half].
Qed.

(** The direction [(2^600, 2^600)] gives [(-2^599, 2^599)], orthogonal to
    it and half as long. *)
Lemma C9_orthogonal_records_exact_witness :
  (∃ out : list (vector float),
     result (generate_orthogonal_vectors 0) (Heap [Vectors huge] nan_memory) = Ret out
     ∧ length out = 1
     ∧ ∀ i o d, huge !! i = Some (o, d) →
         out !! i = Some (vadd o (vscale d fhalf), rot90 (vscale d fhalf)))
  ∧ (dot (rot90 (vscale (3, 4)%R fhalf)) (3, 4)%R = 0%R
     ∧ norm (rot90 (vscale (3, 4)%R fhalf)) = (norm (3, 4)%R / 2)%R)
  ∧ halves_exactly 0x1p600 = true
  ∧ dot (value_xy (rot90 (vscale (0x1p600, 0x1p600)%float fhalf)))
        (value_xy (0x1p600, 0x1p600)%float) = 0%R
  ∧ norm (value_xy (rot90 (vscale (0x1p600, 0x1p600)%float fhalf)))
    = (norm (value_xy (0x1p600, 0x1p600)%float) / 2)%R.
Proof.
  split; [|split; [|split]].
  - apply (proj1 C9_orthogonal_records_exact float Binary64.scalar
             (Heap [Vectors huge] nan_memory) 0 huge).
    reflexivity.
  - apply (proj1 (proj2 C9_orthogonal_records_exact) (3, 4)%R).
  - reflexivity.
  - apply (proj2 (proj2 C9_orthogonal_records_exact) (0x1p600, 0x1p600)%float);
      reflexivity.
Defined.

(** C9 as stated fails in binary64 where halving underflows: of the
    direction [(3 * 2^-1074, 2^-1074)] the halves are rounded to
    [(2^-1073, 0)], the direction returned is [(-0, 2^-1073)], and the dot
    product of the vectors the two stand for is [2^-2146], not zero. *)
Lemma C9_halving_underflows :
  ∃ row : vector float,
    result (generate_orthogonal_vectors 0) (Heap [Vectors tiny] nan_memory) = Ret [row]
    ∧ direction row = (-0, 0x1p-1073)%float
    ∧ dot (value_xy (direction row)) (value_xy (0x3p-1074, 0x1p-1074)%float) ≠ 0%R.
Proof.
  exists ((0x1p-1073, 0), (-0, 0x1p-1073))%float.
  split; [reflexivity|]. split; [reflexivity|].
  unfold value_xy, value, dot. cbn [fst snd direction].
  change (Prim2SF (-0)) with (S754_zero true).
  change (Prim2SF 0x1p-1073) with (S754_finite false 2 (-1074)).
  change (Prim2SF 0x3p-1074) with (S754_finite false 3 (-1074)).
  change (Prim2SF 0x1p-1074) with (S754_finite false 1 (-1074)).
  cbn [SF2R cond_Zopp fadd fmul Exact.scalar].
  pose proof (powerRZ_lt 2 (-1074) ltac:(lra)) as Hu.
  set (u := powerRZ 2 (-1074)) in *. nra.
Qed.

(** C10.  For every array of [N] records [generate_miter_helper_vectors]
    returns exactly [2N] records: for each [i < N], record [i] is
    [(origin_i, direction_i / 2)] and record [N + i] is
    [(origin_i + direction_i / 2, - direction_((i - 1) mod N) / 2)], the
    point moved by half its direction with the negated half direction of
    the point before it, the last point coming before the first.  This holds
    in binary64 as in exact arithmetic. *)
Theorem C10_miter_helper_records {F : Type} {SF : Scalar F}
    (h : heap F) (normal_vector : ref) (nv : list (vector F)) :
  objects h !! normal_vector = Some (Vectors nv) →
  ∃ out : list (vector F),
    result (generate_miter_helper_vectors normal_vector) h = Ret out
    ∧ length out = 2 * length nv
    ∧ ∀ i o d, nv !! i = Some (o, d) →
        out !! i = Some (o, vscale d fhalf)
        ∧ ∃ o' d', nv !! ((i + length nv - 1) `mod` length nv) = Some (o', d')
            ∧ out !! (length nv + i)
              = Some (vadd o (vscale d fhalf), vneg (vscale d' fhalf)).
Proof.
  intros Hnv. exists (miter_helper_vectors nv). split; [|split].
  - by apply computes_result, generate_miter_helper_vectors_computes.
  - apply length_miter_helper_vectors.
  - intros i o d Hi.
    assert (Hlt : i < length nv) by (by apply lookup_lt_Some in Hi).
    assert (Hprev : (i + length nv - 1) `mod` length nv < length nv)
      by (apply Nat.mod_upper_bound; lia).
    destruct (lookup_lt_is_Some_2 nv _ Hprev) as [[o' d'] Hp].
    unfold miter_helper_vectors. split.
    + rewrite lookup_app_l by (rewrite length_fmap; lia).
      by rewrite list_lookup_fmap, Hi.
    + exists o', d'. split; [done|].
      rewrite lookup_app_r by (rewrite length_fmap; lia).
      rewrite length_fmap. replace (length nv + i - length nv) with i by lia.
      rewrite lookup_zip_with, list_lookup_fmap, Hi. simpl.
      rewrite lookup_np_roll_1 by (rewrite !length_fmap; lia).
      rewrite !length_fmap, !list_lookup_fmap, Hp. simpl.
      unfold vscale, vneg. simpl. by rewrite !fmul_minus1.
Qed.

(** The eight order vectors of the zig-zag. *)
Lemma C10_miter_helper_records_witness :
  ∃ out : list (vector float),
    result (generate_miter_helper_vectors 0) (Heap [Vectors (zip sharp sharp)] nan_memory)
    = Ret out
    ∧ length out = 2 * length (zip sharp sharp)
    ∧ ∀ i o d, zip sharp sharp !! i = Some (o, d) →
        out !! i = Some (o, vscale d fhalf)
        ∧ ∃ o' d', zip sharp sharp !! ((i + length (zip sharp sharp) - 1)
                                         `mod` length (zip sharp sharp)) = Some (o', d')
            ∧ out !! (length (zip sharp sharp) + i)
              = Some (vadd o (vscale d fhalf), vneg (vscale d' fhalf)).
Proof.
  apply (C10_miter_helper_records (Heap [Vectors (zip sharp sharp)] nan_memory) 0
           (zip sharp sharp)).
  reflexivity.
Defined.

(** * Beyond the stated properties

    The rest of the script that can be embedded: the functions that run the
    generators over a layer, [get_helper_data_from_shapes] and
    [get_nono_accelerated_points], and [generate_regular_polygon]; then
    further properties of the generators and of these functions.  The
    functions that build and update the layers of the viewer
    ([update_layers], [add_helper_layers] and the like) act on the napari
    viewer and are left out.  As before the definitions come first, the
    lemmas after them, the properties last. *)

(** ** The helper data of a layer: [get_helper_data_from_shapes]

    Lines 155 to 188 of the script.  The function reads, of every shape of
    the [Shapes] layer, the path and its closed flag, the edge mesh and the
    face mesh; a shape is the record of these attributes. *)

(** The attributes of a shape [x] that the function reads. *)
Record Shape : Set := {
  data : ref;                (* x.data *)
  _closed : bool;            (* x._closed *)
  _edge_vertices : ref;      (* x._edge_vertices *)
  _edge_offsets : ref;       (* x._edge_offsets *)
  _edge_triangles : ref;     (* x._edge_triangles *)
  _face_vertices : ref;      (* x._face_vertices *)
  _face_triangles : ref      (* x._face_triangles *)
}.

(** [class Helpers(typing.NamedTuple)], lines 155-162. *)
Module Helpers.
Record t : Set := {
  points : ref;
  order_vectors : ref;
  miter_helper : ref;
  orthogonal_vector : ref;
  miter_vectors : ref;
  triangles_vectors : ref;
  face_triangles_vectors : ref
}.
End Helpers.

Section Layer.
Context {F : Type} {SF : Scalar F}.

(** [[f(x) for x in l]] *)
Fixpoint list_comprehension {A B} (f : A → M F B) (l : list A) : M F (list B) :=
  match l with
  | [] => ret []
  | x :: l' => y ← f x; ys ← list_comprehension f l'; ret (y :: ys)
  end.

(** [[x for x in l if len(key(x))]], the key an array of points. *)
Fixpoint filter_nonempty {A} (key : A → ref) (l : list A) : M F (list A) :=
  match l with
  | [] => ret []
  | x :: l' =>
      k ← load_points (key x);
      ys ← filter_nonempty key l';
      ret (if bool_decide (length k = 0) then ys else x :: ys)
  end.

(** [np.concatenate(arrays, axis=0)] of a list of arrays of one kind;
    NumPy needs at least one array to concatenate. *)
Definition concatenate_points (arrays : list ref) : M F ref :=
  match arrays with
  | [] => raise ValueError
  | _ => ps ← list_comprehension load_points arrays; alloc (Points (concat ps))
  end.
Definition concatenate_triangles (arrays : list ref) : M F ref :=
  match arrays with
  | [] => raise ValueError
  | _ => ts ← list_comprehension load_triangles arrays; alloc (Triangles (concat ts))
  end.
Definition concatenate_vectors (arrays : list ref) : M F ref :=
  match arrays with
  | [] => raise ValueError
  | _ => vs ← list_comprehension load_vectors arrays; alloc (Vectors (concat vs))
  end.

(** [a + b] for two arrays of shape [(N, 2)] and [(M, 2)]: NumPy broadcasts
    a single row of either against the rows of the other. *)
Definition np_add (a b : ref) : M F ref :=
  x ← load_points a;
  y ← load_points b;
  match broadcast (length x) y with
  | Ret y' => alloc (Points (zip_with vadd x y'))
  | Raise _ =>
      match broadcast (length y) x with
      | Ret x' => alloc (Points (zip_with vadd x' y))
      | Raise e => raise e
      end
  end.

(** [get_helper_data_from_shapes(shape)], lines 164-188; [shapes] is
    [shape._data_view.shapes]. *)
Definition get_helper_data_from_shapes (shapes : list Shape) : M F Helpers.t :=
  (* mesh_list = [(x._edge_vertices, x._edge_offsets, x._edge_triangles) for x in shapes] *)
  let mesh_list := (λ x, (_edge_vertices x, _edge_offsets x, _edge_triangles x)) <$> shapes in
  (* path_list = [(x.data, x._closed) for x in shapes] *)
  let path_list := (λ x, (data x, _closed x)) <$> shapes in
  (* mesh = tuple(np.concatenate(el, axis=0) for el in zip( *mesh_list)):
     zip of no triple yields nothing, of triples the three columns *)
  mesh ← match mesh_list with
         | [] => ret []
         | _ => list_comprehension (λ el, el)
                  [concatenate_points ((λ m, m.1.1) <$> mesh_list);
                   concatenate_points ((λ m, m.1.2) <$> mesh_list);
                   concatenate_triangles ((λ m, m.2) <$> mesh_list)]
         end;
  (* face_mesh_list = [(x._face_vertices, x._face_triangles)
                       for x in shapes if len(x._face_vertices)] *)
  with_faces ← filter_nonempty _face_vertices shapes;
  let face_mesh_list := (λ x, (_face_vertices x, _face_triangles x)) <$> with_faces in
  (* points = mesh[0] + mesh[1] *)
  mesh0 ← getitem mesh 0;
  mesh1 ← getitem mesh 1;
  points ← np_add mesh0 mesh1;
  (* order_vectors_li = [generate_order_vectors(path_, closed) for path_, closed in path_list] *)
  order_vectors_li ←
    list_comprehension (λ '(path_, closed), generate_order_vectors path_ closed) path_list;
  (* order_vectors = np.concatenate(order_vectors_li, axis=0) *)
  order_vectors ← concatenate_vectors order_vectors_li;
  (* miter_helper = np.concatenate(
       [generate_miter_helper_vectors(o) for o in order_vectors_li], axis=0) *)
  miter_helper_li ← list_comprehension generate_miter_helper_vectors order_vectors_li;
  miter_helper ← concatenate_vectors miter_helper_li;
  (* orthogonal_vector = np.concatenate(
       [generate_orthogonal_vectors(o) for o in order_vectors_li], axis=0) *)
  orthogonal_vector_li ← list_comprehension generate_orthogonal_vectors order_vectors_li;
  orthogonal_vector ← concatenate_vectors orthogonal_vector_li;
  (* miter_vectors = np.concatenate([generate_mitter_vectors(m) for m in mesh_list], axis=0) *)
  miter_vectors_li ← list_comprehension generate_mitter_vectors mesh_list;
  miter_vectors ← concatenate_vectors miter_vectors_li;
  (* triangles_vectors = np.concatenate(
       [generate_edge_triangle_borders( *m) for m in mesh_list], axis=0) *)
  triangles_vectors_li ←
    list_comprehension (λ '(c, o, t), generate_edge_triangle_borders c o t) mesh_list;
  triangles_vectors ← concatenate_vectors triangles_vectors_li;
  (* face_triangles_vectors = np.concatenate(
       [generate_face_triangle_borders( *m) for m in face_mesh_list], axis=0) *)
  face_triangles_vectors_li ←
    list_comprehension (λ '(v, t), generate_face_triangle_borders v t) face_mesh_list;
  face_triangles_vectors ← concatenate_vectors face_triangles_vectors_li;
  ret {| Helpers.points := points;
         Helpers.order_vectors := order_vectors;
         Helpers.miter_helper := miter_helper;
         Helpers.orthogonal_vector := orthogonal_vector;
         Helpers.miter_vectors := miter_vectors;
         Helpers.triangles_vectors := triangles_vectors;
         Helpers.face_triangles_vectors := face_triangles_vectors |}.

End Layer.

(** ** The join points without the stored meshes: [get_nono_accelerated_points] *)

Section NonAccelerated.
Context {F : Type} {SF : Scalar F}.

(** [generate_2D_edge_meshes(path, closed)], of
    [napari.layers.shapes._shapes_utils], is not among the sources: it is
    any function that returns three arrays, the centers, the offsets and
    the triangles of an edge mesh. *)
Variable generate_2D_edge_meshes : ref → bool → M F (ref * ref * ref).

(** [get_nono_accelerated_points(shape)], lines 223-230; [shapes] is
    [shape._data_view.shapes]. *)
Definition get_nono_accelerated_points (shapes : list Shape) : M F ref :=
  (* path_list = [(x.data, x._closed) for x in shapes] *)
  let path_list := (λ x, (data x, _closed x)) <$> shapes in
  (* mesh_list = [generate_2D_edge_meshes(path, closed) for path, closed in path_list] *)
  mesh_list ←
    list_comprehension (λ '(path, closed), generate_2D_edge_meshes path closed) path_list;
  (* mesh = tuple(np.concatenate(el, axis=0) for el in zip( *mesh_list)) *)
  mesh ← match mesh_list with
         | [] => ret []
         | _ => list_comprehension (λ el, el)
                  [concatenate_points ((λ m, m.1.1) <$> mesh_list);
                   concatenate_points ((λ m, m.1.2) <$> mesh_list);
                   concatenate_triangles ((λ m, m.2) <$> mesh_list)]
         end;
  (* return mesh[0] + mesh[1] *)
  mesh0 ← getitem mesh 0;
  mesh1 ← getitem mesh 1;
  np_add mesh0 mesh1.

End NonAccelerated.

(** ** Regular polygons: [generate_regular_polygon] *)

(** What the function needs of [float64] besides the arithmetic: the
    constant [np.pi], [np.cos] and [np.sin], and the conversion of an
    integer. *)
Class Trig (F : Type) : Type := MkTrig {
  fpi : F;
  fcos : F → F;
  fsin : F → F;
  of_int : Z → F
}.

Section RegularPolygon.
Context {F : Type} {SF : Scalar F} {TF : Trig F}.

(** [np.linspace(start, stop, num, endpoint=False)]: a negative [num] is an
    error; the samples are [arange(0, num) * step + start] with
    [step = (stop - start) / num], computed as [arange / num * delta] when
    the step is zero. *)
Definition np_linspace (start stop : F) (num : Z) : outcome (list F) :=
  if (num <? 0)%Z then Raise ValueError
  else
    let delta := fsub stop start in
    let y := (λ i, of_int (Z.of_nat i)) <$> seq 0 (Z.to_nat num) in
    let y :=
      if (0 <? num)%Z then
        let step := fdiv delta (of_int num) in
        if feqb step (of_int 0)
        then (λ v, fmul (fdiv v (of_int num)) delta) <$> y
        else (λ v, fmul v step) <$> y
      else (λ v, fmul v delta) <$> y in
    Ret ((λ v, fadd v start) <$> y).

(** [generate_regular_polygon(n, radius)], lines 11-23. *)
Definition generate_regular_polygon (n : Z) (radius : F) : outcome (list (xy F)) :=
  (* angles = np.linspace(0, 2 * np.pi, n, endpoint=False) *)
  match np_linspace (of_int 0) (fmul (of_int 2) fpi) n with
  | Raise e => Raise e
  | Ret angles =>
      (* np.column_stack((radius * np.cos(angles), radius * np.sin(angles))) *)
      Ret (zip ((λ a, fmul radius (fcos a)) <$> angles)
               ((λ a, fmul radius (fsin a)) <$> angles))
  end.

End RegularPolygon.

(** The trigonometry of exact arithmetic. *)
#[export] Instance exact_trig : Trig R := {|
  fpi := PI;
  fcos := cos;
  fsin := sin;
  of_int := IZR
|}.

(** The vertex at index [i] of the polygon with [n > 0] vertices. *)
Definition vertex (n : nat) (radius : R) (i : nat) : xy R :=
  let a := (INR i * (2 * PI / INR n))%R in
  ((radius * cos a)%R, (radius * sin a)%R).

(** ** Predicates on calls and heaps *)

Section HeapPredicates.
Context {F : Type} {SF : Scalar F}.
Implicit Types (h : heap F).

(** [h'] is [h] with new objects allocated. *)
Definition extends h h' : Prop :=
  objects h `prefix_of` objects h' ∧ fresh_memory h' = fresh_memory h.

(** Run in [h], the call returns, it only allocated, and [Q] holds of the
    heap it leaves and of what it returns. *)
Definition yields {A} (m : M F A) h (Q : heap F → A → Prop) : Prop :=
  ∃ h' a, m h = (h', Ret a) ∧ extends h h' ∧ Q h' a.

(** Whatever a call built of loads and allocations does, it leaves the
    objects of the heap in place. *)
Definition grows {A} (m : M F A) : Prop := ∀ h h' o, m h = (h', o) → extends h h'.

(** The call raises. *)
Definition fails {A} (m : M F A) h : Prop := ∃ e, (m h).2 = Raise e.

Definition vectors_at h (r : ref) (v : list (vector F)) : Prop :=
  objects h !! r = Some (Vectors v).

(** The three arrays of a mesh hold [m]. *)
Definition mesh_at (m : list (xy F) * list (xy F) * list (Z * Z * Z))
    (h : heap F) (r : ref * ref * ref) : Prop :=
  objects h !! r.1.1 = Some (Points m.1.1)
  ∧ objects h !! r.1.2 = Some (Points m.1.2)
  ∧ objects h !! r.2 = Some (Triangles m.2).

End HeapPredicates.

(** ** The layer as the function finds it *)

Section LayerContents.
Context {F : Type} {SF : Scalar F}.
Implicit Types (h : heap F).

(** The contents of the arrays of a shape. *)
Record contents : Type := Contents {
  path : list (xy F);
  closed : bool;
  edge_vertices : list (xy F);
  edge_offsets : list (xy F);
  edge_triangles : list (Z * Z * Z);
  face_vertices : list (xy F);
  face_triangles : list (Z * Z * Z)
}.

(** In [h] the arrays of the shape [x] hold [c]. *)
Definition holds h (x : Shape) (c : contents) : Prop :=
  objects h !! data x = Some (Points (path c))
  ∧ _closed x = closed c
  ∧ objects h !! _edge_vertices x = Some (Points (edge_vertices c))
  ∧ objects h !! _edge_offsets x = Some (Points (edge_offsets c))
  ∧ objects h !! _edge_triangles x = Some (Triangles (edge_triangles c))
  ∧ objects h !! _face_vertices x = Some (Points (face_vertices c))
  ∧ objects h !! _face_triangles x = Some (Triangles (face_triangles c)).

(** A shape as the layer keeps it: a path of two points at least, an edge
    mesh with an offset for every vertex, and triangles that index the
    vertices they belong to. *)
Definition well_formed (c : contents) : Prop :=
  2 ≤ length (path c)
  ∧ length (edge_offsets c) = length (edge_vertices c)
  ∧ valid_triangles (length (edge_vertices c)) (edge_triangles c)
  ∧ valid_triangles (length (face_vertices c)) (face_triangles c).

Definition has_face (c : contents) : Prop := face_vertices c ≠ [].

(** What a generator returned, where it did. *)
Definition returned (o : outcome (list (vector F))) : list (vector F) :=
  match o with Ret v => v | Raise _ => [] end.

Definition order_of (c : contents) : list (vector F) :=
  returned (order_vectors (path c) (closed c)).
Definition edge_borders_of (c : contents) : list (vector F) :=
  returned (edge_triangle_borders (edge_vertices c) (edge_offsets c) (edge_triangles c)).
Definition face_borders_of (c : contents) : list (vector F) :=
  returned (face_triangle_borders (face_vertices c) (face_triangles c)).

(** The contents of the seven arrays of a [Helpers] tuple. *)
Record helper_data : Type := HelperData {
  points : list (xy F);
  order_vectors_ : list (vector F);
  miter_helper : list (vector F);
  orthogonal_vector_ : list (vector F);
  miter_vectors : list (vector F);
  triangles_vectors : list (vector F);
  face_triangles_vectors : list (vector F)
}.

(** In [h] the arrays of the tuple [hp] hold [d]. *)
Definition helpers_hold h (hp : Helpers.t) (d : helper_data) : Prop :=
  objects h !! Helpers.points hp = Some (Points (points d))
  ∧ objects h !! Helpers.order_vectors hp = Some (Vectors (order_vectors_ d))
  ∧ objects h !! Helpers.miter_helper hp = Some (Vectors (miter_helper d))
  ∧ objects h !! Helpers.orthogonal_vector hp = Some (Vectors (orthogonal_vector_ d))
  ∧ objects h !! Helpers.miter_vectors hp = Some (Vectors (miter_vectors d))
  ∧ objects h !! Helpers.triangles_vectors hp = Some (Vectors (triangles_vectors d))
  ∧ objects h !! Helpers.face_triangles_vectors hp
    = Some (Vectors (face_triangles_vectors d)).

(** The helper data of a layer, shape after shape. *)
Definition helper_data_of (cs : list contents) : helper_data :=
  {| points := zip_with vadd (concat (edge_vertices <$> cs)) (concat (edge_offsets <$> cs));
     order_vectors_ := concat (order_of <$> cs);
     miter_helper := concat ((λ c, miter_helper_vectors (order_of c)) <$> cs);
     orthogonal_vector_ := concat ((λ c, orthogonal_vectors (order_of c)) <$> cs);
     miter_vectors := concat ((λ c, zip (edge_vertices c) (edge_offsets c)) <$> cs);
     triangles_vectors := concat (edge_borders_of <$> cs);
     face_triangles_vectors := concat (face_borders_of <$> filter has_face cs) |}.

End LayerContents.
Arguments contents F : clear implicits.
Arguments helper_data F : clear implicits.

(** ** Further notions *)

Section Notions.
Context {F : Type} {SF : Scalar F}.

(** The tip of a vector. *)
Definition tip (row : vector F) : xy F := vadd (origin row) (direction row).

(** The direction of the segment that leaves point [i] of a closed path of
    [n] points, from [a] to the next point [b], as
    [generate_order_vectors] computes it: the unit vector of a segment, and
    for the last point the closing direction. *)
Definition leaving_direction (n i : nat) (a b : xy F) : xy F :=
  if decide (S i = n) then closing_direction a b else unit_vector a b.

(** A decidable check of [valid_triangles]. *)
Definition valid_trianglesb (n : nat) (ts : list (Z * Z * Z)) : bool :=
  forallb (λ t, forallb (λ i, bool_decide (in_range n i)) [t.1.1; t.1.2; t.2]) ts.

End Notions.

(** [x * s + c] *)
Definition similar (s : R) (c : xy R) (x : xy R) : xy R := vadd (vscale x s) c.

(** *** A layer of two shapes, in binary64 *)

Module Layer64.

(** A triangle, as a closed polygon: its path, its edge mesh of two
    vertices a point and two triangles a segment, and its face. *)
Definition polygon_contents : contents float :=
  {| path := [(0, 0); (4, 0); (0, 3)]%float;
     closed := true;
     edge_vertices := [(0, 0); (0, 0); (4, 0); (4, 0); (0, 3); (0, 3)]%float;
     edge_offsets := [(0.5, 0.5); (-0.5, -0.5); (-1, 0.5); (1, -0.5);
                      (0.5, -1); (-0.5, 1)]%float;
     edge_triangles := [(0, 1, 3); (0, 3, 2); (2, 3, 5); (2, 5, 4);
                        (4, 5, 1); (4, 1, 0)]%Z;
     face_vertices := [(0, 0); (4, 0); (0, 3)]%float;
     face_triangles := [(0, 1, 2)%Z] |}.

(** A line, as an open path: it has no face. *)
Definition line_contents : contents float :=
  {| path := [(0, 0); (1, 1)]%float;
     closed := false;
     edge_vertices := [(0, 0); (0, 0); (1, 1); (1, 1)]%float;
     edge_offsets := [(0.5, -0.5); (-0.5, 0.5); (0.5, -0.5); (-0.5, 0.5)]%float;
     edge_triangles := [(0, 1, 3); (0, 3, 2)]%Z;
     face_vertices := [];
     face_triangles := [] |}.

Definition arrays_of (c : contents float) : list (ndarray float) :=
  [Points (path c); Points (edge_vertices c); Points (edge_offsets c);
   Triangles (edge_triangles c); Points (face_vertices c); Triangles (face_triangles c)].

Definition shape_at (first : ref) (c : contents float) : Shape :=
  {| data := first; _closed := closed c;
     _edge_vertices := first + 1; _edge_offsets := first + 2;
     _edge_triangles := first + 3;
     _face_vertices := first + 4; _face_triangles := first + 5 |}.

Definition memory : heap float :=
  Heap (arrays_of polygon_contents ++ arrays_of line_contents) nan_memory.
Definition polygon : Shape := shape_at 0 polygon_contents.
Definition line : Shape := shape_at 6 line_contents.

End Layer64.

(** The stored meshes, handed out again. *)
Definition stored_mesh : ref → bool → M float (ref * ref * ref) :=
  λ path _, ret (path + 1, path + 2, path + 3).

(** ** Facts the generators share *)

Section MoreResults.
Context {F : Type} {SF : Scalar F}.
Implicit Types (h : heap F) (p : list (xy F)) (v nv : list (vector F)).

Lemma last_direction_nonempty p closed t : last_direction p closed = Ret t → 0 < length p.
Proof.
  unfold last_direction. destruct closed.
  - destruct p; [done|simpl; lia].
  - destruct (segment_directions p !! (length p - 2)) eqn:E; [|done].
    apply lookup_lt_Some in E. rewrite length_segment_directions in E. lia.
Qed.

(** The last record carries the last direction. *)
Lemma last_order_vectors p closed v t :
  order_vectors p closed = Ret v → last_direction p closed = Ret t →
  ∃ a, last p = Some a ∧ last v = Some (a, t).
Proof.
  intros Hov Ht. pose proof (last_direction_nonempty p closed t Ht) as Hpos.
  unfold order_vectors in Hov. rewrite Ht in Hov. injection Hov as <-.
  rewrite !last_lookup.
  destruct (p !! pred (length p)) as [a|] eqn:Ea; [|apply lookup_ge_None in Ea; lia].
  exists a. split; [done|].
  rewrite length_zip_with, length_app, length_segment_directions. simpl.
  replace (pred (length p `min` (length p - 1 + 1))) with (pred (length p)) by lia.
  rewrite lookup_zip_with, Ea. simpl.
  rewrite lookup_app_r by (rewrite length_segment_directions; lia).
  rewrite length_segment_directions.
  by replace (pred (length p) - (length p - 1)) with 0 by lia.
Qed.

Lemma origins_order_vectors p closed v : order_vectors p closed = Ret v → origin <$> v = p.
Proof.
  intros Hov. pose proof (length_order_vectors p closed v Hov) as Hlen.
  unfold order_vectors in Hov. destruct (last_direction p closed) as [t|]; [|done].
  injection Hov as <-. apply fst_zip.
  rewrite length_zip_with in Hlen. lia.
Qed.

(** When [order_vectors] raises. *)
Lemma order_vectors_raise p closed e :
  order_vectors p closed = Raise e →
  e = IndexError ∧ (p = [] ∨ (length p = 1 ∧ closed = false)).
Proof.
  unfold order_vectors, last_direction. destruct closed.
  - destruct p as [|a p]; simpl; [intros [= <-]; auto|].
    destruct (last (a :: p)) eqn:El; [done|]. by apply last_None in El.
  - destruct (segment_directions p !! (length p - 2)) eqn:E; [done|].
    intros [= <-]. split; [done|].
    apply lookup_ge_None in E. rewrite length_segment_directions in E.
    destruct p as [|a [|b p]]; simpl in *; [auto|auto|lia].
Qed.

(** The direction of every record of a closed path, the last one included:
    the direction towards the next point, the first point coming after the
    last. *)
Lemma lookup_order_vectors_closed p v i a b :
  order_vectors p true = Ret v →
  p !! i = Some a → p !! (S i `mod` length p) = Some b →
  v !! i = Some (a, leaving_direction (length p) i a b).
Proof.
  intros Hov Ha Hb. apply lookup_lt_Some in Ha as Hi. unfold leaving_direction.
  destruct (decide (S i = length p)) as [Hl|Hne].
  - rewrite Hl, Nat.Div0.mod_same in Hb.
    unfold order_vectors, last_direction in Hov.
    rewrite head_lookup, Hb, last_lookup in Hov.
    replace (pred (length p)) with i in Hov by lia. rewrite Ha in Hov.
    injection Hov as <-. rewrite lookup_zip_with, Ha. simpl.
    rewrite lookup_app_r by (rewrite length_segment_directions; lia).
    rewrite length_segment_directions. by replace (i - (length p - 1)) with 0 by lia.
  - rewrite Nat.mod_small in Hb by lia. by apply (lookup_order_vectors p true v i a b).
Qed.

(** The two records [generate_miter_helper_vectors] makes of record [i]. *)
Lemma lookup_miter_helper_vectors nv i o d o' d' :
  nv !! i = Some (o, d) →
  nv !! ((i + length nv - 1) `mod` length nv) = Some (o', d') →
  miter_helper_vectors nv !! i = Some (o, vscale d fhalf)
  ∧ miter_helper_vectors nv !! (length nv + i)
    = Some (vadd o (vscale d fhalf), vneg (vscale d' fhalf)).
Proof.
  intros Hi Hp. assert (Hlt : i < length nv) by (by apply lookup_lt_Some in Hi).
  unfold miter_helper_vectors. split.
  - rewrite lookup_app_l by (rewrite length_fmap; lia).
    by rewrite list_lookup_fmap, Hi.
  - rewrite lookup_app_r by (rewrite length_fmap; lia).
    rewrite length_fmap. replace (length nv + i - length nv) with i by lia.
    rewrite lookup_zip_with, list_lookup_fmap, Hi. simpl.
    rewrite lookup_np_roll_1 by (rewrite !length_fmap; lia).
    rewrite !length_fmap, !list_lookup_fmap, Hp. simpl.
    unfold vscale, vneg. simpl. by rewrite !fmul_minus1.
Qed.

(** Two calls in a row: the second runs in the heap the first left, where
    the array the first returned is. *)
Lemma result_pipeline (m : M F ref) (k : ref → M F ref) h v (f : list (vector F) → outcome (list (vector F))) :
  computes m h (Ret v) →
  (∀ h' r, objects h' !! r = Some (Vectors v) → computes (k r) h' (f v)) →
  result (bind m k) h = f v.
Proof.
  intros (r & extra & Hrun & Hr) Hk.
  rewrite (result_bind _ _ _ _ _ Hrun). apply computes_result, Hk, Hr.
Qed.

(** Corners read through equal functions give equal borders. *)
Lemma triangle_borders_ext (f g : Z → outcome (xy F)) ts :
  (∀ i, f i = g i) → triangle_borders f ts = triangle_borders g ts.
Proof.
  intros Hfg. induction ts as [|[[a b] c] ts IH]; [done|].
  simpl. by rewrite !Hfg, IH.
Qed.

(** Reading the sum of two buffers of one length is reading both and
    adding. *)
Lemma edge_corner_zip_with (cs os : list (xy F)) i :
  length cs = length os → edge_corner cs os i = lookup_row (zip_with vadd cs os) i.
Proof.
  intros Hlen. unfold edge_corner, lookup_row.
  rewrite length_zip_with, <- Hlen, Nat.min_id.
  destruct (index (length cs) i) as [k|e] eqn:Ei; [|done].
  rewrite lookup_zip_with.
  destruct (cs !! k) as [c|] eqn:Ec; simpl.
  - destruct (os !! k) as [o|] eqn:Eo; [done|].
    apply lookup_ge_None in Eo. apply lookup_lt_Some in Ec. lia.
  - done.
Qed.

End MoreResults.

(** In exact arithmetic the quarter turn of half the unit vector of a
    segment is perpendicular to the segment, and half a unit long. *)
Lemma rot90_half_unit_vector (a b : xy R) :
  a ≠ b →
  dot (rot90 (vscale (unit_vector a b) fhalf)) (vsub b a) = 0%R
  ∧ norm (rot90 (vscale (unit_vector a b) fhalf)) = (1 / 2)%R.
Proof.
  intros Hne. split.
  - destruct a as [a1 a2], b as [b1 b2].
    unfold unit_vector, norm, dot, rot90, vscale, vdiv, vsub. simpl.
    set (dx := (b1 - a1)%R). set (dy := (b2 - a2)%R).
    assert (Hs : (0 < dx * dx + dy * dy)%R).
    { destruct (Req_dec dx 0) as [Hx|Hx], (Req_dec dy 0) as [Hy|Hy]; try nra.
      exfalso. apply Hne. unfold dx, dy in *. f_equal; lra. }
    assert (Hn : (0 < R_sqrt.sqrt (dx * dx + dy * dy))%R) by (by apply sqrt_lt_R0).
    field. lra.
  - rewrite norm_rot90_half, (norm_unit_vector a b Hne). reflexivity.
Qed.

(** ** Calls that only allocate *)

Section Yields.
Context {F : Type} {SF : Scalar F}.
Implicit Types (h : heap F).

Lemma extends_refl h : extends h h.
Proof. by split. Qed.

Lemma extends_trans h1 h2 h3 : extends h1 h2 → extends h2 h3 → extends h1 h3.
Proof. intros [H1 E1] [H2 E2]. split; [by etrans|congruence]. Qed.

Lemma extends_lookup h h' r (a : ndarray F) :
  extends h h' → objects h !! r = Some a → objects h' !! r = Some a.
Proof. intros [[extra ->] _] Hr. by apply lookup_app_l_Some. Qed.

Lemma extends_alloc h (a : ndarray F) :
  extends h (Heap (objects h ++ [a]) (fresh_memory h)).
Proof. split; [by apply prefix_app_r|done]. Qed.

Lemma yields_ret {A} (a : A) h (Q : heap F → A → Prop) : Q h a → yields (ret a) h Q.
Proof. intros HQ. exists h, a. split; [done|]. split; [apply extends_refl|done]. Qed.

Lemma yields_bind {A B} (m : M F A) (k : A → M F B) h
    (Q : heap F → A → Prop) (Q' : heap F → B → Prop) :
  yields m h Q →
  (∀ h' a, extends h h' → Q h' a → yields (k a) h' Q') →
  yields (bind m k) h Q'.
Proof.
  intros (h' & a & Hm & Hext & HQ) Hk.
  destruct (Hk h' a Hext HQ) as (h'' & b & Hka & Hext' & HQ').
  exists h'', b. split; [|split; [by eapply extends_trans|done]].
  unfold bind. by rewrite Hm.
Qed.

Lemma yields_weaken {A} (m : M F A) h (Q Q' : heap F → A → Prop) :
  yields m h Q → (∀ h' a, extends h h' → Q h' a → Q' h' a) → yields m h Q'.
Proof.
  intros (h' & a & Hm & Hext & HQ) HQQ'. exists h', a. eauto.
Qed.

Lemma yields_alloc (a : ndarray F) h :
  yields (alloc a) h (λ h' r, objects h' !! r = Some a).
Proof.
  eexists _, _. split; [reflexivity|]. split; [apply extends_alloc|].
  simpl. by rewrite lookup_app_r, Nat.sub_diag by lia.
Qed.

Lemma yields_load_points h r p :
  objects h !! r = Some (Points p) → yields (load_points r) h (λ h' q, h' = h ∧ q = p).
Proof.
  intros Hr. exists h, p. split; [|split; [apply extends_refl|done]].
  unfold load_points, bind, load. by rewrite Hr.
Qed.

Lemma yields_load_vectors h r v :
  objects h !! r = Some (Vectors v) → yields (load_vectors r) h (λ h' q, h' = h ∧ q = v).
Proof.
  intros Hr. exists h, v. split; [|split; [apply extends_refl|done]].
  unfold load_vectors, bind, load. by rewrite Hr.
Qed.

Lemma yields_load_triangles h r t :
  objects h !! r = Some (Triangles t) →
  yields (load_triangles r) h (λ h' q, h' = h ∧ q = t).
Proof.
  intros Hr. exists h, t. split; [|split; [apply extends_refl|done]].
  unfold load_triangles, bind, load. by rewrite Hr.
Qed.

(** A generator that returns, as a call that only allocates. *)
Lemma yields_computes (m : M F ref) h v :
  computes m h (Ret v) → yields m h (λ h' r, objects h' !! r = Some (Vectors v)).
Proof.
  intros (r & extra & Hrun & Hr). eexists _, r. split; [exact Hrun|].
  split; [|exact Hr]. split; [by apply prefix_app_r|done].
Qed.

(** A comprehension whose calls all return: what holds of each result
    holds of it in the last heap, if more objects do no harm. *)
Lemma yields_list_comprehension {A B V} (f : A → M F B) (l : list A) (vs : list V) h
    (P : V → heap F → B → Prop) :
  (∀ v h1 h2 b, extends h1 h2 → P v h1 b → P v h2 b) →
  Forall2 (λ x v, ∀ h', extends h h' → yields (f x) h' (P v)) l vs →
  yields (list_comprehension f l) h (λ h' bs, Forall2 (λ b v, P v h' b) bs vs).
Proof.
  intros Hmono. revert vs h. induction l as [|x l IH]; intros vs h Hall.
  { apply Forall2_nil_inv_l in Hall as ->. apply yields_ret. constructor. }
  apply Forall2_cons_inv_l in Hall as (v & vs' & Hx & Hl & ->).
  simpl. apply (yields_bind _ _ _ (P v)); [apply Hx, extends_refl|].
  intros h1 b Hext1 Hb.
  apply (yields_bind _ _ _ (λ h' bs, Forall2 (λ b v, P v h' b) bs vs')).
  { apply IH. apply (Forall2_impl _ _ _ _ Hl). intros y w Hy h' Hext.
    apply Hy. by eapply extends_trans. }
  intros h2 bs Hext2 Hbs. apply yields_ret. constructor; [|done].
  by apply (Hmono v h1 h2).
Qed.

Lemma yields_load_all_points h (rs : list ref) (ps : list (list (xy F))) :
  Forall2 (λ r p, objects h !! r = Some (Points p)) rs ps →
  yields (list_comprehension load_points rs) h (λ h' qs, h' = h ∧ qs = ps).
Proof.
  induction 1 as [|r p rs ps Hr _ IH]; [by apply yields_ret|].
  simpl. apply (yields_bind _ _ _ _ _ (yields_load_points h r p Hr)).
  intros h' q _ [-> ->].
  apply (yields_bind _ _ _ _ _ IH). intros h' qs _ [-> ->]. by apply yields_ret.
Qed.

Lemma yields_load_all_vectors h (rs : list ref) (vs : list (list (vector F))) :
  Forall2 (λ r v, objects h !! r = Some (Vectors v)) rs vs →
  yields (list_comprehension load_vectors rs) h (λ h' qs, h' = h ∧ qs = vs).
Proof.
  induction 1 as [|r v rs vs Hr _ IH]; [by apply yields_ret|].
  simpl. apply (yields_bind _ _ _ _ _ (yields_load_vectors h r v Hr)).
  intros h' q _ [-> ->].
  apply (yields_bind _ _ _ _ _ IH). intros h' qs _ [-> ->]. by apply yields_ret.
Qed.

Lemma yields_load_all_triangles h (rs : list ref) (ts : list (list (Z * Z * Z))) :
  Forall2 (λ r t, objects h !! r = Some (Triangles t)) rs ts →
  yields (list_comprehension load_triangles rs) h (λ h' qs, h' = h ∧ qs = ts).
Proof.
  induction 1 as [|r t rs ts Hr _ IH]; [by apply yields_ret|].
  simpl. apply (yields_bind _ _ _ _ _ (yields_load_triangles h r t Hr)).
  intros h' q _ [-> ->].
  apply (yields_bind _ _ _ _ _ IH). intros h' qs _ [-> ->]. by apply yields_ret.
Qed.

Lemma yields_concatenate_points h (rs : list ref) (ps : list (list (xy F))) :
  rs ≠ [] → Forall2 (λ r p, objects h !! r = Some (Points p)) rs ps →
  yields (concatenate_points rs) h (λ h' r, objects h' !! r = Some (Points (concat ps))).
Proof.
  intros Hne Hall. unfold concatenate_points. destruct rs as [|r0 rs]; [done|].
  apply (yields_bind _ _ _ _ _ (yields_load_all_points h _ ps Hall)).
  intros h' qs _ [-> ->]. apply yields_alloc.
Qed.

Lemma yields_concatenate_vectors h (rs : list ref) (vs : list (list (vector F))) :
  rs ≠ [] → Forall2 (λ r v, objects h !! r = Some (Vectors v)) rs vs →
  yields (concatenate_vectors rs) h (λ h' r, objects h' !! r = Some (Vectors (concat vs))).
Proof.
  intros Hne Hall. unfold concatenate_vectors. destruct rs as [|r0 rs]; [done|].
  apply (yields_bind _ _ _ _ _ (yields_load_all_vectors h _ vs Hall)).
  intros h' qs _ [-> ->]. apply yields_alloc.
Qed.

Lemma yields_concatenate_triangles h (rs : list ref) (ts : list (list (Z * Z * Z))) :
  rs ≠ [] → Forall2 (λ r t, objects h !! r = Some (Triangles t)) rs ts →
  yields (concatenate_triangles rs) h
    (λ h' r, objects h' !! r = Some (Triangles (concat ts))).
Proof.
  intros Hne Hall. unfold concatenate_triangles. destruct rs as [|r0 rs]; [done|].
  apply (yields_bind _ _ _ _ _ (yields_load_all_triangles h _ ts Hall)).
  intros h' qs _ [-> ->]. apply yields_alloc.
Qed.

Lemma yields_np_add h a b (x y : list (xy F)) :
  objects h !! a = Some (Points x) → objects h !! b = Some (Points y) →
  length y = length x →
  yields (np_add a b) h (λ h' r, objects h' !! r = Some (Points (zip_with vadd x y))).
Proof.
  intros Ha Hb Hlen. unfold np_add.
  apply (yields_bind _ _ _ _ _ (yields_load_points h a x Ha)). intros h' q _ [-> ->].
  apply (yields_bind _ _ _ _ _ (yields_load_points h b y Hb)). intros h' q _ [-> ->].
  rewrite broadcast_same by done. apply yields_alloc.
Qed.

End Yields.

Section LayerFacts.
Context {F : Type} {SF : Scalar F}.
Implicit Types (h : heap F) (c : contents F) (cs : list (contents F)).

Lemma holds_extends h h' x c : extends h h' → holds h x c → holds h' x c.
Proof.
  intros Hext (H1 & H2 & H3 & H4 & H5 & H6 & H7).
  repeat split; try done; by apply (extends_lookup h h').
Qed.

Lemma layer_extends h h' shapes cs :
  extends h h' → Forall2 (holds h) shapes cs → Forall2 (holds h') shapes cs.
Proof.
  intros Hext Hall. apply (Forall2_impl _ _ _ _ Hall). intros x c. by apply holds_extends.
Qed.

(** The arrays of a layer, attribute by attribute. *)
Lemma layer_points h shapes cs (attr : Shape → ref) (field : contents F → list (xy F)) :
  (∀ x c, holds h x c → objects h !! attr x = Some (Points (field c))) →
  Forall2 (holds h) shapes cs →
  Forall2 (λ r p, objects h !! r = Some (Points p)) (attr <$> shapes) (field <$> cs).
Proof.
  intros Hattr Hall. apply Forall2_fmap. apply (Forall2_impl _ _ _ _ Hall). exact Hattr.
Qed.

Lemma layer_triangles h shapes cs (attr : Shape → ref)
    (field : contents F → list (Z * Z * Z)) :
  (∀ x c, holds h x c → objects h !! attr x = Some (Triangles (field c))) →
  Forall2 (holds h) shapes cs →
  Forall2 (λ r t, objects h !! r = Some (Triangles t)) (attr <$> shapes) (field <$> cs).
Proof.
  intros Hattr Hall. apply Forall2_fmap. apply (Forall2_impl _ _ _ _ Hall). exact Hattr.
Qed.

(** The shapes with a face are found by the length of their face
    vertices. *)
Lemma yields_filter_nonempty h shapes cs :
  Forall2 (holds h) shapes cs →
  yields (filter_nonempty _face_vertices shapes) h
    (λ h' ys, h' = h ∧ Forall2 (holds h) ys (filter has_face cs)).
Proof.
  induction 1 as [|x c shapes cs Hx _ IH]; [by apply yields_ret|].
  simpl. destruct Hx as (H1 & H2 & H3 & H4 & H5 & H6 & H7).
  apply (yields_bind _ _ _ _ _ (yields_load_points h _ _ H6)). intros h' q _ [-> ->].
  apply (yields_bind _ _ _ _ _ IH). intros h' ys _ [-> Hys].
  apply yields_ret. split; [done|].
  rewrite filter_cons. destruct (decide (has_face c)) as [Hf|Hf]; unfold has_face in Hf.
  - rewrite bool_decide_false by (by destruct (face_vertices c)).
    constructor; [|done]. by repeat split.
  - rewrite bool_decide_true; [done|]. destruct (face_vertices c); [done|].
    by destruct Hf.
Qed.

Lemma length_concat_fmap {A B C} (f : A → list B) (g : A → list C) (l : list A) :
  Forall (λ x, length (f x) = length (g x)) l →
  length (concat (f <$> l)) = length (concat (g <$> l)).
Proof.
  induction 1 as [|x l Hx _ IH]; [done|].
  rewrite !fmap_cons. simpl. rewrite !length_app. lia.
Qed.

(** What the generators return on a well-formed shape. *)
Lemma order_of_Ret c :
  well_formed c → order_vectors (path c) (closed c) = Ret (order_of c).
Proof.
  intros (Hlen & _). unfold order_of.
  destruct (order_vectors_records (path c) (closed c) Hlen) as (t & _ & ->). done.
Qed.

Lemma mitter_of_Ret c :
  well_formed c →
  mitter_vectors (edge_vertices c) (edge_offsets c)
  = Ret (zip (edge_vertices c) (edge_offsets c)).
Proof. intros (_ & Hlen & _). unfold mitter_vectors. by rewrite broadcast_same. Qed.

Lemma edge_borders_of_Ret c :
  well_formed c →
  edge_triangle_borders (edge_vertices c) (edge_offsets c) (edge_triangles c)
  = Ret (edge_borders_of c).
Proof.
  intros (_ & Hlen & Hvalid & _). unfold edge_borders_of.
  assert (Hos : valid_triangles (length (edge_offsets c)) (edge_triangles c))
    by (by rewrite Hlen).
  destruct (valid_triangles_readable _ _ (edge_vertices c) _ Hvalid Hos Hvalid)
    as [Hedge _].
  destruct (triangle_borders_rows _ _ Hedge) as (rows & Hrows & _).
  unfold edge_triangle_borders. by rewrite Hrows.
Qed.

Lemma face_borders_of_Ret c :
  well_formed c →
  face_triangle_borders (face_vertices c) (face_triangles c) = Ret (face_borders_of c).
Proof.
  intros (_ & _ & _ & Hvalid). unfold face_borders_of.
  destruct (valid_triangles_readable _ _ (face_vertices c) _ Hvalid Hvalid Hvalid)
    as [_ Hface].
  destruct (triangle_borders_rows _ _ Hface) as (rows & Hrows & _).
  unfold face_triangle_borders. by rewrite Hrows.
Qed.

End LayerFacts.

Section LayerRun.
Context {F : Type} {SF : Scalar F}.
Implicit Types (h : heap F) (c : contents F) (cs : list (contents F)).

Lemma vectors_at_extends (v : list (vector F)) h1 h2 r :
  extends h1 h2 → vectors_at h1 r v → vectors_at h2 r v.
Proof. intros Hext. by apply extends_lookup. Qed.

(** One generator over the shapes of a layer. *)
Lemma yields_generators {A} (f : A → M F ref) (args : Shape → A)
    (value : contents F → list (vector F)) h shapes cs :
  Forall2 (holds h) shapes cs → Forall well_formed cs →
  (∀ h' x c, holds h' x c → well_formed c → computes (f (args x)) h' (Ret (value c))) →
  yields (list_comprehension f (args <$> shapes)) h
    (λ h' rs, Forall2 (vectors_at h') rs (value <$> cs)).
Proof.
  intros Hall Hwf Hf.
  apply (yields_weaken _ _
           (λ h' rs, Forall2 (λ r v, vectors_at h' r v) rs (value <$> cs))); [|done].
  apply (yields_list_comprehension f (args <$> shapes) (value <$> cs) h
           (λ v h' r, vectors_at h' r v)).
  { intros v h1 h2 r. apply vectors_at_extends. }
  apply Forall2_fmap. revert Hwf. induction Hall as [|x c shapes cs Hx _ IH]; intros Hwf.
  { constructor. }
  apply Forall_cons in Hwf as [Hc Hwf]. constructor; [|by apply IH].
  intros h' Hext. apply yields_computes, Hf; [|done]. by apply (holds_extends h).
Qed.

(** One generator over arrays made before. *)
Lemma yields_over_arrays (f : ref → M F ref)
    (value : list (vector F) → list (vector F)) h (rs : list ref) vs :
  Forall2 (vectors_at h) rs vs →
  (∀ h' r v, vectors_at h' r v → computes (f r) h' (Ret (value v))) →
  yields (list_comprehension f rs) h
    (λ h' rs', Forall2 (vectors_at h') rs' (value <$> vs)).
Proof.
  intros Hall Hf.
  apply (yields_weaken _ _
           (λ h' rs', Forall2 (λ r v, vectors_at h' r v) rs' (value <$> vs))); [|done].
  apply (yields_list_comprehension f rs (value <$> vs) h (λ v h' r, vectors_at h' r v)).
  { intros v h1 h2 r. apply vectors_at_extends. }
  apply Forall2_fmap_r. apply (Forall2_impl _ _ _ _ Hall).
  intros r v Hr h' Hext. apply yields_computes, Hf. by apply (vectors_at_extends v h).
Qed.

Lemma arrays_extend h h' (rs : list ref) (vs : list (list (vector F))) :
  extends h h' → Forall2 (vectors_at h) rs vs → Forall2 (vectors_at h') rs vs.
Proof.
  intros Hext Hall. apply (Forall2_impl _ _ _ _ Hall). intros r v.
  by apply vectors_at_extends.
Qed.

Lemma arrays_nonempty h (rs : list ref) {A} (l : list A) (g : A → list (vector F)) :
  l ≠ [] → Forall2 (vectors_at h) rs (g <$> l) → rs ≠ [].
Proof.
  intros Hne Hall ->. apply Forall2_nil_inv_l in Hall. by destruct l.
Qed.

Lemma match_nonempty {A B} (l : list A) (a b : B) :
  l ≠ [] → match l with [] => a | _ :: _ => b end = b.
Proof. by destruct l. Qed.

(** The whole function on a layer of well-formed shapes, one of which at
    least has a face. *)
Lemma get_helper_data_from_shapes_yields h shapes cs :
  Forall2 (holds h) shapes cs → Forall well_formed cs → filter has_face cs ≠ [] →
  yields (get_helper_data_from_shapes shapes) h
    (λ h' hp, helpers_hold h' hp (helper_data_of cs)).
Proof.
  intros Hall Hwf Hfaces.
  assert (Hcs : cs ≠ []) by (intros ->; done).
  assert (Hshapes : shapes ≠ []).
  { intros ->. apply Forall2_nil_inv_l in Hall. done. }
  unfold get_helper_data_from_shapes.
  set (mesh_list := (λ x, (_edge_vertices x, _edge_offsets x, _edge_triangles x)) <$> shapes).
  (* mesh *)
  apply (yields_bind _ _ _
    (λ h' mesh, ∃ m0 m1 m2, mesh = [m0; m1; m2]
       ∧ objects h' !! m0 = Some (Points (concat (edge_vertices <$> cs)))
       ∧ objects h' !! m1 = Some (Points (concat (edge_offsets <$> cs))))).
  { assert (Hm : mesh_list ≠ []) by (unfold mesh_list; by destruct shapes).
    rewrite (match_nonempty mesh_list) by done.
    assert (Eml : ∀ {A} (g : _ → A), g <$> mesh_list ≠ []).
    { intros A g. by destruct mesh_list. }
    cbn [list_comprehension].
    apply (yields_bind _ _ _
             (λ h' r, objects h' !! r = Some (Points (concat (edge_vertices <$> cs))))).
    { apply yields_concatenate_points; [by apply Eml|].
      unfold mesh_list. rewrite <- list_fmap_compose.
      apply (layer_points h shapes cs _edge_vertices edge_vertices); [|done].
      by intros x c (_ & _ & ? & _). }
    intros h1 m0 Hext1 Hm0.
    apply (yields_bind _ _ _
             (λ h' ms, ∃ m1 m2, ms = [m1; m2]
                ∧ objects h' !! m1 = Some (Points (concat (edge_offsets <$> cs))))).
    { apply (yields_bind _ _ _
               (λ h' r, objects h' !! r = Some (Points (concat (edge_offsets <$> cs))))).
      { apply yields_concatenate_points; [by apply Eml|].
        unfold mesh_list. rewrite <- list_fmap_compose.
        apply (layer_points h1 shapes cs _edge_offsets edge_offsets).
        - by intros x c (_ & _ & _ & ? & _).
        - by apply (layer_extends h). }
      intros h2 m1 Hext2 Hm1.
      apply (yields_bind _ _ _ (λ h' ms, ∃ m2, ms = [m2] ∧ extends h2 h')).
      { apply (yields_bind _ _ _
                 (λ h' r, objects h' !! r
                          = Some (Triangles (concat (edge_triangles <$> cs))))).
        { apply yields_concatenate_triangles; [by apply Eml|].
          unfold mesh_list. rewrite <- list_fmap_compose.
          apply (layer_triangles h2 shapes cs _edge_triangles edge_triangles).
          - by intros x c (_ & _ & _ & _ & ? & _).
          - apply (layer_extends h); [|done]. by eapply extends_trans. }
        intros h3 m2 Hext3 Hm2.
        apply (yields_bind _ _ _ (λ h' (ms : list ref), ms = [] ∧ h' = h3));
          [by apply yields_ret|].
        intros h4 ms _ [-> ->]. apply yields_ret. by exists m2. }
      intros h3 ms Hext3 (m2 & -> & _). apply yields_ret.
      exists m1, m2. split; [done|]. by apply (extends_lookup h2). }
    intros h2 ms Hext2 (m1 & m2 & -> & Hm1). apply yields_ret.
    exists m0, m1, m2. split; [done|]. split; [|done]. by apply (extends_lookup h1). }
  intros h1 mesh Hext1 (m0 & m1 & m2 & -> & Hm0 & Hm1).
  pose proof (layer_extends h h1 shapes cs Hext1 Hall) as Hall1.
  (* face_mesh_list *)
  apply (yields_bind _ _ _ _ _ (yields_filter_nonempty h1 shapes cs Hall1)).
  intros h' with_faces _ [-> Hfaces1].
  (* points *)
  apply (yields_bind _ _ _ (λ h' r, h' = h1 ∧ r = m0)).
  { exists h1, m0. split; [reflexivity|]. split; [apply extends_refl|done]. }
  intros h' r _ [-> ->].
  apply (yields_bind _ _ _ (λ h' r, h' = h1 ∧ r = m1)).
  { exists h1, m1. split; [reflexivity|]. split; [apply extends_refl|done]. }
  intros h' r _ [-> ->].
  apply (yields_bind _ _ _
           (λ h' r, objects h' !! r = Some (Points (points (helper_data_of cs))))).
  { apply yields_np_add; [done|done|].
    apply length_concat_fmap. apply (Forall_impl _ _ _ Hwf). by intros c (_ & ? & _). }
  intros h2 points Hext2 Hpoints.
  pose proof (layer_extends h1 h2 shapes cs Hext2 Hall1) as Hall2.
  (* order_vectors *)
  apply (yields_bind _ _ _ (λ h' rs, Forall2 (vectors_at h') rs (order_of <$> cs))).
  { apply (yields_generators (λ '(path_, closed), generate_order_vectors path_ closed)
             (λ x, (data x, _closed x)) order_of h2 shapes cs Hall2 Hwf).
    intros h' x c (Hd & Hc & _) Hc'. rewrite Hc, <- (order_of_Ret c Hc').
    by apply generate_order_vectors_computes. }
  intros h3 order_vectors_li Hext3 Hli.
  apply (yields_bind _ _ _ (λ h' r, vectors_at h' r (order_vectors_ (helper_data_of cs)))).
  { apply yields_concatenate_vectors; [by apply (arrays_nonempty h3 _ cs order_of)|done]. }
  intros h4 order_vectors Hext4 Horder.
  pose proof (arrays_extend h3 h4 _ _ Hext4 Hli) as Hli4.
  (* miter_helper *)
  apply (yields_bind _ _ _
           (λ h' rs, Forall2 (vectors_at h') rs (miter_helper_vectors <$> (order_of <$> cs)))).
  { apply (yields_over_arrays generate_miter_helper_vectors miter_helper_vectors
             h4 _ _ Hli4).
    intros h' r v Hr. by apply generate_miter_helper_vectors_computes. }
  intros h5 miter_helper_li Hext5 Hmh.
  apply (yields_bind _ _ _ (λ h' r, vectors_at h' r (miter_helper (helper_data_of cs)))).
  { rewrite <- list_fmap_compose in Hmh.
    apply (yields_concatenate_vectors h5 _
             ((λ c, miter_helper_vectors (order_of c)) <$> cs)); [|exact Hmh].
    by apply (arrays_nonempty h5 _ cs _ Hcs Hmh). }
  intros h6 miter_helper Hext6 Hmiter.
  (* orthogonal_vector *)
  assert (Hext46 : extends h4 h6) by (by eapply extends_trans).
  pose proof (arrays_extend h4 h6 _ _ Hext46 Hli4) as Hli6.
  apply (yields_bind _ _ _
           (λ h' rs, Forall2 (vectors_at h') rs (orthogonal_vectors <$> (order_of <$> cs)))).
  { apply (yields_over_arrays generate_orthogonal_vectors orthogonal_vectors h6 _ _ Hli6).
    intros h' r v Hr. by apply generate_orthogonal_vectors_computes. }
  intros h7 orthogonal_vector_li Hext7 Hov.
  apply (yields_bind _ _ _
           (λ h' r, vectors_at h' r (orthogonal_vector_ (helper_data_of cs)))).
  { rewrite <- list_fmap_compose in Hov.
    apply (yields_concatenate_vectors h7 _
             ((λ c, orthogonal_vectors (order_of c)) <$> cs)); [|exact Hov].
    by apply (arrays_nonempty h7 _ cs _ Hcs Hov). }
  intros h8 orthogonal_vector Hext8 Horth.
  (* miter_vectors *)
  assert (Hext28 : extends h2 h8) by (repeat (eapply extends_trans; [eassumption|]); apply extends_refl).
  pose proof (layer_extends h2 h8 shapes cs Hext28 Hall2) as Hall8.
  apply (yields_bind _ _ _
           (λ h' rs, Forall2 (vectors_at h') rs
                       ((λ c, zip (edge_vertices c) (edge_offsets c)) <$> cs))).
  { apply (yields_generators generate_mitter_vectors
             (λ x, (_edge_vertices x, _edge_offsets x, _edge_triangles x))
             (λ c, zip (edge_vertices c) (edge_offsets c)) h8 shapes cs Hall8 Hwf).
    intros h' x c (_ & _ & Hv & Ho & _) Hc'. rewrite <- (mitter_of_Ret c Hc').
    by apply generate_mitter_vectors_computes. }
  intros h9 miter_vectors_li Hext9 Hmv.
  apply (yields_bind _ _ _ (λ h' r, vectors_at h' r (miter_vectors (helper_data_of cs)))).
  { apply yields_concatenate_vectors; [by apply (arrays_nonempty h9 _ cs _ Hcs Hmv)|done]. }
  intros h10 miter_vectors Hext10 Hmitter.
  (* triangles_vectors *)
  assert (Hext810 : extends h8 h10) by (by eapply extends_trans).
  pose proof (layer_extends h8 h10 shapes cs Hext810 Hall8) as Hall10.
  apply (yields_bind _ _ _ (λ h' rs, Forall2 (vectors_at h') rs (edge_borders_of <$> cs))).
  { apply (yields_generators (λ '(c, o, t), generate_edge_triangle_borders c o t)
             (λ x, (_edge_vertices x, _edge_offsets x, _edge_triangles x))
             edge_borders_of h10 shapes cs Hall10 Hwf).
    intros h' x c (_ & _ & Hv & Ho & Ht & _) Hc'. rewrite <- (edge_borders_of_Ret c Hc').
    destruct Hc' as (_ & Hlen & Hvalid & _).
    apply generate_edge_triangle_borders_computes; try done. by rewrite Hlen. }
  intros h11 triangles_vectors_li Hext11 Htv.
  apply (yields_bind _ _ _
           (λ h' r, vectors_at h' r (triangles_vectors (helper_data_of cs)))).
  { apply yields_concatenate_vectors; [by apply (arrays_nonempty h11 _ cs _ Hcs Htv)|done]. }
  intros h12 triangles_vectors Hext12 Htriangles.
  (* face_triangles_vectors *)
  assert (Hext112 : extends h1 h12)
    by (repeat (eapply extends_trans; [eassumption|]); apply extends_refl).
  pose proof (layer_extends h1 h12 _ _ Hext112 Hfaces1) as Hfaces12.
  assert (Hwff : Forall well_formed (filter has_face cs)).
  { apply Forall_forall. intros c [_ Hc]%list_elem_of_filter.
    by apply (proj1 (Forall_forall _ _) Hwf). }
  apply (yields_bind _ _ _
           (λ h' rs, Forall2 (vectors_at h') rs (face_borders_of <$> filter has_face cs))).
  { apply (yields_generators (λ '(v, t), generate_face_triangle_borders v t)
             (λ x, (_face_vertices x, _face_triangles x))
             face_borders_of h12 with_faces _ Hfaces12 Hwff).
    intros h' x c (_ & _ & _ & _ & _ & Hv & Ht) Hc'. rewrite <- (face_borders_of_Ret c Hc').
    destruct Hc' as (_ & _ & _ & Hvalid).
    by apply generate_face_triangle_borders_computes. }
  intros h13 face_li Hext13 Hfv.
  apply (yields_bind _ _ _
           (λ h' r, vectors_at h' r (face_triangles_vectors (helper_data_of cs)))).
  { apply yields_concatenate_vectors;
      [by apply (arrays_nonempty h13 _ (filter has_face cs) _ Hfaces Hfv)|done]. }
  intros h14 face_triangles_vectors Hext14 Hface.
  apply yields_ret. unfold helpers_hold. simpl.
  assert (H12_14 : extends h12 h14) by (by eapply extends_trans).
  assert (H10_14 : extends h10 h14)
    by (repeat (eapply extends_trans; [eassumption|]); apply extends_refl).
  assert (H8_14 : extends h8 h14) by (by eapply extends_trans).
  assert (H6_14 : extends h6 h14)
    by (repeat (eapply extends_trans; [eassumption|]); apply extends_refl).
  assert (H4_14 : extends h4 h14) by (by eapply extends_trans).
  assert (H2_14 : extends h2 h14)
    by (repeat (eapply extends_trans; [eassumption|]); apply extends_refl).
  split; [by apply (extends_lookup h2)|].
  split; [by apply (extends_lookup h4)|].
  split; [by apply (extends_lookup h6)|].
  split; [by apply (extends_lookup h8)|].
  split; [by apply (extends_lookup h10)|].
  split; [by apply (extends_lookup h12)|done].
Qed.

End LayerRun.

(** ** Calls that cannot return *)

Section Fails.
Context {F : Type} {SF : Scalar F}.
Implicit Types (h : heap F).

Lemma grows_Ret {A} (m : M F A) h h' (a : A) :
  grows m → m h = (h', Ret a) → extends h h'.
Proof. intros Hm. apply Hm. Qed.

Lemma grows_ret {A} (a : A) : grows (ret (F:=F) a).
Proof. intros h h' o [= <- _]. apply extends_refl. Qed.

Lemma grows_raise {A} (e : exn) : grows (raise (F:=F) (A:=A) e).
Proof. intros h h' o [= <- _]. apply extends_refl. Qed.

Lemma grows_bind {A B} (m : M F A) (k : A → M F B) :
  grows m → (∀ a, grows (k a)) → grows (bind m k).
Proof.
  intros Hm Hk h h' o. unfold bind. destruct (m h) as [h1 [a|e]] eqn:Em.
  - intros Hka. eapply extends_trans; [by eapply Hm|by eapply Hk].
  - intros [= <- _]. by eapply Hm.
Qed.

Lemma grows_alloc (a : ndarray F) : grows (alloc a).
Proof. intros h h' o [= <- _]. apply extends_alloc. Qed.

Lemma grows_load_points r : grows (F:=F) (load_points r).
Proof.
  apply grows_bind.
  - intros h h' o. unfold load. destruct (objects h !! r); intros [= <- _]; apply extends_refl.
  - intros [p|v|t]; [apply grows_ret|apply grows_raise|apply grows_raise].
Qed.

Lemma grows_load_triangles r : grows (F:=F) (load_triangles r).
Proof.
  apply grows_bind.
  - intros h h' o. unfold load. destruct (objects h !! r); intros [= <- _]; apply extends_refl.
  - intros [p|v|t]; [apply grows_raise|apply grows_raise|apply grows_ret].
Qed.

Lemma grows_list_comprehension {A B} (f : A → M F B) (l : list A) :
  Forall (λ x, grows (f x)) l → grows (list_comprehension f l).
Proof.
  induction 1 as [|x l Hx _ IH]; [apply grows_ret|].
  simpl. apply grows_bind; [apply Hx|]. intros y.
  apply grows_bind; [apply IH|]. intros ys. apply grows_ret.
Qed.

Lemma grows_concatenate_points (arrays : list ref) : grows (F:=F) (concatenate_points arrays).
Proof.
  destruct arrays as [|r rs]; [apply grows_raise|].
  apply grows_bind.
  { apply grows_list_comprehension, Forall_forall. intros ? _. apply grows_load_points. }
  intros ps. apply grows_alloc.
Qed.

Lemma grows_concatenate_triangles (arrays : list ref) :
  grows (F:=F) (concatenate_triangles arrays).
Proof.
  destruct arrays as [|r rs]; [apply grows_raise|].
  apply grows_bind.
  { apply grows_list_comprehension, Forall_forall. intros ? _. apply grows_load_triangles. }
  intros ps. apply grows_alloc.
Qed.

Lemma fails_bind {A B} (m : M F A) (k : A → M F B) h :
  (∀ h' a, m h = (h', Ret a) → fails (k a) h') → fails (bind m k) h.
Proof.
  intros Hk. unfold fails, bind. destruct (m h) as [h' [a|e]] eqn:Em.
  - by apply Hk.
  - by exists e.
Qed.

(** Where no shape has a face vertex, no shape is kept. *)
Lemma filter_nonempty_no_face h (shapes : list Shape) :
  Forall (λ x, objects h !! _face_vertices x = Some (Points [])) shapes →
  filter_nonempty _face_vertices shapes h = (h, Ret []).
Proof.
  induction 1 as [|x shapes Hx _ IH]; [done|].
  simpl. unfold bind at 1. unfold load_points, bind, load. rewrite Hx. simpl.
  unfold bind in IH |- *. by rewrite IH.
Qed.

End Fails.

(** ** Counting and locating the records of a layer *)

Section LayerSizes.
Context {F : Type} {SF : Scalar F}.
Implicit Types (h : heap F) (c : contents F) (cs : list (contents F)).

Lemma tips_zip (vs os : list (xy F)) : tip <$> zip vs os = zip_with vadd vs os.
Proof.
  revert os. induction vs as [|v vs IH]; intros [|o os]; try done.
  simpl. by rewrite <- IH.
Qed.

Lemma concat_zip_with {A B C} (f : A → B → C) (ls : list (list A)) (ks : list (list B)) :
  Forall2 (λ l k, length l = length k) ls ks →
  zip_with f (concat ls) (concat ks) = concat (zip_with (zip_with f) ls ks).
Proof.
  induction 1 as [|l k ls ks Hlk _ IH]; [done|].
  simpl. by rewrite zip_with_app, IH.
Qed.

Lemma join_points_are_tips cs :
  Forall well_formed cs →
  points (helper_data_of cs) = tip <$> miter_vectors (helper_data_of cs).
Proof.
  intros Hwf. simpl. induction Hwf as [|c cs Hc _ IH]; [done|].
  rewrite !fmap_cons. simpl. rewrite fmap_app, tips_zip, <- IH.
  destruct Hc as (_ & Hlen & _). by rewrite zip_with_app.
Qed.

Lemma origins_miter_vectors cs :
  Forall well_formed cs →
  origin <$> miter_vectors (helper_data_of cs) = concat (edge_vertices <$> cs).
Proof.
  intros Hwf. simpl. induction Hwf as [|c cs Hc _ IH]; [done|].
  rewrite !fmap_cons. simpl. rewrite fmap_app, IH.
  destruct Hc as (_ & Hlen & _). f_equal. apply fst_zip. lia.
Qed.

(** The length of a concatenation, shape by shape. *)
Lemma length_concat_by {A} (f : contents F → list A) (n : contents F → nat) (k : nat) cs :
  Forall (λ c, length (f c) = k * n c) cs →
  length (concat (f <$> cs)) = k * sum_list (n <$> cs).
Proof.
  induction 1 as [|c cs Hc _ IH]; [simpl; lia|].
  rewrite !fmap_cons. simpl. rewrite length_app, Hc, IH. lia.
Qed.

Lemma length_order_of c : well_formed c → length (order_of c) = length (path c).
Proof.
  intros Hc. apply (length_order_vectors (path c) (closed c)). by apply order_of_Ret.
Qed.

Lemma length_edge_borders_of c :
  well_formed c → length (edge_borders_of c) = 3 * length (edge_triangles c).
Proof.
  intros Hc. pose proof (edge_borders_of_Ret c Hc) as Hb.
  destruct Hc as (_ & Hlen & Hvalid & _).
  assert (Hos : valid_triangles (length (edge_offsets c)) (edge_triangles c))
    by (by rewrite Hlen).
  destruct (valid_triangles_readable _ _ (edge_vertices c) _ Hvalid Hos Hvalid)
    as [Hedge _].
  destruct (triangle_borders_rows _ _ Hedge) as (rows & Hrows & Hl & _).
  unfold edge_triangle_borders in Hb. congruence.
Qed.

Lemma length_face_borders_of c :
  well_formed c → length (face_borders_of c) = 3 * length (face_triangles c).
Proof.
  intros Hc. pose proof (face_borders_of_Ret c Hc) as Hb.
  destruct Hc as (_ & _ & _ & Hvalid).
  destruct (valid_triangles_readable _ _ (face_vertices c) _ Hvalid Hvalid Hvalid)
    as [_ Hface].
  destruct (triangle_borders_rows _ _ Hface) as (rows & Hrows & Hl & _).
  unfold face_triangle_borders in Hb. congruence.
Qed.

Lemma valid_trianglesb_correct n ts : valid_trianglesb n ts = true → valid_triangles n ts.
Proof.
  unfold valid_trianglesb. rewrite forallb_forall.
  intros Hall a b c i Habc Hi.
  apply list_elem_of_In in Habc. specialize (Hall _ Habc). cbv beta in Hall.
  rewrite forallb_forall in Hall. apply list_elem_of_In in Hi.
  specialize (Hall i Hi). by apply bool_decide_eq_true in Hall.
Qed.

(** The records of shape [k] in a concatenation over the layer. *)
Lemma layer_block {A} (f : contents F → list A) (n : contents F → nat) (m : nat) cs k c :
  Forall (λ c, length (f c) = m * n c) cs → cs !! k = Some c →
  take (m * n c) (drop (m * sum_list (n <$> take k cs)) (concat (f <$> cs))) = f c.
Proof.
  intros Hall Hk.
  assert (Hc : length (f c) = m * n c).
  { by apply (Forall_lookup_1 _ _ _ _ Hall Hk). }
  rewrite <- Hc.
  rewrite <- (length_concat_by f n m (take k cs)) by (by apply Forall_take).
  rewrite length_concat, (fmap_take f).
  apply concat_block. by rewrite list_lookup_fmap, Hk.
Qed.

End LayerSizes.

(** ** The meshes made again *)

Section NonAcceleratedRun.
Context {F : Type} {SF : Scalar F}.
Variable generate_2D_edge_meshes : ref → bool → M F (ref * ref * ref).

Lemma mesh_at_extends m (h1 h2 : heap F) r : extends h1 h2 → mesh_at m h1 r → mesh_at m h2 r.
Proof. intros Hext (H1 & H2 & H3). repeat split; by apply (extends_lookup h1). Qed.

Lemma get_nono_accelerated_points_yields (h : heap F) (shapes : list Shape)
    (meshes : list (list (xy F) * list (xy F) * list (Z * Z * Z))) :
  shapes ≠ [] →
  Forall2 (λ x m, ∀ h', extends h h' →
             yields (generate_2D_edge_meshes (data x) (_closed x)) h' (mesh_at m))
    shapes meshes →
  Forall (λ m, length m.1.2 = length m.1.1) meshes →
  yields (get_nono_accelerated_points generate_2D_edge_meshes shapes) h
    (λ h' r, objects h' !! r
             = Some (Points (zip_with vadd (concat ((λ m, m.1.1) <$> meshes))
                               (concat ((λ m, m.1.2) <$> meshes))))).
Proof.
  intros Hne Hall Hlen. unfold get_nono_accelerated_points.
  apply (yields_bind _ _ _ (λ h' rs, Forall2 (λ r m, mesh_at m h' r) rs meshes)).
  { apply (yields_list_comprehension _ _ meshes h mesh_at).
    - intros m h1 h2 r. apply mesh_at_extends.
    - apply Forall2_fmap_l. exact Hall. }
  intros h1 mesh_list Hext1 Hmeshes.
  assert (Hml : mesh_list ≠ []).
  { intros ->. apply Forall2_nil_inv_l in Hmeshes as ->.
    apply Forall2_nil_inv_r in Hall. done. }
  rewrite (match_nonempty mesh_list) by done.
  assert (Eml : ∀ {A} (g : _ → A), g <$> mesh_list ≠ []).
  { intros A g. by destruct mesh_list. }
  cbn [list_comprehension].
  apply (yields_bind _ _ _
    (λ h' mesh, ∃ m0 m1 m2, mesh = [m0; m1; m2]
       ∧ objects h' !! m0 = Some (Points (concat ((λ m, m.1.1) <$> meshes)))
       ∧ objects h' !! m1 = Some (Points (concat ((λ m, m.1.2) <$> meshes))))).
  { apply (yields_bind _ _ _
             (λ h' r, objects h' !! r = Some (Points (concat ((λ m, m.1.1) <$> meshes))))).
    { apply yields_concatenate_points; [by apply Eml|].
      apply Forall2_fmap. apply (Forall2_impl _ _ _ _ Hmeshes). by intros r m (? & _). }
    intros h2 m0 Hext2 Hm0.
    apply (yields_bind _ _ _
             (λ h' ms, ∃ m1 m2, ms = [m1; m2]
                ∧ objects h' !! m1 = Some (Points (concat ((λ m, m.1.2) <$> meshes))))).
    { apply (yields_bind _ _ _
               (λ h' r, objects h' !! r
                        = Some (Points (concat ((λ m, m.1.2) <$> meshes))))).
      { apply yields_concatenate_points; [by apply Eml|].
        apply Forall2_fmap. apply (Forall2_impl _ _ _ _ Hmeshes).
        intros r m (_ & ? & _). by apply (extends_lookup h1). }
      intros h3 m1 Hext3 Hm1.
      apply (yields_bind _ _ _ (λ h' ms, ∃ m2, ms = [m2] ∧ extends h3 h')).
      { apply (yields_bind _ _ _
                 (λ h' r, objects h' !! r
                          = Some (Triangles (concat ((λ m, m.2) <$> meshes))))).
        { apply yields_concatenate_triangles; [by apply Eml|].
          apply Forall2_fmap. apply (Forall2_impl _ _ _ _ Hmeshes).
          intros r m (_ & _ & ?). apply (extends_lookup h1); [|done].
          by eapply extends_trans. }
        intros h4 m2 Hext4 Hm2.
        apply (yields_bind _ _ _ (λ h' (ms : list ref), ms = [] ∧ h' = h4));
          [by apply yields_ret|].
        intros h5 ms _ [-> ->]. apply yields_ret. by exists m2. }
      intros h4 ms Hext4 (m2 & -> & _). apply yields_ret.
      exists m1, m2. split; [done|]. by apply (extends_lookup h3). }
    intros h3 ms Hext3 (m1 & m2 & -> & Hm1). apply yields_ret.
    exists m0, m1, m2. split; [done|]. split; [|done]. by apply (extends_lookup h2). }
  intros h2 mesh Hext2 (m0 & m1 & m2 & -> & Hm0 & Hm1).
  apply (yields_bind _ _ _ (λ h' r, h' = h2 ∧ r = m0)).
  { exists h2, m0. split; [reflexivity|]. split; [apply extends_refl|done]. }
  intros h' r _ [-> ->].
  apply (yields_bind _ _ _ (λ h' r, h' = h2 ∧ r = m1)).
  { exists h2, m1. split; [reflexivity|]. split; [apply extends_refl|done]. }
  intros h' r _ [-> ->].
  apply yields_np_add; [done|done|].
  apply (length_concat_fmap (λ m, m.1.2) (λ m, m.1.1)). exact Hlen.
Qed.

End NonAcceleratedRun.

(** ** Exact arithmetic: polygons and similar paths *)

Lemma generate_regular_polygon_exact (n : nat) (radius : R) :
  0 < n →
  generate_regular_polygon (Z.of_nat n) radius = Ret (vertex n radius <$> seq 0 n).
Proof.
  intros Hn. unfold generate_regular_polygon, np_linspace.
  assert (Hnr : (0 < INR n)%R) by (apply lt_0_INR; lia).
  pose proof PI_RGT_0 as Hpi.
  destruct (Z.ltb_spec (Z.of_nat n) 0); [lia|].
  destruct (Z.ltb_spec 0 (Z.of_nat n)); [|lia].
  rewrite Nat2Z.id. simpl fsub. simpl fdiv. simpl feqb. simpl fmul. simpl fadd.
  simpl of_int. rewrite <- INR_IZR_INZ.
  destruct (Req_dec_T ((2 * PI - 0) / INR n) 0) as [E|_].
  { exfalso. assert (0 < (2 * PI - 0) / INR n)%R; [|lra].
    apply Rdiv_lt_0_compat; lra. }
  f_equal. rewrite <- !list_fmap_compose.
  rewrite zip_with_fmap_l, zip_with_fmap_r, zip_with_diag.
  apply list_fmap_ext. intros i x _. unfold vertex. simpl.
  rewrite <- INR_IZR_INZ.
  replace (INR x * ((2 * PI - 0) / INR n) + 0)%R with (INR x * (2 * PI / INR n))%R
    by (field; lra).
  done.
Qed.

Lemma chord (x y : R) :
  ((cos x - cos y) * (cos x - cos y) + (sin x - sin y) * (sin x - sin y)
   = 2 - 2 * cos (x - y))%R.
Proof.
  rewrite cos_minus.
  pose proof (sin2_cos2 x) as Hx. pose proof (sin2_cos2 y) as Hy.
  unfold Rsqr in *. nra.
Qed.

Lemma unit_vector_similar (s : R) (c a b : xy R) :
  (0 < s)%R → unit_vector (similar s c a) (similar s c b) = unit_vector a b.
Proof.
  intros s_positive. destruct a as [a1 a2], b as [b1 b2], c as [c1 c2].
  unfold unit_vector, similar, norm, dot, vdiv, vsub, vadd, vscale. simpl.
  set (dx := (b1 - a1)%R). set (dy := (b2 - a2)%R).
  replace (b1 * s + c1 - (a1 * s + c1))%R with (s * dx)%R by (unfold dx; ring).
  replace (b2 * s + c2 - (a2 * s + c2))%R with (s * dy)%R by (unfold dy; ring).
  replace (s * dx * (s * dx) + s * dy * (s * dy))%R
    with ((s * s) * (dx * dx + dy * dy))%R by ring.
  rewrite sqrt_mult by nra. rewrite sqrt_square by lra.
  set (n := R_sqrt.sqrt (dx * dx + dy * dy)).
  unfold Rdiv. rewrite Rinv_mult.
  assert (Hs : (s * / s = 1)%R) by (apply Rinv_r; lra).
  f_equal.
  - replace (s * dx * (/ s * / n))%R with ((s * / s) * (dx * / n))%R by ring.
    rewrite Hs. ring.
  - replace (s * dy * (/ s * / n))%R with ((s * / s) * (dy * / n))%R by ring.
    rewrite Hs. ring.
Qed.

Lemma segment_directions_similar (s : R) (c : xy R) (p : list (xy R)) :
  (0 < s)%R → segment_directions (similar s c <$> p) = segment_directions p.
Proof.
  intros s_positive. unfold segment_directions.
  rewrite length_fmap, <- fmap_take, <- fmap_drop, zip_with_fmap_l, zip_with_fmap_r.
  apply zip_with_ext; [|done|done]. intros a b. by apply unit_vector_similar.
Qed.

Lemma last_direction_similar (s : R) (c : xy R) (p : list (xy R)) closed :
  (0 < s)%R → last_direction (similar s c <$> p) closed = last_direction p closed.
Proof.
  intros s_positive. unfold last_direction. destruct closed.
  - rewrite !head_lookup, !last_lookup, length_fmap, !list_lookup_fmap.
    destruct (p !! 0) as [a|]; [|done]. simpl.
    destruct (p !! pred (length p)) as [b|]; [|done]. simpl.
    by rewrite !closing_direction_exact, unit_vector_similar.
  - by rewrite segment_directions_similar, length_fmap.
Qed.

Lemma order_vectors_similar (s : R) (c : xy R) (p : list (xy R)) closed :
  (0 < s)%R →
  order_vectors (similar s c <$> p) closed
  = match order_vectors p closed with
    | Ret vec => Ret ((λ row, (similar s c (origin row), direction row)) <$> vec)
    | Raise e => Raise e
    end.
Proof.
  intros s_positive. unfold order_vectors.
  rewrite last_direction_similar, segment_directions_similar by done.
  destruct (last_direction p closed) as [t|e]; [|done].
  f_equal. generalize (segment_directions p ++ [t]). intros ds.
  revert ds. induction p as [|x p IH]; intros [|d ds]; try done.
  simpl. f_equal. apply IH.
Qed.

(** ** The layer of two shapes *)

Lemma polygon_well_formed : well_formed Layer64.polygon_contents.
Proof.
  split; [simpl; lia|]. split; [reflexivity|].
  split; by apply valid_trianglesb_correct.
Qed.

Lemma line_well_formed : well_formed Layer64.line_contents.
Proof.
  split; [simpl; lia|]. split; [reflexivity|].
  split; by apply valid_trianglesb_correct.
Qed.

Lemma layer64_holds :
  Forall2 (holds Layer64.memory) [Layer64.polygon; Layer64.line]
    [Layer64.polygon_contents; Layer64.line_contents].
Proof. repeat constructor. Qed.

Lemma layer64_well_formed :
  Forall well_formed [Layer64.polygon_contents; Layer64.line_contents].
Proof.
  apply Forall_cons_2; [exact polygon_well_formed|].
  apply Forall_cons_2; [exact line_well_formed|]. apply Forall_nil_2.
Qed.

(** * Further properties *)

(** ** Short paths and repeated end points: [generate_order_vectors] *)

(** X1.  [generate_order_vectors] raises on two kinds of path only, the
    empty one and the open path of a single point (there is no record
    [vec[-2]] to extrapolate from), and what it raises is [IndexError]; on
    every other path it returns one record per point, the points being the
    origins. *)
Theorem X1_order_vectors_raise_on_short_paths_only {F : Type} {SF : Scalar F}
    (h : heap F) (path_ : ref) (p : list (xy F)) (closed : bool) :
  objects h !! path_ = Some (Points p) →
  match result (generate_order_vectors path_ closed) h with
  | Ret vec =>
      length vec = length p ∧ origin <$> vec = p
      ∧ 1 ≤ length p ∧ (closed = false → 2 ≤ length p)
  | Raise e => e = IndexError ∧ (p = [] ∨ (length p = 1 ∧ closed = false))
  end.
Proof.
  intros Hp. rewrite (result_generate_order_vectors h path_ p closed Hp).
  destruct (order_vectors p closed) as [vec|e] eqn:Eo.
  - split; [by apply (length_order_vectors p closed)|].
    split; [by apply (origins_order_vectors p closed)|].
    unfold order_vectors in Eo.
    destruct (last_direction p closed) as [t|] eqn:Et; [|done].
    split; [by apply (last_direction_nonempty p closed t)|].
    intros ->. unfold last_direction in Et.
    destruct (segment_directions p !! (length p - 2)) eqn:E; [|done].
    apply lookup_lt_Some in E. rewrite length_segment_directions in E. lia.
  - by apply order_vectors_raise.
Qed.

Lemma X1_order_vectors_raise_on_short_paths_only_witness :
  result (generate_order_vectors 0 false) (Heap [Points [(1, 2)%float]] nan_memory)
  = Raise IndexError
  ∧ match result (generate_order_vectors 0 true) (Heap [Points [(1, 2)%float]] nan_memory) with
    | Ret vec =>
        length vec = 1 ∧ origin <$> vec = [(1, 2)%float]
        ∧ 1 ≤ 1 ∧ (true = false → 2 ≤ 1)
    | Raise e => e = IndexError ∧ ([(1, 2)%float] = [] ∨ (1 = 1 ∧ true = false))
    end.
Proof.
  split; [reflexivity|].
  apply (X1_order_vectors_raise_on_short_paths_only
           (Heap [Points [(1, 2)%float]] nan_memory) 0 [(1, 2)%float] true).
  reflexivity.
Defined.

(** X2.  In binary64, a closed path that ends on the point it starts from
    (a polygon given with its first vertex repeated, or a single point) gets
    a last record without direction: the wraparound segment has length zero,
    nothing checks it, and the direction is [0/0], [(NaN, NaN)]. *)
Theorem X2_repeated_first_point_gives_nan
    (h : heap float) (path_ : ref) (p : list (xy float)) (a : xy float) :
  objects h !! path_ = Some (Points p) →
  head p = Some a → last p = Some a → finite_xy a = true →
  ∃ vec : list (vector float),
    result (generate_order_vectors path_ true) h = Ret vec
    ∧ length vec = length p
    ∧ last vec = Some (a, (nan, nan)).
Proof.
  intros Hp Hhead Hlast Hfin.
  rewrite (result_generate_order_vectors h path_ p true Hp).
  assert (Ht : last_direction p true = Ret (nan, nan)).
  { unfold last_direction. by rewrite Hhead, Hlast, closing_direction_diag. }
  destruct (order_vectors p true) as [vec|e] eqn:Eo.
  - exists vec. split; [done|]. split; [by apply (length_order_vectors p true)|].
    destruct (last_order_vectors p true vec _ Eo Ht) as (a' & Ha' & Hl). congruence.
  - unfold order_vectors in Eo. by rewrite Ht in Eo.
Qed.

Lemma X2_repeated_first_point_gives_nan_witness :
  ∃ vec : list (vector float),
    result (generate_order_vectors 0 true)
      (Heap [Points [(0, 0); (1, 0); (0, 1); (0, 0)]%float] nan_memory) = Ret vec
    ∧ length vec = 4
    ∧ last vec = Some ((0, 0), (nan, nan))%float.
Proof.
  apply (X2_repeated_first_point_gives_nan
           (Heap [Points [(0, 0); (1, 0); (0, 1); (0, 0)]%float] nan_memory) 0
           [(0, 0); (1, 0); (0, 1); (0, 0)]%float (0, 0)%float); reflexivity.
Defined.

(** ** Miter vectors: [generate_mitter_vectors] *)

(** X3.  For a mesh with as many offsets as centers,
    [generate_mitter_vectors] returns one record per center, with the
    center as origin and its offset as direction; nothing of the
    uninitialised array it starts from is left, and the triangles of the
    mesh are not read. *)
Theorem X3_mitter_vectors_pair_centers_with_offsets {F : Type} {SF : Scalar F}
    (h : heap F) (mesh0 mesh1 mesh2 : ref) (centers offsets : list (xy F)) :
  objects h !! mesh0 = Some (Points centers) →
  objects h !! mesh1 = Some (Points offsets) →
  length offsets = length centers →
  ∃ out : list (vector F),
    result (generate_mitter_vectors (mesh0, mesh1, mesh2)) h = Ret out
    ∧ length out = length centers
    ∧ origin <$> out = centers ∧ direction <$> out = offsets.
Proof.
  intros H0 H1 Hlen. exists (zip centers offsets).
  split; [|split; [|split]].
  - rewrite (computes_result _ _ _
               (generate_mitter_vectors_computes h mesh0 mesh1 mesh2 centers offsets H0 H1)).
    unfold mitter_vectors. by rewrite broadcast_same.
  - rewrite length_zip_with. lia.
  - apply fst_zip. lia.
  - apply snd_zip. lia.
Qed.

Lemma X3_mitter_vectors_pair_centers_with_offsets_witness :
  ∃ out : list (vector float),
    result (generate_mitter_vectors (0, 1, 7))
      (Heap [Points thin_corner; Points (take 3 sharp)] nan_memory) = Ret out
    ∧ length out = 3
    ∧ origin <$> out = thin_corner ∧ direction <$> out = take 3 sharp.
Proof.
  apply (X3_mitter_vectors_pair_centers_with_offsets
           (Heap [Points thin_corner; Points (take 3 sharp)] nan_memory) 0 1 7
           thin_corner (take 3 sharp)); reflexivity.
Defined.

(** ** Triangle borders *)

(** X4.  The borders of the edge triangles are the borders of the face
    triangles of the join points: with as many offsets as centers, and
    triangles whose indices are in range for them,
    [generate_edge_triangle_borders(centers, offsets, triangles)] returns
    the records that
    [generate_face_triangle_borders(centers + offsets, triangles)] returns,
    record for record, in binary64 as in exact arithmetic. *)
Theorem X4_edge_borders_are_face_borders_of_join_points {F : Type} {SF : Scalar F}
    (h : heap F) (centers offsets points triangles : ref)
    (cs os : list (xy F)) (ts : list (Z * Z * Z)) :
  objects h !! centers = Some (Points cs) →
  objects h !! offsets = Some (Points os) →
  objects h !! points = Some (Points (zip_with vadd cs os)) →
  objects h !! triangles = Some (Triangles ts) →
  length cs = length os →
  valid_triangles (length cs) ts →
  ∃ out : list (vector F),
    result (generate_edge_triangle_borders centers offsets triangles) h = Ret out
    ∧ result (generate_face_triangle_borders points triangles) h = Ret out
    ∧ length out = 3 * length ts.
Proof.
  intros Hc Ho Hp Ht Hlen Hvalid.
  assert (Hos : valid_triangles (length os) ts) by (by rewrite <- Hlen).
  assert (Hps : valid_triangles (length (zip_with vadd cs os)) ts).
  { rewrite length_zip_with, <- Hlen, Nat.min_id. exact Hvalid. }
  destruct (valid_triangles_readable cs os (zip_with vadd cs os) ts Hvalid Hos Hps)
    as [_ Hface].
  destruct (triangle_borders_rows _ ts Hface) as (out & Eo & Hout & _).
  exists out. split; [|split; [|exact Hout]].
  - rewrite (computes_result _ _ _
               (generate_edge_triangle_borders_computes h _ _ _ cs os ts Hc Ho Ht Hvalid Hos)).
    rewrite <- Eo. apply triangle_borders_ext. intros i. by apply edge_corner_zip_with.
  - rewrite <- Eo.
    by apply computes_result, generate_face_triangle_borders_computes.
Qed.

Lemma X4_edge_borders_are_face_borders_of_join_points_witness :
  valid_triangles 3 one_triangle
  ∧ ∃ out : list (vector float),
      result (generate_edge_triangle_borders 0 1 3)
        (Heap [Points thin_corner; Points (take 3 sharp);
               Points (zip_with vadd thin_corner (take 3 sharp)); Triangles one_triangle]
           nan_memory) = Ret out
      ∧ result (generate_face_triangle_borders 2 3)
          (Heap [Points thin_corner; Points (take 3 sharp);
                 Points (zip_with vadd thin_corner (take 3 sharp)); Triangles one_triangle]
             nan_memory) = Ret out
      ∧ length out = 3.
Proof.
  assert (Hvalid : valid_triangles 3 one_triangle).
  { intros a b c i Habc Hi.
    apply list_elem_of_singleton in Habc as [= -> -> ->].
    unfold in_range.
    apply elem_of_cons in Hi as [->|Hi]; [lia|].
    apply elem_of_cons in Hi as [->|Hi]; [lia|].
    apply list_elem_of_singleton in Hi as ->. lia. }
  split; [exact Hvalid|].
  apply (X4_edge_borders_are_face_borders_of_join_points
           (Heap [Points thin_corner; Points (take 3 sharp);
                  Points (zip_with vadd thin_corner (take 3 sharp)); Triangles one_triangle]
              nan_memory)
           0 1 2 3 thin_corner (take 3 sharp) one_triangle); try reflexivity.
  exact Hvalid.
Defined.

(** X5.  The three records of a triangle.  For triangles whose indices the
    vertex buffer accepts (a negative index counts from the end),
    [generate_face_triangle_borders] gives triangle [i] = [(a, b, c)] the
    records [3i], [3i + 1] and [3i + 2]: they start at the vertices [a], [b]
    and [c], and the direction of each is the next vertex minus its own,
    computed once, in binary64 as in exact arithmetic. *)
Theorem X5_face_border_records {F : Type} {SF : Scalar F}
    (h : heap F) (vertices triangles : ref) (vs : list (xy F)) (ts : list (Z * Z * Z)) :
  objects h !! vertices = Some (Points vs) →
  objects h !! triangles = Some (Triangles ts) →
  valid_triangles (length vs) ts →
  ∃ out : list (vector F),
    result (generate_face_triangle_borders vertices triangles) h = Ret out
    ∧ ∀ i a b c, ts !! i = Some (a, b, c) →
        ∃ va vb vc,
          lookup_row vs a = Ret va ∧ lookup_row vs b = Ret vb ∧ lookup_row vs c = Ret vc
          ∧ out !! (3 * i) = Some (va, vsub vb va)
          ∧ out !! (3 * i + 1) = Some (vb, vsub vc vb)
          ∧ out !! (3 * i + 2) = Some (vc, vsub va vc).
Proof.
  intros Hv Ht Hvalid.
  destruct (valid_triangles_readable vs vs vs ts Hvalid Hvalid Hvalid) as [_ Hface].
  destruct (triangle_borders_rows _ ts Hface) as (out & Eo & _ & Hrows).
  exists out. split; [|exact Hrows].
  rewrite <- Eo. by apply computes_result, generate_face_triangle_borders_computes.
Qed.

Lemma X5_face_border_records_witness :
  ∃ out : list (vector float),
    result (generate_face_triangle_borders 0 1)
      (Heap [Points thin_corner; Triangles [(0, -2, -1)%Z]] nan_memory) = Ret out
    ∧ ∀ i a b c, [(0, -2, -1)%Z] !! i = Some (a, b, c) →
        ∃ va vb vc,
          lookup_row thin_corner a = Ret va ∧ lookup_row thin_corner b = Ret vb
          ∧ lookup_row thin_corner c = Ret vc
          ∧ out !! (3 * i) = Some (va, vsub vb va)
          ∧ out !! (3 * i + 1) = Some (vb, vsub vc vb)
          ∧ out !! (3 * i + 2) = Some (vc, vsub va vc).
Proof.
  apply (X5_face_border_records
           (Heap [Points thin_corner; Triangles [(0, -2, -1)%Z]] nan_memory) 0 1
           thin_corner [(0, -2, -1)%Z]); try reflexivity.
  intros a b c i Habc Hi.
  apply list_elem_of_singleton in Habc as [= -> -> ->].
  unfold in_range. simpl.
  apply elem_of_cons in Hi as [->|Hi]; [lia|].
  apply elem_of_cons in Hi as [->|Hi]; [lia|].
  apply list_elem_of_singleton in Hi as ->. lia.
Defined.

(** ** The generators run one after another

    As [get_helper_data_from_shapes] runs them (lines 172 to 175): the
    array [generate_order_vectors] returns goes to
    [generate_miter_helper_vectors] and [generate_orthogonal_vectors]. *)

(** X6.  In exact arithmetic, the orthogonal vector of a path point.  On a
    path whose segment from point [i] to point [i + 1] has a length,
    the record [i] that [generate_orthogonal_vectors] makes of the order
    vectors starts half a unit along the segment, is perpendicular to the
    segment and is half a unit long. *)
Theorem X6_orthogonal_vector_of_a_segment
    (h : heap R) (path_ : ref) (p : list (xy R)) (closed : bool)
    (i : nat) (a b : xy R) :
  objects h !! path_ = Some (Points p) →
  p !! i = Some a → p !! S i = Some b → a ≠ b →
  ∃ (out : list (vector R)) (row : vector R),
    result (o ← generate_order_vectors path_ closed; generate_orthogonal_vectors o) h
    = Ret out
    ∧ length out = length p
    ∧ out !! i = Some row
    ∧ origin row = vadd a (vscale (unit_vector a b) fhalf)
    ∧ dot (direction row) (vsub b a) = 0%R
    ∧ norm (direction row) = (1 / 2)%R.
Proof.
  intros Hp Ha Hb Hne.
  assert (Hlen : 2 ≤ length p) by (apply lookup_lt_Some in Hb; lia).
  destruct (order_vectors_records p closed Hlen) as (t & _ & Hov).
  pose proof (generate_order_vectors_computes h path_ p closed Hp) as Hc.
  rewrite Hov in Hc.
  exists (orthogonal_vectors (zip p (segment_directions p ++ [t]))),
         (orthogonal_vector (a, unit_vector a b)).
  split; [|split; [|split; [|split]]].
  - apply (result_pipeline _ _ _ _ (λ v, Ret (orthogonal_vectors v)) Hc).
    intros h' r Hr. by apply generate_orthogonal_vectors_computes.
  - unfold orthogonal_vectors. rewrite length_fmap.
    by apply (length_order_vectors p closed).
  - unfold orthogonal_vectors.
    by rewrite list_lookup_fmap, (lookup_order_vectors p closed _ i a b Hov Ha Hb).
  - done.
  - by apply rot90_half_unit_vector.
Qed.

Lemma X6_orthogonal_vector_of_a_segment_witness :
  ∃ (out : list (vector R)) (row : vector R),
    result (o ← generate_order_vectors 0 true; generate_orthogonal_vectors o)
      (Heap [Points three_four] zero_memory) = Ret out
    ∧ length out = length three_four
    ∧ out !! 0 = Some row
    ∧ origin row = vadd (0, 0)%R (vscale (unit_vector (0, 0)%R (3, 4)%R) fhalf)
    ∧ dot (direction row) (vsub (3, 4)%R (0, 0)%R) = 0%R
    ∧ norm (direction row) = (1 / 2)%R.
Proof.
  apply (X6_orthogonal_vector_of_a_segment (Heap [Points three_four] zero_memory)
           0 three_four true 0 (0, 0)%R (3, 4)%R); try reflexivity.
  intros [=]; lra.
Defined.

(** X7.  The miter helper vectors of a closed path, in binary64 as in exact
    arithmetic.  Run on the order vectors of a closed path of [N] points,
    [generate_miter_helper_vectors] returns [2N] records.  Record [i] starts
    at point [i] and is half the direction of the segment that leaves it;
    record [N + i] starts where record [i] ends and is half the direction of
    the segment that arrives at point [i], negated.  The point after the
    last is the first, and the point before the first is the last.  The
    direction of a segment is the unit vector from its start to its end, the
    difference divided by its norm; the one of the closing segment, from the
    last point to the first, is divided by the norm NumPy takes of the
    single row [path_[-1] - path_[0]]. *)
Theorem X7_miter_helper_of_closed_path {F : Type} {SF : Scalar F}
    (h : heap F) (path_ : ref) (p : list (xy F)) :
  objects h !! path_ = Some (Points p) →
  1 ≤ length p →
  ∃ out : list (vector F),
    result (o ← generate_order_vectors path_ true; generate_miter_helper_vectors o) h
    = Ret out
    ∧ length out = 2 * length p
    ∧ ∀ i before a after,
        p !! i = Some a →
        p !! ((i + length p - 1) `mod` length p) = Some before →
        p !! (S i `mod` length p) = Some after →
        let leaving := leaving_direction (length p) i a after in
        let arriving :=
          leaving_direction (length p) ((i + length p - 1) `mod` length p) before a in
        out !! i = Some (a, vscale leaving fhalf)
        ∧ out !! (length p + i)
          = Some (vadd a (vscale leaving fhalf), vneg (vscale arriving fhalf)).
Proof.
  intros Hp Hlen.
  pose proof (generate_order_vectors_computes h path_ p true Hp) as Hc.
  destruct (order_vectors p true) as [nv|e] eqn:Hov.
  2: { apply order_vectors_raise in Hov as [_ [->|[_ [=]]]]. simpl in Hlen. lia. }
  pose proof (length_order_vectors p true nv Hov) as Hnv.
  exists (miter_helper_vectors nv). split; [|split].
  - apply (result_pipeline _ _ _ _ (λ v, Ret (miter_helper_vectors v)) Hc).
    intros h' r Hr. by apply generate_miter_helper_vectors_computes.
  - rewrite length_miter_helper_vectors. lia.
  - intros i before a after Ha Hbefore Hafter. cbv zeta.
    apply lookup_lt_Some in Ha as Hi.
    pose proof (lookup_order_vectors_closed p nv i a after Hov Ha Hafter) as Hrow.
    assert (Hprev : nv !! ((i + length p - 1) `mod` length p)
                    = Some (before,
                            leaving_direction (length p)
                              ((i + length p - 1) `mod` length p) before a)).
    { apply (lookup_order_vectors_closed p nv _ before a Hov Hbefore).
      destruct (decide (i = 0)) as [->|Hne].
      - replace (0 + length p - 1) with (length p - 1) by lia.
        rewrite (Nat.mod_small (length p - 1)) by lia.
        replace (S (length p - 1)) with (length p) by lia.
        by rewrite Nat.Div0.mod_same.
      - replace (i + length p - 1) with (i - 1 + 1 * length p) by lia.
        rewrite Nat.Div0.mod_add, (Nat.mod_small (i - 1)) by lia.
        replace (S (i - 1)) with i by lia. by rewrite Nat.mod_small by lia. }
    rewrite <- Hnv in Hprev at 1 2.
    destruct (lookup_miter_helper_vectors nv i a _ before _ Hrow Hprev)
      as [Hfirst Hsecond].
    rewrite Hnv in Hsecond. by split.
Qed.

Lemma X7_miter_helper_of_closed_path_witness :
  1 ≤ length sharp
  ∧ ∃ out : list (vector float),
      result (o ← generate_order_vectors 0 true; generate_miter_helper_vectors o)
        (Heap [Points sharp] nan_memory) = Ret out
      ∧ length out = 16.
Proof.
  split; [simpl; lia|].
  destruct (X7_miter_helper_of_closed_path (Heap [Points sharp] nan_memory) 0 sharp)
    as (out & Hout & Hlen & _); [reflexivity|simpl; lia|].
  exists out. split; [exact Hout|exact Hlen].
Defined.

(** ** The helper data of a layer *)

(** X8.  On a layer without shapes [get_helper_data_from_shapes] raises
    [IndexError]: nothing is zipped, [mesh] is the empty tuple and
    [mesh[0]] does not exist.  No array was made or changed before.
    [get_nono_accelerated_points] does the same, whatever
    [generate_2D_edge_meshes] is. *)
Theorem X8_empty_layer_raises_index_error {F : Type} {SF : Scalar F} (h : heap F) :
  get_helper_data_from_shapes [] h = (h, Raise IndexError)
  ∧ ∀ generate_2D_edge_meshes : ref → bool → M F (ref * ref * ref),
      get_nono_accelerated_points generate_2D_edge_meshes [] h = (h, Raise IndexError).
Proof. split; [reflexivity|]. intros generate_2D_edge_meshes. reflexivity. Qed.

(** X9.  A layer on which no shape has a face (every [_face_vertices] is
    empty, as for lines and paths) gets no helper data: whatever the shapes
    are otherwise, [get_helper_data_from_shapes] raises.  When all the rest
    goes well the shapes with a face are none, and [np.concatenate] has
    nothing to concatenate. *)
Theorem X9_layer_without_faces_raises {F : Type} {SF : Scalar F}
    (h : heap F) (shapes : list Shape) :
  Forall (λ x, objects h !! _face_vertices x = Some (Points [])) shapes →
  ∃ e, (get_helper_data_from_shapes shapes h).2 = Raise e.
Proof.
  intros Hfaces. change (fails (get_helper_data_from_shapes shapes) h).
  unfold get_helper_data_from_shapes.
  apply fails_bind. intros h1 mesh Hmesh.
  assert (Hext : extends h h1).
  { revert Hmesh. apply grows_Ret.
    destruct ((λ x, (_edge_vertices x, _edge_offsets x, _edge_triangles x)) <$> shapes)
      as [|m ms]; [apply grows_ret|].
    apply grows_list_comprehension.
    apply Forall_cons_2; [apply grows_concatenate_points|].
    apply Forall_cons_2; [apply grows_concatenate_points|].
    apply Forall_cons_2; [apply grows_concatenate_triangles|]. apply Forall_nil_2. }
  assert (Hfaces1 : Forall (λ x, objects h1 !! _face_vertices x = Some (Points [])) shapes).
  { apply (Forall_impl _ _ _ Hfaces). intros x. by apply extends_lookup. }
  apply fails_bind. intros h2 with_faces.
  rewrite (filter_nonempty_no_face h1 shapes Hfaces1). intros [= <- <-].
  do 13 (apply fails_bind; intros ? ? _).
  apply fails_bind. intros h3 li [= <- <-].
  by exists ValueError.
Qed.

Lemma X9_layer_without_faces_raises_witness :
  ∃ e, (get_helper_data_from_shapes [Layer64.line]
          (Heap (replicate 6 (Points []) ++ Layer64.arrays_of Layer64.line_contents)
             nan_memory)).2 = Raise e.
Proof.
  apply (X9_layer_without_faces_raises
           (Heap (replicate 6 (Points []) ++ Layer64.arrays_of Layer64.line_contents)
              nan_memory) [Layer64.line]).
  apply Forall_cons_2; [reflexivity|apply Forall_nil_2].
Defined.

(** X10.  The join points are the tips of the miter vectors.  On a layer of
    well-formed shapes, one of which at least has a face,
    [get_helper_data_from_shapes] returns; of the arrays it returns,
    [miter_vectors] has one record per edge vertex of the layer, shape
    after shape, starting at the vertex, and [points] holds, at the same
    index, the point where the record ends: origin plus direction, computed
    once. *)
Theorem X10_join_points_are_miter_vector_tips {F : Type} {SF : Scalar F}
    (h : heap F) (shapes : list Shape) (cs : list (contents F)) :
  Forall2 (holds h) shapes cs → Forall well_formed cs → filter has_face cs ≠ [] →
  ∃ (h' : heap F) (hp : Helpers.t) (join_points : list (xy F)) (vectors : list (vector F)),
    get_helper_data_from_shapes shapes h = (h', Ret hp)
    ∧ objects h' !! Helpers.points hp = Some (Points join_points)
    ∧ objects h' !! Helpers.miter_vectors hp = Some (Vectors vectors)
    ∧ origin <$> vectors = concat (edge_vertices <$> cs)
    ∧ join_points = (λ row, vadd (origin row) (direction row)) <$> vectors.
Proof.
  intros Hall Hwf Hfaces.
  destruct (get_helper_data_from_shapes_yields h shapes cs Hall Hwf Hfaces)
    as (h' & hp & Hrun & _ & Hp & _ & _ & _ & Hm & _).
  exists h', hp, (points (helper_data_of cs)), (miter_vectors (helper_data_of cs)).
  split; [done|]. split; [done|]. split; [done|].
  split; [by apply origins_miter_vectors|by apply join_points_are_tips].
Qed.

Lemma X10_join_points_are_miter_vector_tips_witness :
  ∃ (h' : heap float) (hp : Helpers.t) (join_points : list (xy float))
    (vectors : list (vector float)),
    get_helper_data_from_shapes [Layer64.polygon; Layer64.line] Layer64.memory
    = (h', Ret hp)
    ∧ objects h' !! Helpers.points hp = Some (Points join_points)
    ∧ objects h' !! Helpers.miter_vectors hp = Some (Vectors vectors)
    ∧ origin <$> vectors
      = concat (edge_vertices <$> [Layer64.polygon_contents; Layer64.line_contents])
    ∧ join_points = (λ row, vadd (origin row) (direction row)) <$> vectors.
Proof.
  apply (X10_join_points_are_miter_vector_tips Layer64.memory
           [Layer64.polygon; Layer64.line]
           [Layer64.polygon_contents; Layer64.line_contents]).
  - exact layer64_holds.
  - apply Forall_cons_2; [exact polygon_well_formed|].
    apply Forall_cons_2; [exact line_well_formed|]. apply Forall_nil_2.
  - done.
Defined.

(** X11.  How many records the helper arrays of a layer hold.  On a layer
    of well-formed shapes, one of which at least has a face,
    [get_helper_data_from_shapes] returns seven arrays and leaves the arrays
    of the shapes as they were.  With [n] path points, [m] edge vertices and
    [t] edge triangles in the layer, and [f] face triangles on the shapes
    that have a face: [order_vectors] and [orthogonal_vector] hold [n]
    records, [miter_helper] [2n], [points] and [miter_vectors] [m],
    [triangles_vectors] [3t] and [face_triangles_vectors] [3f]. *)
Theorem X11_sizes_of_the_helper_arrays {F : Type} {SF : Scalar F}
    (h : heap F) (shapes : list Shape) (cs : list (contents F)) :
  Forall2 (holds h) shapes cs → Forall well_formed cs → filter has_face cs ≠ [] →
  ∃ (h' : heap F) (hp : Helpers.t) (d : helper_data F),
    get_helper_data_from_shapes shapes h = (h', Ret hp)
    ∧ helpers_hold h' hp d
    ∧ Forall2 (holds h') shapes cs
    ∧ length (order_vectors_ d) = sum_list (length ∘ path <$> cs)
    ∧ length (orthogonal_vector_ d) = sum_list (length ∘ path <$> cs)
    ∧ length (miter_helper d) = 2 * sum_list (length ∘ path <$> cs)
    ∧ length (points d) = sum_list (length ∘ edge_vertices <$> cs)
    ∧ length (miter_vectors d) = sum_list (length ∘ edge_vertices <$> cs)
    ∧ length (triangles_vectors d) = 3 * sum_list (length ∘ edge_triangles <$> cs)
    ∧ length (face_triangles_vectors d)
      = 3 * sum_list (length ∘ face_triangles <$> filter has_face cs).
Proof.
  intros Hall Hwf Hfaces.
  destruct (get_helper_data_from_shapes_yields h shapes cs Hall Hwf Hfaces)
    as (h' & hp & Hrun & Hext & Hd).
  exists h', hp, (helper_data_of cs).
  split; [done|]. split; [done|]. split; [by apply (layer_extends h)|].
  assert (Hone : ∀ {A} (f : contents F → list A) n,
            Forall (λ c, length (f c) = 1 * n c) cs →
            length (concat (f <$> cs)) = sum_list (n <$> cs)).
  { intros A f n Hf. rewrite (length_concat_by f n 1 cs Hf). lia. }
  assert (Hm : length (miter_vectors (helper_data_of cs))
               = sum_list (length ∘ edge_vertices <$> cs)).
  { apply Hone. apply (Forall_impl _ _ _ Hwf). intros c (_ & Hlen & _).
    simpl. rewrite length_zip_with. lia. }
  split; [|split; [|split; [|split; [|split; [|split]]]]].
  - apply Hone. apply (Forall_impl _ _ _ Hwf). intros c Hc.
    simpl. rewrite (length_order_of c Hc). lia.
  - apply Hone. apply (Forall_impl _ _ _ Hwf). intros c Hc.
    unfold orthogonal_vectors. simpl. rewrite length_fmap, (length_order_of c Hc). lia.
  - apply (length_concat_by _ (length ∘ path) 2). apply (Forall_impl _ _ _ Hwf).
    intros c Hc. by rewrite length_miter_helper_vectors, (length_order_of c Hc).
  - rewrite (join_points_are_tips cs Hwf), length_fmap. exact Hm.
  - exact Hm.
  - apply (length_concat_by _ (length ∘ edge_triangles) 3). apply (Forall_impl _ _ _ Hwf).
    intros c Hc. by apply length_edge_borders_of.
  - apply (length_concat_by _ (length ∘ face_triangles) 3).
    apply Forall_forall. intros c [_ Hc]%list_elem_of_filter.
    apply length_face_borders_of. by apply (proj1 (Forall_forall _ _) Hwf).
Qed.

Lemma X11_sizes_of_the_helper_arrays_witness :
  ∃ (h' : heap float) (hp : Helpers.t) (d : helper_data float),
    get_helper_data_from_shapes [Layer64.polygon; Layer64.line] Layer64.memory
    = (h', Ret hp)
    ∧ helpers_hold h' hp d
    ∧ length (order_vectors_ d) = 5
    ∧ length (miter_helper d) = 10
    ∧ length (points d) = 10
    ∧ length (triangles_vectors d) = 24
    ∧ length (face_triangles_vectors d) = 3.
Proof.
  destruct (X11_sizes_of_the_helper_arrays Layer64.memory
              [Layer64.polygon; Layer64.line]
              [Layer64.polygon_contents; Layer64.line_contents]
              layer64_holds layer64_well_formed)
    as (h' & hp & d & Hrun & Hd & _ & Ho & _ & Hm & Hp & _ & Ht & Hf); [done|].
  exists h', hp, d.
  split; [exact Hrun|]. split; [exact Hd|]. split; [exact Ho|]. split; [exact Hm|].
  split; [exact Hp|]. split; [exact Ht|exact Hf].
Defined.

(** X12.  The helper arrays hold the layer shape after shape.  Under the
    same conditions, the records of the shape at index [k], whose path has
    [n] points, are found after those of the [k] shapes before it: they are
    the records [generate_order_vectors] returns for the shape alone, in
    [order_vectors]; those [generate_orthogonal_vectors] makes of them, at
    the same place in [orthogonal_vector]; and the [2n] records
    [generate_miter_helper_vectors] makes of them, in [miter_helper], after
    twice as many records. *)
Theorem X12_helper_arrays_shape_after_shape {F : Type} {SF : Scalar F}
    (h : heap F) (shapes : list Shape) (cs : list (contents F)) :
  Forall2 (holds h) shapes cs → Forall well_formed cs → filter has_face cs ≠ [] →
  ∃ (h' : heap F) (hp : Helpers.t) (d : helper_data F),
    get_helper_data_from_shapes shapes h = (h', Ret hp)
    ∧ helpers_hold h' hp d
    ∧ ∀ k x c, shapes !! k = Some x → cs !! k = Some c →
        let before := sum_list (length ∘ path <$> take k cs) in
        let n := length (path c) in
        result (generate_order_vectors (data x) (_closed x)) h
        = Ret (take n (drop before (order_vectors_ d)))
        ∧ result (o ← generate_order_vectors (data x) (_closed x);
                  generate_orthogonal_vectors o) h
          = Ret (take n (drop before (orthogonal_vector_ d)))
        ∧ result (o ← generate_order_vectors (data x) (_closed x);
                  generate_miter_helper_vectors o) h
          = Ret (take (2 * n) (drop (2 * before) (miter_helper d))).
Proof.
  intros Hall Hwf Hfaces.
  destruct (get_helper_data_from_shapes_yields h shapes cs Hall Hwf Hfaces)
    as (h' & hp & Hrun & Hext & Hd).
  exists h', hp, (helper_data_of cs). split; [done|]. split; [done|].
  intros k x c Hx Hc before n.
  pose proof (Forall2_lookup_lr _ _ _ _ _ _ Hall Hx Hc) as (Hdata & Hclosed & _).
  pose proof (Forall_lookup_1 _ _ _ _ Hwf Hc) as Hwfc.
  pose proof (generate_order_vectors_computes h (data x) _ (_closed x) Hdata) as Hcomp.
  rewrite Hclosed, (order_of_Ret c Hwfc) in Hcomp. rewrite Hclosed.
  split; [|split].
  - rewrite (computes_result _ _ _ Hcomp). f_equal. symmetry.
    replace n with (1 * (length ∘ path) c) by (simpl; lia).
    replace before with (1 * sum_list (length ∘ path <$> take k cs)) by (unfold before; lia).
    apply (layer_block order_of (length ∘ path) 1 cs k c); [|done].
    apply (Forall_impl _ _ _ Hwf). intros c' Hc'. simpl.
    rewrite (length_order_of c' Hc'). lia.
  - rewrite (result_pipeline _ _ _ _ (λ v, Ret (orthogonal_vectors v)) Hcomp).
    2: { intros h1 r Hr. by apply generate_orthogonal_vectors_computes. }
    f_equal. symmetry.
    replace n with (1 * (length ∘ path) c) by (simpl; lia).
    replace before with (1 * sum_list (length ∘ path <$> take k cs)) by (unfold before; lia).
    apply (layer_block (λ c, orthogonal_vectors (order_of c)) (length ∘ path) 1 cs k c);
      [|done].
    apply (Forall_impl _ _ _ Hwf). intros c' Hc'. unfold orthogonal_vectors. simpl.
    rewrite length_fmap, (length_order_of c' Hc'). lia.
  - rewrite (result_pipeline _ _ _ _ (λ v, Ret (miter_helper_vectors v)) Hcomp).
    2: { intros h1 r Hr. by apply generate_miter_helper_vectors_computes. }
    f_equal. symmetry.
    apply (layer_block (λ c, miter_helper_vectors (order_of c)) (length ∘ path) 2 cs k c);
      [|done].
    apply (Forall_impl _ _ _ Hwf). intros c' Hc'.
    by rewrite length_miter_helper_vectors, (length_order_of c' Hc').
Qed.

Lemma X12_helper_arrays_shape_after_shape_witness :
  ∃ (h' : heap float) (hp : Helpers.t) (d : helper_data float),
    get_helper_data_from_shapes [Layer64.polygon; Layer64.line] Layer64.memory
    = (h', Ret hp)
    ∧ helpers_hold h' hp d
    ∧ result (generate_order_vectors 6 false) Layer64.memory
      = Ret (take 2 (drop 3 (order_vectors_ d)))
    ∧ result (o ← generate_order_vectors 6 false; generate_miter_helper_vectors o)
        Layer64.memory
      = Ret (take 4 (drop 6 (miter_helper d))).
Proof.
  destruct (X12_helper_arrays_shape_after_shape Layer64.memory
              [Layer64.polygon; Layer64.line]
              [Layer64.polygon_contents; Layer64.line_contents]
              layer64_holds layer64_well_formed)
    as (h' & hp & d & Hrun & Hd & Hblocks); [done|].
  exists h', hp, d. split; [exact Hrun|]. split; [exact Hd|].
  destruct (Hblocks 1 Layer64.line Layer64.line_contents eq_refl eq_refl)
    as (Ho & _ & Hm).
  split; [exact Ho|exact Hm].
Defined.

(** ** The open path *)

(** X13.  The miter helper vectors of an open path, in binary64 as in exact
    arithmetic.  Run on the order vectors of an open path of [N >= 2]
    points, [generate_miter_helper_vectors] returns [2N] records.  The
    second vector of every point but the first is half the unit vector of
    the segment that arrives at the point, negated.  No segment arrives at
    the first point: [np.roll] brings it the direction of the last record,
    which is the extrapolated one, so its second vector is the negation of
    half the negated unit vector of the last segment. *)
Theorem X13_miter_helper_of_open_path {F : Type} {SF : Scalar F}
    (h : heap F) (path_ : ref) (p : list (xy F)) :
  objects h !! path_ = Some (Points p) →
  2 ≤ length p →
  ∃ out : list (vector F),
    result (o ← generate_order_vectors path_ false; generate_miter_helper_vectors o) h
    = Ret out
    ∧ length out = 2 * length p
    ∧ (∀ i a b, p !! i = Some a → p !! S i = Some b →
         out !! i = Some (a, vscale (unit_vector a b) fhalf)
         ∧ direction <$> out !! (length p + S i)
           = Some (vneg (vscale (unit_vector a b) fhalf)))
    ∧ (∀ a b, p !! (length p - 2) = Some a → p !! (length p - 1) = Some b →
         direction <$> out !! length p
         = Some (vneg (vscale (vneg (unit_vector a b)) fhalf))).
Proof.
  intros Hp Hlen.
  pose proof (generate_order_vectors_computes h path_ p false Hp) as Hc.
  destruct (order_vectors_records p false Hlen) as (t & Ht & Hov). rewrite Hov in Hc.
  set (nv := zip p (segment_directions p ++ [t])) in *.
  pose proof (length_order_vectors p false nv Hov) as Hnv.
  destruct (last_order_vectors p false nv t Hov Ht) as (final & Hfinal & Hlast).
  rewrite last_lookup, Hnv in Hlast. rewrite last_lookup in Hfinal.
  exists (miter_helper_vectors nv). split; [|split; [|split]].
  - apply (result_pipeline _ _ _ _ (λ v, Ret (miter_helper_vectors v)) Hc).
    intros h' r Hr. by apply generate_miter_helper_vectors_computes.
  - rewrite length_miter_helper_vectors. lia.
  - intros i a b Ha Hb. apply lookup_lt_Some in Hb as Hi.
    pose proof (lookup_order_vectors p false nv i a b Hov Ha Hb) as Hrow.
    assert (Hnext : ∃ d, nv !! S i = Some (b, d)).
    { destruct (nv !! S i) as [[o d]|] eqn:E; [|apply lookup_ge_None in E; lia].
      exists d. f_equal. f_equal.
      pose proof (origins_order_vectors p false nv Hov) as Ho.
      assert (p !! S i = Some o); [|congruence].
      by rewrite <- Ho, list_lookup_fmap, E. }
    destruct Hnext as [d Hnext].
    assert (Hwrap : ∃ o' d', nv !! ((i + length nv - 1) `mod` length nv) = Some (o', d')).
    { destruct (nv !! ((i + length nv - 1) `mod` length nv)) as [[o' d']|] eqn:E; [eauto|].
      apply lookup_ge_None in E.
      pose proof (Nat.mod_upper_bound (i + length nv - 1) (length nv)). lia. }
    destruct Hwrap as (o' & d' & Hwrap).
    split.
    + by destruct (lookup_miter_helper_vectors nv i a _ o' d' Hrow Hwrap) as [-> _].
    + assert (Hprev : nv !! ((S i + length nv - 1) `mod` length nv)
                      = Some (a, unit_vector a b)).
      { replace (S i + length nv - 1) with (i + 1 * length nv) by lia.
        by rewrite Nat.Div0.mod_add, Nat.mod_small by lia. }
      destruct (lookup_miter_helper_vectors nv (S i) b d _ _ Hnext Hprev) as [_ Hsecond].
      rewrite <- Hnv. by rewrite Hsecond.
  - intros a b Ha Hb.
    assert (Hsd : segment_directions p !! (length p - 2) = Some (unit_vector a b)).
    { apply lookup_segment_directions; [done|].
      by replace (S (length p - 2)) with (length p - 1) by lia. }
    unfold last_direction in Ht. rewrite Hsd in Ht. injection Ht as <-.
    destruct (nv !! 0) as [[o0 d0]|] eqn:E0; [|apply lookup_ge_None in E0; lia].
    assert (Hprev : nv !! ((0 + length nv - 1) `mod` length nv)
                    = Some (final, vneg (unit_vector a b))).
    { rewrite Nat.mod_small by lia. rewrite Hnv.
      by replace (0 + length p - 1) with (pred (length p)) by lia. }
    destruct (lookup_miter_helper_vectors nv 0 o0 d0 _ _ E0 Hprev) as [_ Hsecond].
    rewrite <- Hnv, <- (Nat.add_0_r (length nv)). by rewrite Hsecond.
Qed.

Lemma X13_miter_helper_of_open_path_witness :
  2 ≤ length diagonal
  ∧ ∃ out : list (vector float),
      result (o ← generate_order_vectors 0 false; generate_miter_helper_vectors o)
        (Heap [Points diagonal] nan_memory) = Ret out
      ∧ length out = 4.
Proof.
  split; [simpl; lia|].
  destruct (X13_miter_helper_of_open_path (Heap [Points diagonal] nan_memory) 0 diagonal)
    as (out & Hout & Hl & _); [reflexivity|simpl; lia|].
  exists out. split; [exact Hout|exact Hl].
Defined.

(** ** The two ways to the join points *)

(** X14.  The two ways to the join points agree.  Take a layer of
    well-formed shapes, one of which at least has a face, whose stored edge
    meshes are what [generate_2D_edge_meshes] makes of their paths (whatever
    that function is, as long as it only allocates).  Then
    [get_nono_accelerated_points], which has the meshes made again, returns
    an array with the very contents of the [points] array of
    [get_helper_data_from_shapes], which reads the stored ones: centers plus
    offsets, shape after shape. *)
Theorem X14_non_accelerated_points_are_the_join_points {F : Type} {SF : Scalar F}
    (generate_2D_edge_meshes : ref → bool → M F (ref * ref * ref))
    (h : heap F) (shapes : list Shape) (cs : list (contents F)) :
  Forall2 (holds h) shapes cs → Forall well_formed cs → filter has_face cs ≠ [] →
  Forall2 (λ x c, ∀ h', extends h h' →
             yields (generate_2D_edge_meshes (data x) (_closed x)) h'
               (mesh_at (edge_vertices c, edge_offsets c, edge_triangles c)))
    shapes cs →
  ∃ (h1 h2 : heap F) (hp : Helpers.t) (r : ref) (join_points : list (xy F)),
    get_helper_data_from_shapes shapes h = (h1, Ret hp)
    ∧ get_nono_accelerated_points generate_2D_edge_meshes shapes h = (h2, Ret r)
    ∧ objects h1 !! Helpers.points hp = Some (Points join_points)
    ∧ objects h2 !! r = Some (Points join_points)
    ∧ join_points
      = zip_with vadd (concat (edge_vertices <$> cs)) (concat (edge_offsets <$> cs)).
Proof.
  intros Hall Hwf Hfaces Hmesher.
  destruct (get_helper_data_from_shapes_yields h shapes cs Hall Hwf Hfaces)
    as (h1 & hp & Hrun & _ & Hp & _).
  assert (Hshapes : shapes ≠ []).
  { intros ->. apply Forall2_nil_inv_l in Hall as ->. done. }
  destruct (get_nono_accelerated_points_yields generate_2D_edge_meshes h shapes
              ((λ c, (edge_vertices c, edge_offsets c, edge_triangles c)) <$> cs))
    as (h2 & r & Hrun2 & _ & Hr); [done| | |].
  { by apply Forall2_fmap_r. }
  { apply Forall_fmap. apply (Forall_impl _ _ _ Hwf). by intros c (_ & ? & _). }
  exists h1, h2, hp, r, (points (helper_data_of cs)).
  split; [done|]. split; [done|]. split; [done|]. split; [|done].
  by rewrite <- !list_fmap_compose in Hr.
Qed.

Lemma X14_non_accelerated_points_are_the_join_points_witness :
  ∃ (h1 h2 : heap float) (hp : Helpers.t) (r : ref) (join_points : list (xy float)),
    get_helper_data_from_shapes [Layer64.polygon; Layer64.line] Layer64.memory
    = (h1, Ret hp)
    ∧ get_nono_accelerated_points stored_mesh [Layer64.polygon; Layer64.line]
        Layer64.memory = (h2, Ret r)
    ∧ objects h1 !! Helpers.points hp = Some (Points join_points)
    ∧ objects h2 !! r = Some (Points join_points)
    ∧ join_points
      = zip_with vadd
          (concat (edge_vertices <$> [Layer64.polygon_contents; Layer64.line_contents]))
          (concat (edge_offsets <$> [Layer64.polygon_contents; Layer64.line_contents])).
Proof.
  apply (X14_non_accelerated_points_are_the_join_points stored_mesh Layer64.memory
           [Layer64.polygon; Layer64.line]
           [Layer64.polygon_contents; Layer64.line_contents]
           layer64_holds layer64_well_formed); [done|].
  apply Forall2_cons_2; [|apply Forall2_cons_2; [|apply Forall2_nil_2]].
  - intros h' Hext. apply yields_ret.
    repeat split; by apply (extends_lookup Layer64.memory).
  - intros h' Hext. apply yields_ret.
    repeat split; by apply (extends_lookup Layer64.memory).
Defined.

(** ** Exact arithmetic *)

(** X15.  In exact arithmetic [generate_regular_polygon(n, radius)] is a
    regular polygon.  A negative [n] is refused with [ValueError] (by
    [np.linspace]); otherwise the function returns [n] vertices, each at
    distance [|radius|] from the origin, the first one [(radius, 0)], and
    all the [n] sides, the one from the last vertex back to the first
    included, have the same length: its square is
    [2 radius^2 (1 - cos (2 pi / n))]. *)
Theorem X15_regular_polygon_exact (n : Z) (radius : R) :
  match generate_regular_polygon n radius with
  | Raise e => e = ValueError ∧ (n < 0)%Z
  | Ret vs =>
      (0 ≤ n)%Z ∧ length vs = Z.to_nat n
      ∧ (∀ i v, vs !! i = Some v → dot v v = (radius * radius)%R)
      ∧ ((0 < n)%Z → vs !! 0 = Some (radius, 0%R))
      ∧ (∀ i a b, vs !! i = Some a → vs !! (S i `mod` length vs) = Some b →
           dot (vsub b a) (vsub b a)
           = (2 * (radius * radius) * (1 - cos (2 * PI / IZR n)))%R)
  end.
Proof.
  destruct (Z.ltb_spec n 0) as [Hneg|Hnn].
  { unfold generate_regular_polygon, np_linspace.
    destruct (Z.ltb_spec n 0); [done|lia]. }
  destruct (decide (n = 0%Z)) as [->|Hnz].
  { unfold generate_regular_polygon, np_linspace. simpl.
    split; [lia|]. split; [done|]. split; [done|]. split; [lia|done]. }
  assert (Hn : 0 < Z.to_nat n) by lia.
  assert (E : generate_regular_polygon n radius
              = Ret (vertex (Z.to_nat n) radius <$> seq 0 (Z.to_nat n))).
  { rewrite <- (generate_regular_polygon_exact (Z.to_nat n) radius Hn).
    by rewrite Z2Nat.id by lia. }
  rewrite E. clear E.
  assert (HIZR : IZR n = INR (Z.to_nat n)).
  { rewrite INR_IZR_INZ, Z2Nat.id by lia. done. }
  assert (Hnr : (0 < INR (Z.to_nat n))%R) by (apply lt_0_INR; lia).
  rewrite HIZR. set (m := Z.to_nat n) in *.
  assert (Hlook : ∀ i v, (vertex m radius <$> seq 0 m) !! i = Some v →
                         i < m ∧ v = vertex m radius i).
  { intros i v. rewrite list_lookup_fmap. intros Hv.
    destruct (seq 0 m !! i) as [j|] eqn:Ej; [|done].
    apply lookup_seq in Ej as [-> Hi]. simpl in Hv. injection Hv as <-. done. }
  split; [lia|]. split; [by rewrite length_fmap, length_seq|].
  split; [|split].
  - intros i v [_ ->]%Hlook. unfold vertex, dot. simpl.
    set (a := (INR i * (2 * PI / INR m))%R).
    pose proof (sin2_cos2 a) as Ha. unfold Rsqr in Ha. nra.
  - intros _. rewrite list_lookup_fmap, lookup_seq_lt by lia. simpl.
    unfold vertex. simpl. rewrite Rmult_0_l, cos_0, sin_0. f_equal. f_equal; ring.
  - intros i a b [Hi ->]%Hlook. rewrite length_fmap, length_seq.
    intros [_ ->]%Hlook. unfold vertex, dot, vsub. simpl.
    set (d := (2 * PI / INR m)%R).
    set (x := (INR (S i `mod` m) * d)%R). set (y := (INR i * d)%R).
    replace ((radius * cos x - radius * cos y) * (radius * cos x - radius * cos y)
             + (radius * sin x - radius * sin y) * (radius * sin x - radius * sin y))%R
      with (radius * radius
            * ((cos x - cos y) * (cos x - cos y) + (sin x - sin y) * (sin x - sin y)))%R
      by ring.
    rewrite chord.
    assert (Hcos : cos (x - y) = cos d); [|rewrite Hcos; ring].
    unfold x, y. destruct (decide (S i < m)) as [Hlt|Hge].
    + rewrite Nat.mod_small by lia. rewrite S_INR. f_equal. ring.
    + assert (S i = m) as -> by lia. rewrite Nat.Div0.mod_same. simpl INR at 1.
      replace (0 * d - INR i * d)%R with (- (INR i * d))%R by ring.
      rewrite cos_neg.
      assert (Hm : INR m = (INR i + 1)%R).
      { assert (m = S i) as Hm' by lia. rewrite Hm' at 1. apply S_INR. }
      replace (INR i * d)%R with (- d + 2 * INR 1 * PI)%R.
      * rewrite cos_period. apply cos_neg.
      * unfold d. rewrite Hm. simpl INR. field. lra.
Qed.

(** X16.  In exact arithmetic the order vectors follow the path when it is
    scaled and moved, and keep their directions.  For a factor [s > 0] and
    an offset [c], [generate_order_vectors(path * s + c, closed)] ends as
    [generate_order_vectors(path, closed)] does: with the same exception,
    or with the records of the latter, their origins scaled and moved, their
    directions unchanged. *)
Theorem X16_order_vectors_of_a_scaled_and_moved_path
    (h h' : heap R) (path_ path' : ref) (p : list (xy R)) (closed : bool)
    (s : R) (c : xy R) :
  (0 < s)%R →
  objects h !! path_ = Some (Points p) →
  objects h' !! path' = Some (Points ((λ x, vadd (vscale x s) c) <$> p)) →
  result (generate_order_vectors path' closed) h'
  = match result (generate_order_vectors path_ closed) h with
    | Ret vec => Ret ((λ row, (vadd (vscale (origin row) s) c, direction row)) <$> vec)
    | Raise e => Raise e
    end.
Proof.
  intros Hs Hp Hp'.
  rewrite (result_generate_order_vectors h path_ p closed Hp).
  rewrite (result_generate_order_vectors h' path' _ closed Hp').
  by apply (order_vectors_similar s c p closed Hs).
Qed.

Lemma X16_order_vectors_of_a_scaled_and_moved_path_witness :
  result (generate_order_vectors 1 true)
    (Heap [Points three_four;
           Points ((λ x, vadd (vscale x 10%R) (25, 0)%R) <$> three_four)] zero_memory)
  = match result (generate_order_vectors 0 true)
            (Heap [Points three_four;
                   Points ((λ x, vadd (vscale x 10%R) (25, 0)%R) <$> three_four)]
               zero_memory) with
    | Ret vec =>
        Ret ((λ row, (vadd (vscale (origin row) 10%R) (25, 0)%R, direction row)) <$> vec)
    | Raise e => Raise e
    end.
Proof.
  apply (X16_order_vectors_of_a_scaled_and_moved_path
           (Heap [Points three_four;
                  Points ((λ x, vadd (vscale x 10%R) (25, 0)%R) <$> three_four)]
              zero_memory)
           (Heap [Points three_four;
                  Points ((λ x, vadd (vscale x 10%R) (25, 0)%R) <$> three_four)]
              zero_memory)
           0 1 three_four true 10%R (25, 0)%R); [lra|reflexivity|reflexivity].
Defined.
